(** * sql-migrator: dependency resolution, apply and cascading rollback

    A shallow embedding of [migrate.py] and the properties of its
    resolver / apply / rollback engine.

    Modelling conventions
    - Python [str] is [string]; a character is a code point below 256.
    - A Python [dict] is an association list with unique keys kept in
      insertion order (the iteration order of CPython dictionaries).
    - The database is a record holding the two ledger tables created by
      [CREATE_MIGRATIONS_TABLE_STATEMENT] and an abstract component [U] for
      everything else in the schema.  Migration scripts are arbitrary
      partial functions on [U]: they may fail, and they are assumed not to
      touch the two ledger tables.  Rows are kept in insertion order.
    - The primary-key and foreign-key constraints of the two tables are
      enforced by the statements that insert and delete rows.
    - [with db_engine.begin()] is a transaction: its body either commits
      as a whole or leaves the database as it was and re-raises.
    - [print] calls are kept as a list of messages; the arguments
      [connection_string] and [schema] select the database and are left
      out. *)

From Stdlib Require Import String Ascii List Bool Arith Lia Relations.
Import ListNotations.
Local Open Scope string_scope.
Local Open Scope list_scope.

Set Implicit Arguments.

(** ** Strings *)

Module Str.

(** [s.replace(old, new)] for a non-empty [old]: occurrences are replaced
    left to right without overlap.  [skip] counts the characters of a
    matched occurrence that are still to be dropped. *)
Fixpoint replace_from (old new : string) (skip : nat) (s : string) : string :=
  match s with
  | EmptyString => EmptyString
  | String c s' =>
      match skip with
      | S k => replace_from old new k s'
      | O =>
          if String.prefix old s
          then String.append new (replace_from old new (String.length old - 1) s')
          else String c (replace_from old new 0 s')
      end
  end.

Definition replace (old new s : string) : string := replace_from old new 0 s.

(** [s.startswith(p)] *)
Definition startswith (s p : string) : bool := String.prefix p s.

(** [str.isspace] on one character. *)
Definition isspace (c : ascii) : bool :=
  let n := nat_of_ascii c in
  (Nat.leb 9 n && Nat.leb n 13) || (Nat.leb 28 n && Nat.leb n 32)
  || Nat.eqb n 133 || Nat.eqb n 160.

Fixpoint lstrip (s : string) : string :=
  match s with
  | EmptyString => EmptyString
  | String c s' => if isspace c then lstrip s' else s
  end.

Definition reverse (s : string) : string :=
  string_of_list_ascii (rev (list_ascii_of_string s)).

(** [s.strip()] *)
Definition strip (s : string) : string :=
  reverse (lstrip (reverse (lstrip s))).

(** [x in l] for a list of strings. *)
Definition mem (x : string) (l : list string) : bool :=
  existsb (String.eqb x) l.

(** [l.remove(x)]: drops the first occurrence only. *)
Fixpoint remove_first (x : string) (l : list string) : list string :=
  match l with
  | [] => []
  | y :: l' => if String.eqb x y then l' else y :: remove_first x l'
  end.

End Str.

(** ** Dictionaries keyed by strings *)

Module Dict.

Section Ops.
Variable V : Type.

Definition t := list (string * V).

Definition keys (d : t) : list string := map fst d.

Fixpoint get (k : string) (d : t) : option V :=
  match d with
  | [] => None
  | (k', v) :: d' => if String.eqb k k' then Some v else get k d'
  end.

Definition mem (k : string) (d : t) : bool :=
  match get k d with Some _ => true | None => false end.

(** [d[k] = v]: an existing key keeps its position. *)
Fixpoint set (k : string) (v : V) (d : t) : t :=
  match d with
  | [] => [(k, v)]
  | (k', v') :: d' =>
      if String.eqb k k' then (k, v) :: d' else (k', v') :: set k v d'
  end.

(** [del d[k]] for a key that is present; keys being unique, one entry
    goes. *)
Definition del (k : string) (d : t) : t :=
  filter (fun entry => negb (String.eqb (fst entry) k)) d.

End Ops.

End Dict.

(** ** The ledger tables and the rest of the database *)

Record Ledger := {
  revision : list string;
  dependent_revision : list (string * string)   (* ParentRevision, DependentRevision *)
}.

Record Database (U : Type) := {
  ledger : Ledger;
  store : U
}.

Inductive exn :=
| ScriptError          (* the database rejected a migration script *)
| IntegrityError       (* a table constraint was violated *)
| FileNotFoundError
| KeyError.

Inductive outcome :=
| Returned             (* the function returned normally *)
| Exit (code : nat)    (* sys.exit(code) *)
| Raised (e : exn)     (* an exception left the function *)
| OutOfFuel.           (* the model's bound on iterations or depth was hit *)

Definition pair_eqb (a b : string * string) : bool :=
  String.eqb (fst a) (fst b) && String.eqb (snd a) (snd b).

(** INSERT INTO revision: primary key [revisions_pk], column width 255. *)
Definition INSERT_REVISION_TEMPLATE (revision_name : string) (l : Ledger)
  : exn + Ledger :=
  if Str.mem revision_name (revision l) then inl IntegrityError
  else if Nat.ltb 255 (String.length revision_name) then inl IntegrityError
  else inr {| revision := revision l ++ [revision_name];
              dependent_revision := dependent_revision l |}.

(** INSERT INTO dependent_revision: primary key on the pair, both columns
    reference [revision]. *)
Definition INSERT_DEPENDENT_REVISION_TEMPLATE (parent dependent : string)
  (l : Ledger) : exn + Ledger :=
  if existsb (pair_eqb (parent, dependent)) (dependent_revision l)
  then inl IntegrityError
  else if negb (Str.mem parent (revision l) && Str.mem dependent (revision l))
  then inl IntegrityError
  else inr {| revision := revision l;
              dependent_revision := dependent_revision l ++ [(parent, dependent)] |}.

(** DELETE FROM revision: refused (ON DELETE NO ACTION) while a row of
    [dependent_revision] references the revision. *)
Definition DELETE_REVISION_TEMPLATE (revision_name : string) (l : Ledger)
  : exn + Ledger :=
  if existsb (fun e => String.eqb (fst e) revision_name
                       || String.eqb (snd e) revision_name)
             (dependent_revision l)
  then inl IntegrityError
  else inr {| revision :=
                filter (fun r => negb (String.eqb r revision_name)) (revision l);
              dependent_revision := dependent_revision l |}.

(** DELETE FROM dependent_revision WHERE "DependentRevision" = ... *)
Definition DELETE_DEPENDENT_REVISION_TEMPLATE (revision_name : string)
  (l : Ledger) : exn + Ledger :=
  inr {| revision := revision l;
         dependent_revision :=
           filter (fun e => negb (String.eqb (snd e) revision_name))
                  (dependent_revision l) |}.

(** SELECT * FROM revision *)
Definition FIND_PREVIOUSLY_RUN_MIGRATIONS (l : Ledger) : list string :=
  revision l.

(** SELECT "DependentRevision" ... WHERE "ParentRevision" = ... *)
Definition FIND_DEPENDENT_REVISIONS (revision_name : string) (l : Ledger)
  : list string :=
  map snd (filter (fun e => String.eqb (fst e) revision_name)
                  (dependent_revision l)).

Definition PREDECESSOR_MARKER : string := "-- #".

(** ** Output and the state of one invocation *)

Inductive message :=
| MsgFinding
| MsgFound (n : nat)
| MsgAllApplied
| MsgToApply (n : nat)
| MsgInvalidDependencies
| MsgApplying (r : string)
| MsgUndoing (r : string)
| MsgDone.

(** [commits] is a ghost field: the ledger after each committed
    transaction, oldest first. *)
Record World (U : Type) := {
  db : Database U;
  stdout : list message;
  commits : list Ledger
}.

(** What the program sees of its surroundings: its directory, the result
    of [glob.glob], the lines of a file ([None] when it cannot be opened)
    and the effect of a script on the database. *)
Record Environment (U : Type) := {
  CURRENT_DIRECTORY : string;
  glob : string -> list string;
  open_file : string -> option (list string);
  execute : string -> U -> option U
}.

Definition bind {A B : Type} (x : exn + A) (f : A -> exn + B) : exn + B :=
  match x with
  | inl e => inl e
  | inr a => f a
  end.

Notation "x <- c1 ;; c2" := (bind c1 (fun x => c2))
  (at level 61, c1 at next level, right associativity).

Section Migrate.

Context {U : Type}.
Variable env : Environment U.

Definition print (m : message) (w : World U) : World U :=
  {| db := db w; stdout := stdout w ++ [m]; commits := commits w |}.

(** [with db_engine.begin() as connection: body] *)
Definition begin (body : Database U -> exn + Database U) (w : World U)
  : outcome * World U :=
  match body (db w) with
  | inl e => (Raised e, w)
  | inr d => (Returned, {| db := d; stdout := stdout w;
                           commits := commits w ++ [ledger d] |})
  end.

(** [file.read()] *)
Definition read (lines : list string) : string := String.concat EmptyString lines.

(** *** apply_migrations: the catalog (lines 141-147) *)

Definition revision_of_filename (migrations_directory filename : string)
  : string :=
  Str.replace ".sql" EmptyString
    (Str.replace migrations_directory EmptyString filename).

Definition build_revision_to_file (migrations_directory : string)
  (all_revisions : list string) : Dict.t string :=
  fold_left
    (fun d filename =>
       Dict.set (revision_of_filename migrations_directory filename) filename d)
    all_revisions [].

Definition remove_applied (applied_migrations : list string)
  (revision_to_file : Dict.t string) : Dict.t string :=
  fold_left
    (fun d applied_migration =>
       if Dict.mem applied_migration d then Dict.del applied_migration d else d)
    applied_migrations revision_to_file.

(** *** apply_migrations: predecessors of one file (lines 160-165)

    Both lists are kept in the order of the lines of the file. *)

Definition predecessor_of_line (line : string) : string :=
  Str.strip (Str.replace PREDECESSOR_MARKER EmptyString line).

Fixpoint read_predecessors (applied_migrations : list string)
  (lines : list string) : list string * list string :=
  match lines with
  | [] => ([], [])
  | line :: rest =>
      let '(declared, outstanding) := read_predecessors applied_migrations rest in
      if Str.startswith line PREDECESSOR_MARKER then
        let predecessor_revision := predecessor_of_line line in
        (predecessor_revision :: declared,
         if Str.mem predecessor_revision applied_migrations
         then outstanding
         else predecessor_revision :: outstanding)
      else (declared, outstanding)
  end.

Definition predecessors := Dict.t (list string * list string).

(** lines 156-165 *)
Fixpoint build_revision_to_predecessors (applied_migrations : list string)
  (items : list (string * string)) (acc : predecessors) : exn + predecessors :=
  match items with
  | [] => inr acc
  | (revision, file) :: rest =>
      match open_file env file with
      | None => inl FileNotFoundError
      | Some lines =>
          build_revision_to_predecessors applied_migrations rest
            (Dict.set revision (read_predecessors applied_migrations lines) acc)
      end
  end.

(** [[revision for revision in revision_to_predecessors
      if not revision_to_predecessors[revision][1]]] *)
Definition no_outstanding (entry : string * (list string * list string)) : bool :=
  match snd (snd entry) with
  | [] => true
  | _ :: _ => false
  end.

Definition revisions_with_no_outstanding_predecessors
  (revision_to_predecessors : predecessors) : list string :=
  map fst (filter no_outstanding revision_to_predecessors).

(** *** _apply_revisions_to_database *)

Fixpoint insert_parents (parents : list string) (dependent : string)
  (l : Ledger) : exn + Ledger :=
  match parents with
  | [] => inr l
  | parent_revision :: rest =>
      l' <- INSERT_DEPENDENT_REVISION_TEMPLATE parent_revision dependent l ;;
      insert_parents rest dependent l'
  end.

(** lines 213-218, the body of the transaction *)
Definition apply_transaction (revision : string) (migration_command : string)
  (entry : option (list string * list string)) (d : Database U)
  : exn + Database U :=
  match execute env migration_command (store d) with
  | None => inl ScriptError
  | Some u =>
      l1 <- INSERT_REVISION_TEMPLATE revision (ledger d) ;;
      match entry with
      | None => inl KeyError
      | Some (declared, _) =>
          l2 <- insert_parents declared revision l1 ;;
          inr {| ledger := l2; store := u |}
      end
  end.

(** lines 222-225 *)
Definition forget_predecessor (revision : string) (p : predecessors)
  : predecessors :=
  map (fun entry =>
         (fst entry,
          (fst (snd entry),
           if Str.mem revision (snd (snd entry))
           then Str.remove_first revision (snd (snd entry))
           else snd (snd entry))))
      p.

(** lines 209-225, one pass of the body of the [for] loop *)
Definition apply_revision (revision_to_file : Dict.t string)
  (revision : string) (st : predecessors * World U)
  : outcome * (predecessors * World U) :=
  let '(revision_to_predecessors, w) := st in
  match Dict.get revision revision_to_file with
  | None => (Raised KeyError, st)
  | Some file =>
      match open_file env file with
      | None => (Raised FileNotFoundError, st)
      | Some lines =>
          let migration_command := read lines in
          let w1 := print (MsgApplying revision) w in
          match begin (apply_transaction revision migration_command
                         (Dict.get revision revision_to_predecessors)) w1 with
          | (Returned, w2) =>
              let w3 := print MsgDone w2 in
              if Dict.mem revision revision_to_predecessors then
                (Returned,
                 (forget_predecessor revision
                    (Dict.del revision revision_to_predecessors), w3))
              else (Raised KeyError, (revision_to_predecessors, w3))
          | (o, w2) => (o, (revision_to_predecessors, w2))
          end
      end
  end.

(** lines 208-225: the [for] loop over one frontier.  The third component
    lists the revisions committed by this pass, in order. *)
Fixpoint apply_round (revision_to_file : Dict.t string)
  (frontier : list string) (st : predecessors * World U)
  : outcome * (predecessors * World U) * list string :=
  match frontier with
  | [] => (Returned, st, [])
  | revision :: rest =>
      match apply_revision revision_to_file revision st with
      | (Returned, st1) =>
          let '(o, st2, done) := apply_round revision_to_file rest st1 in
          (o, st2, revision :: done)
      | (o, st1) => (o, st1, [])
      end
  end.

(** lines 205-230: the [while] loop.  [fuel] bounds the number of
    iterations; the third component lists, per iteration, the revisions
    it committed. *)
Fixpoint _apply_revisions_to_database (fuel : nat)
  (revision_to_file : Dict.t string)
  (revisions_with_no_outstanding : list string)
  (st : predecessors * World U)
  : outcome * (predecessors * World U) * list (list string) :=
  match fuel with
  | O => (OutOfFuel, st, [])
  | S fuel' =>
      match apply_round revision_to_file revisions_with_no_outstanding st with
      | (Returned, st1, done) =>
          match revisions_with_no_outstanding_predecessors (fst st1) with
          | [] => (Returned, st1, [done])
          | next =>
              let '(o, st2, rounds) :=
                _apply_revisions_to_database fuel' revision_to_file next st1 in
              (o, st2, done :: rounds)
          end
      | (o, st1, done) => (o, st1, [done])
      end
  end.

(** *** apply_migrations *)

Definition migrations_directory : string :=
  String.append (CURRENT_DIRECTORY env) "/up/".

(** [revision_to_file] after lines 141-147 *)
Definition pending_files (applied_migrations : list string) : Dict.t string :=
  remove_applied applied_migrations
    (build_revision_to_file migrations_directory
       (glob env (String.append migrations_directory "*.sql"))).

(** [revision_to_predecessors] after lines 156-165 *)
Definition pending_predecessors (applied_migrations : list string)
  : exn + predecessors :=
  build_revision_to_predecessors applied_migrations
    (pending_files applied_migrations) [].

Definition apply_migrations (fuel : nat) (w : World U)
  : outcome * World U * list (list string) :=
  let w := print MsgFinding w in
  let applied_migrations := FIND_PREVIOUSLY_RUN_MIGRATIONS (ledger (db w)) in
  let w := print (MsgFound (length applied_migrations)) w in
  let revision_to_file := pending_files applied_migrations in
  match revision_to_file with
  | [] => (Returned, print MsgAllApplied w, [])
  | _ :: _ =>
      let w := print (MsgToApply (length revision_to_file)) w in
      match pending_predecessors applied_migrations with
      | inl e => (Raised e, w, [])
      | inr revision_to_predecessors =>
          match revisions_with_no_outstanding_predecessors
                  revision_to_predecessors with
          | [] => (Exit 1, print MsgInvalidDependencies w, [])
          | first =>
              let '(o, st, rounds) :=
                _apply_revisions_to_database fuel revision_to_file first
                  (revision_to_predecessors, w) in
              (o, snd st, rounds)
          end
      end
  end.

(** *** remove_migration *)

(** [for m in l: f(m)], stopping at the first call that does not return *)
Fixpoint for_each (f : string -> World U -> outcome * World U)
  (l : list string) (w : World U) : outcome * World U :=
  match l with
  | [] => (Returned, w)
  | m :: rest =>
      match f m w with
      | (Returned, w1) => for_each f rest w1
      | other => other
      end
  end.

(** lines 196-199, the body of the transaction *)
Definition remove_transaction (revision_to_remove : string)
  (migration_command : string) (d : Database U) : exn + Database U :=
  match execute env migration_command (store d) with
  | None => inl ScriptError
  | Some u =>
      l1 <- DELETE_DEPENDENT_REVISION_TEMPLATE revision_to_remove (ledger d) ;;
      l2 <- DELETE_REVISION_TEMPLATE revision_to_remove l1 ;;
      inr {| ledger := l2; store := u |}
  end.

(** line 192 *)
Definition file_to_apply (revision_to_remove : string) : string :=
  String.append (CURRENT_DIRECTORY env)
    (String.append "/down/" (String.append revision_to_remove ".sql")).

(** lines 191-200 *)
Definition undo (revision_to_remove : string) (w : World U)
  : outcome * World U :=
  let w1 := print (MsgUndoing revision_to_remove) w in
  match open_file env (file_to_apply revision_to_remove) with
  | None => (Raised FileNotFoundError, w1)
  | Some lines =>
      match begin (remove_transaction revision_to_remove (read lines)) w1 with
      | (Returned, w2) => (Returned, print MsgDone w2)
      | other => other
      end
  end.

(** lines 182-200.  [fuel] bounds the depth of the recursion; the limit
    the Python interpreter puts on it is not modelled. *)
Fixpoint remove_migration (fuel : nat) (revision_to_remove : string)
  (w : World U) : outcome * World U :=
  match fuel with
  | O => (OutOfFuel, w)
  | S fuel' =>
      let dependent_migrations :=
        FIND_DEPENDENT_REVISIONS revision_to_remove (ledger (db w)) in
      match for_each (remove_migration fuel') dependent_migrations w with
      | (Returned, w1) => undo revision_to_remove w1
      | other => other
      end
  end.

End Migrate.

(** ** Vocabulary of the statements *)

(** The ledger of a world. *)
Definition ledger_of {U : Type} (w : World U) : Ledger := ledger (db w).

(** The rows [dependent_revision] receives when [r] is applied: one per
    entry of [revision_to_predecessors[r][0]]. *)
Definition edges_of (p : Dict.t (list string * list string)) (r : string)
  : list (string * string) :=
  match Dict.get r p with
  | Some (declared, _) => map (fun parent => (parent, r)) declared
  | None => []
  end.

(** The effect of the forward script of [r] on the rest of the database. *)
Definition forward_effect {U : Type} (env : Environment U)
  (revision_to_file : Dict.t string) (u : option U) (r : string) : option U :=
  match u, Dict.get r revision_to_file with
  | Some u0, Some file =>
      match open_file env file with
      | Some lines => execute env (read lines) u0
      | None => None
      end
  | _, _ => None
  end.

(** The lines printed around the transactions of the applied revisions. *)
Definition applied_messages (done : list string) : list message :=
  flat_map (fun r => [MsgApplying r; MsgDone]) done.

(** Primary keys and foreign keys of the two tables. *)
Definition primary_keys (l : Ledger) : Prop :=
  NoDup (revision l) /\ NoDup (dependent_revision l).

Definition foreign_keys (l : Ledger) : Prop :=
  forall parent dependent,
    In (parent, dependent) (dependent_revision l) ->
    In parent (revision l) /\ In dependent (revision l).

Definition well_formed (l : Ledger) : Prop :=
  primary_keys l /\ foreign_keys l.

(** The bookkeeping of lines 221-225 after [r] has been applied. *)
Definition settle (p : Dict.t (list string * list string)) (r : string)
  : Dict.t (list string * list string) :=
  forget_predecessor r (Dict.del r p).

Definition evolve (p : Dict.t (list string * list string)) (done : list string)
  : Dict.t (list string * list string) :=
  fold_left settle done p.

(** Why a run of the loop stopped. *)
Inductive stop :=
| Completed
| FailedAt (r : string)
| Fuel.

Definition stop_of (o : outcome) (s : stop) : Prop :=
  match s with
  | Completed => o = Returned
  | FailedAt _ => exists e, o = Raised e
  | Fuel => o = OutOfFuel
  end.

(** The skeleton of the [while] loop: the frontiers it works through and
    the dictionary it ends with. *)
Inductive schedule :
  list string -> Dict.t (list string * list string) -> list (list string) ->
  Dict.t (list string * list string) -> stop -> Prop :=
| schedule_fuel F p :
    schedule F p [] p Fuel
| schedule_failed F p done r rest :
    F = done ++ r :: rest ->
    schedule F p [done] (evolve p done) (FailedAt r)
| schedule_last F p :
    revisions_with_no_outstanding_predecessors (evolve p F) = [] ->
    schedule F p [F] (evolve p F) Completed
| schedule_next F p rounds p' s :
    revisions_with_no_outstanding_predecessors (evolve p F) <> [] ->
    schedule (revisions_with_no_outstanding_predecessors (evolve p F))
             (evolve p F) rounds p' s ->
    schedule F p (F :: rounds) p' s.

(** What a list of committed transactions did to the database: the rows
    added to both tables, the scripts run on the rest of the database, and
    that each revision was pending and new to the ledger. *)
Definition effect {U : Type} (env : Environment U)
  (revision_to_file : Dict.t string)
  (p : Dict.t (list string * list string)) (done : list string)
  (w w' : World U) : Prop :=
  revision (ledger_of w') = revision (ledger_of w) ++ done /\
  dependent_revision (ledger_of w')
  = dependent_revision (ledger_of w) ++ flat_map (edges_of p) done /\
  fold_left (forward_effect env revision_to_file) done (Some (store (db w)))
  = Some (store (db w')) /\
  Forall (fun r => In r (Dict.keys p)) done /\
  Forall (fun r => ~ In r (revision (ledger_of w))) done.

(** The predecessors a forward script declares, and those of them that are
    not in [applied]: the two lists lines 160-165 build. *)
Definition declared_in (lines : list string) : list string :=
  map predecessor_of_line
      (filter (fun line => Str.startswith line PREDECESSOR_MARKER) lines).

Definition outstanding_in (applied : list string) (lines : list string)
  : list string :=
  filter (fun x => negb (Str.mem x applied)) (declared_in lines).

(** The catalog before the applied revisions are taken out (line 143). *)
Definition catalog {U : Type} (env : Environment U) : Dict.t string :=
  build_revision_to_file (migrations_directory env)
    (glob env (String.append (migrations_directory env) "*.sql")).

(** The entry lines 156-165 add for one item of [revision_to_file], when
    its file opens. *)
Definition entry_of {U : Type} (env : Environment U) (applied : list string)
  (item : string * string) : option (string * (list string * list string)) :=
  match open_file env (snd item) with
  | Some lines => Some (fst item, read_predecessors applied lines)
  | None => None
  end.


(** ** Graphs of revisions *)

(** Consecutive elements of the list are related. *)
Fixpoint chain {A : Type} (R : A -> A -> Prop) (l : list A) : Prop :=
  match l with
  | [] => True
  | x :: l' =>
      match l' with
      | [] => True
      | y :: _ => R x y
      end /\ chain R l'
  end.

Definition acyclic {A : Type} (R : A -> A -> Prop) : Prop :=
  forall x, ~ clos_trans A R x x.

(** The edge (parent, dependent) is recorded in the ledger. *)
Definition recorded_edge (l : Ledger) (parent dependent : string) : Prop :=
  In (parent, dependent) (dependent_revision l).

(** [m] is pending and declares the pending revision [x] as predecessor. *)
Definition waits_for (p0 : Dict.t (list string * list string))
  (m x : string) : Prop :=
  exists declared outstanding,
    Dict.get m p0 = Some (declared, outstanding) /\
    In x declared /\ In x (Dict.keys p0).

(** [n] is [M] or waits, directly or through others, for [M]. *)
Definition held_back (p0 : Dict.t (list string * list string)) (M : string)
  (n : string) : Prop :=
  n = M \/ clos_trans string (waits_for p0) n M.

(** [M] still has [Pd] outstanding, twice while [Pd] is pending; every
    other revision held back still has a revision held back outstanding. *)
Definition blocked (p0 : Dict.t (list string * list string)) (M Pd : string)
  (q : Dict.t (list string * list string)) : Prop :=
  (exists d o,
      Dict.get M q = Some (d, o) /\ In Pd o /\
      (In Pd (Dict.keys q) -> 2 <= count_occ string_dec o Pd)) /\
  (forall n, held_back p0 M n -> n <> M ->
     exists d o x, Dict.get n q = Some (d, o) /\ In x o /\ held_back p0 M x).

(** The ledger once the revisions in [removed] have been rolled back: their
    rows are gone from [revision], and so are the edges in which they are
    the dependent. *)
Definition without (removed : list string) (l : Ledger) : Ledger :=
  {| revision := filter (fun r => negb (Str.mem r removed)) (revision l);
     dependent_revision :=
       filter (fun e => negb (Str.mem (snd e) removed)) (dependent_revision l) |}.

(** Rows are only ever deleted between [w] and [w']. *)
Definition shrinks {U : Type} (w w' : World U) : Prop :=
  incl (revision (ledger_of w')) (revision (ledger_of w)) /\
  incl (dependent_revision (ledger_of w')) (dependent_revision (ledger_of w)).

(** If the foreign keys hold in [w] and held after every earlier commit,
    the same is true in [w']. *)
Definition keeps_foreign_keys {U : Type} (w w' : World U) : Prop :=
  foreign_keys (ledger_of w) -> Forall foreign_keys (commits w) ->
  foreign_keys (ledger_of w') /\ Forall foreign_keys (commits w').

(** Successive [down] invocations, one per target. *)
Definition remove_migrations {U : Type} (env : Environment U) (fuel : nat)
  (targets : list string) (w : World U) : outcome * World U :=
  for_each (remove_migration env fuel) targets w.

(** ** Concrete installations used as examples *)

Module Examples.

Fixpoint lookup (disk : list (string * list string)) (path : string)
  : option (list string) :=
  match disk with
  | [] => None
  | (path', lines) :: disk' =>
      if String.eqb path path' then Some lines else lookup disk' path
  end.

Definition newline : string := String (ascii_of_nat 10) EmptyString.

Definition up (name : string) : string :=
  String.append "/m/up/" (String.append name ".sql").

Definition down (name : string) : string :=
  String.append "/m/down/" (String.append name ".sql").

Definition marker (name : string) : string :=
  String.append "-- # " (String.append name newline).

(** The tool sits in [/m]; [ups] is what [glob] finds in [/m/up]; the rest
    of the database is the list of the scripts executed so far, and the
    script [FAIL] is rejected. *)
Definition installation (ups : list string) (disk : list (string * list string))
  : Environment (list string) :=
  {| CURRENT_DIRECTORY := "/m";
     glob := fun pattern => if String.eqb pattern "/m/up/*.sql" then ups else [];
     open_file := lookup disk;
     execute := fun command u =>
                  if String.eqb command "FAIL" then None else Some (u ++ [command]) |}.

Definition world_of (l : Ledger) : World (list string) :=
  {| db := {| ledger := l; store := [] |}; stdout := []; commits := [] |}.

Definition empty_ledger : Ledger :=
  {| revision := []; dependent_revision := [] |}.

(** Scenario 1 of the specification: A, B after A, C after A, D after B and C. *)
Definition diamond : Environment (list string) :=
  installation [up "D"; up "B"; up "A"; up "C"]
    [ (up "A", ["create a;"]);
      (up "B", [marker "A"; "create b;"]);
      (up "C", [marker "A"; "create c;"]);
      (up "D", [marker "B"; marker "C"; "create d;"]);
      (down "A", ["drop a;"]); (down "B", ["drop b;"]);
      (down "C", ["drop c;"]); (down "D", ["drop d;"]) ].

(** Scenario 3: E and F name each other. *)
Definition mutual : Environment (list string) :=
  installation [up "E"; up "F"]
    [ (up "E", [marker "F"; "create e;"]);
      (up "F", [marker "E"; "create f;"]) ].

(** A sound migration next to one that names itself. *)
Definition self_loop_beside : Environment (list string) :=
  installation [up "A"; up "B"]
    [ (up "A", ["create a;"]);
      (up "B", [marker "B"; "create b;"]) ].

(** One migration on disk; the ledger used with it also lists a revision
    [X] that has no file. *)
Definition single : Environment (list string) :=
  installation [up "A"]
    [ (up "A", ["create a;"]); (down "A", ["drop a;"]) ].

Definition ledger_with_stranger : Ledger :=
  {| revision := ["X"]; dependent_revision := [] |}.

(** Two files whose names give the same identifier [x]. *)
Definition shadowed : Environment (list string) :=
  installation [up "x"; up "x.sql"]
    [ (up "x", ["create first;"]); (up "x.sql", ["create second;"]) ].

(** B repeats its marker for A; C comes after B. *)
Definition repeated_marker : Environment (list string) :=
  installation [up "A"; up "B"; up "C"]
    [ (up "A", ["create a;"]);
      (up "B", [marker "A"; marker "A"; "create b;"]);
      (up "C", [marker "B"; "create c;"]) ].

(** B repeats its marker for A, and A waits for Q, which is nowhere. *)
Definition repeated_marker_blocked : Environment (list string) :=
  installation [up "A"; up "B"]
    [ (up "A", [marker "Q"; "create a;"]);
      (up "B", [marker "A"; marker "A"; "create b;"]) ].


(** [revision_to_predecessors] of the repeated-marker installation. *)
Definition repeated_marker_predecessors : Dict.t (list string * list string) :=
  [ ("A", ([], []));
    ("B", (["A"; "A"], ["A"; "A"]));
    ("C", (["B"], ["B"])) ].

(** The ledger Scenario 1 ends with. *)
Definition diamond_ledger : Ledger :=
  {| revision := ["A"; "B"; "C"; "D"];
     dependent_revision := [("A", "B"); ("A", "C"); ("B", "D"); ("C", "D")] |}.

(** How far below A a revision of the diamond sits, and how far above D. *)
Definition depth (r : string) : nat :=
  if String.eqb r "A" then 0 else if String.eqb r "D" then 2 else 1.


(** A ledger whose recorded edges form a loop. *)
Definition looping_ledger : Ledger :=
  {| revision := ["A"; "B"]; dependent_revision := [("A", "B"); ("B", "A")] |}.

(** A ledger in which B and C record each other and A stands alone. *)
Definition loop_aside : Ledger :=
  {| revision := ["A"; "B"; "C"];
     dependent_revision := [("B", "C"); ("C", "B")] |}.

End Examples.



(** ** Vocabulary of the further properties *)

(** If the primary and foreign keys hold in [w] and held after every
    earlier commit, the same is true in [w']. *)
Definition keeps_well_formed {U : Type} (w w' : World U) : Prop :=
  well_formed (ledger_of w) -> Forall well_formed (commits w) ->
  well_formed (ledger_of w') /\ Forall well_formed (commits w').

(** The row of [x] and the edges that have [x] as dependent stay. *)
Definition keeps_rows_of {U : Type} (x : string) (w w' : World U) : Prop :=
  (In x (revision (ledger_of w)) -> In x (revision (ledger_of w'))) /\
  (forall a, In (a, x) (dependent_revision (ledger_of w)) ->
             In (a, x) (dependent_revision (ledger_of w'))).

(** [removed] contains the dependents of its members. *)
Definition closed_under (l : Ledger) (removed : list string) : Prop :=
  forall a b, In a removed -> In (a, b) (dependent_revision l) -> In b removed.

(** [y] is [x] or lies below [x] along the recorded edges. *)
Definition at_or_below (l : Ledger) (x y : string) : Prop :=
  y = x \/ clos_trans string (recorded_edge l) x y.




(** A revision from which a cycle of recorded edges can be reached. *)
Definition above_a_cycle (l : Ledger) (x : string) : Prop :=
  exists c, at_or_below l x c /\ clos_trans string (recorded_edge l) c c.


(** ** File names and marker lines *)

(** [c in s] for one character. *)
Definition occurs (c : ascii) (s : string) : Prop :=
  In c (list_ascii_of_string s).

(** Every character of [s] is white space. *)
Definition blank (s : string) : Prop :=
  forall c, occurs c s -> Str.isspace c = true.

(** No character of [s] is white space. *)
Definition unspaced (s : string) : Prop :=
  forall c, occurs c s -> Str.isspace c = false.

(** A name that can stand between the directory and the extension: it has
    no path separator and no dot. *)
Definition plain (s : string) : Prop :=
  ~ occurs "/"%char s /\ ~ occurs "."%char s.

(** The file [glob] reports for the stem [b] in [up/]. *)
Definition up_path {U : Type} (env : Environment U) (b : string) : string :=
  String.append (migrations_directory env) (String.append b ".sql").

(** Every file of [up/] is named by a plain stem. *)
Definition plainly_named {U : Type} (env : Environment U) : Prop :=
  forall f,
    In f (glob env (String.append (migrations_directory env) "*.sql")) ->
    exists b, plain b /\ f = up_path env b.

(** A stem that a marker line carries unchanged: it has no '#', and no
    white space at either end. *)
Definition marker_safe (b : string) : Prop :=
  ~ occurs "#"%char b /\ Str.strip b = b.

(** [l] is in ascending order. *)
Fixpoint ascending (l : list string) : Prop :=
  match l with
  | [] => True
  | x :: l' => (forall y, In y l' -> String.leb x y = true) /\ ascending l'
  end.

(** ** Scaffolding a revision: the names [create_revision] computes *)

Module Scaffold.

(** [s.split()]: the maximal runs of characters that are not white
    space, in order.  [word] holds the run being read, last character
    first. *)
Fixpoint split_from (word : list ascii) (s : string) : list string :=
  match s with
  | EmptyString =>
      match word with
      | [] => []
      | _ => [string_of_list_ascii (rev word)]
      end
  | String c s' =>
      if Str.isspace c then
        match word with
        | [] => split_from [] s'
        | _ => string_of_list_ascii (rev word) :: split_from [] s'
        end
      else split_from (c :: word) s'
  end.

Definition split (s : string) : list string := split_from [] s.

(** [sep.join(words)] *)
Definition join (sep : string) (words : list string) : string :=
  String.concat sep words.

(** [l.sort()] on strings: insertion into a list kept in ascending order
    of code points. *)
Fixpoint insert (x : string) (l : list string) : list string :=
  match l with
  | [] => [x]
  | y :: l' => if String.leb x y then x :: l else y :: insert x l'
  end.

Fixpoint sort (l : list string) : list string :=
  match l with
  | [] => []
  | x :: l' => insert x (sort l')
  end.

(** [s[:-n]] *)
Definition drop_last (n : nat) (s : string) : string :=
  String.substring 0 (String.length s - n) s.

(** [MIGRATION_FILENAME_TEMPLATE.format(time=..., name='_'.join(name.split()))],
    line 113; [time] is the formatted clock reading. *)
Definition revision_name (time name : string) : string :=
  String.append time (String.append "_" (join "_" (split name))).

Section Names.
Variable U : Type.
Variable env : Environment U.

(** lines 116-120 *)
Definition previous_migration : string :=
  match sort (glob env (String.append (migrations_directory env) "*.sql")) with
  | [] => EmptyString
  | (_ :: _) as all_revisions =>
      String.append PREDECESSOR_MARKER
        (String.append " "
           (Str.replace (migrations_directory env) EmptyString
              (drop_last 4 (last all_revisions EmptyString))))
  end.

(** lines 126-128: the two files written for a revision *)
Definition up_file (revision_name : string) : string :=
  String.append (String.append (CURRENT_DIRECTORY env) "/up/")
    (String.append revision_name ".sql").

Definition down_file (revision_name : string) : string :=
  String.append (String.append (CURRENT_DIRECTORY env) "/down/")
    (String.append revision_name ".sql").

End Names.

End Scaffold.
(** ** Basic facts *)

Lemma mem_In (x : string) (l : list string) : Str.mem x l = true <-> In x l.
Proof.
  unfold Str.mem. rewrite existsb_exists. split.
  - intros [y [Hy Heq]]. apply String.eqb_eq in Heq. now subst.
  - intros H. exists x. split; [assumption | apply String.eqb_refl].
Qed.

Lemma mem_not_In (x : string) (l : list string) : Str.mem x l = false <-> ~ In x l.
Proof.
  rewrite <- mem_In. destruct (Str.mem x l); split; congruence.
Qed.

Lemma pair_eqb_eq (a b : string * string) : pair_eqb a b = true <-> a = b.
Proof.
  destruct a as [a1 a2], b as [b1 b2]. unfold pair_eqb. simpl.
  rewrite andb_true_iff, !String.eqb_eq. split.
  - intros [-> ->]. reflexivity.
  - intros H. inversion H. auto.
Qed.

Lemma pair_mem_In (e : string * string) (l : list (string * string)) :
  existsb (pair_eqb e) l = true <-> In e l.
Proof.
  rewrite existsb_exists. split.
  - intros [y [Hy Heq]]. apply pair_eqb_eq in Heq. now subst.
  - intros H. exists e. split; [assumption | now apply pair_eqb_eq].
Qed.

Module DictFacts.

Section Facts.
Variable V : Type.
Implicit Types (d : Dict.t V) (k : string) (v : V).

Lemma get_In d k v : Dict.get k d = Some v -> In (k, v) d.
Proof.
  induction d as [|[k' v'] d IH]; simpl; [discriminate|].
  destruct (String.eqb_spec k k') as [->|Hne].
  - intros [= ->]. now left.
  - intros H. right. auto.
Qed.

Lemma get_keys d k : In k (Dict.keys d) <-> exists v, Dict.get k d = Some v.
Proof.
  induction d as [|[k' v'] d IH]; simpl.
  - split; [tauto | intros [v H]; discriminate].
  - destruct (String.eqb_spec k k') as [->|Hne].
    + split; [eauto | auto].
    + rewrite <- IH. split; [intros [H|H]; [congruence | assumption] | auto].
Qed.

Lemma mem_keys d k : Dict.mem k d = true <-> In k (Dict.keys d).
Proof.
  unfold Dict.mem. rewrite get_keys.
  destruct (Dict.get k d); split; eauto; try discriminate.
  intros [v H]. discriminate.
Qed.

Lemma get_del d k k' :
  Dict.get k (Dict.del k' d) = if String.eqb k k' then None else Dict.get k d.
Proof.
  unfold Dict.del. induction d as [|[k1 v1] d IH]; simpl.
  - destruct (String.eqb k k'); reflexivity.
  - destruct (String.eqb_spec k1 k') as [->|Hne1]; simpl.
    + rewrite IH. destruct (String.eqb k k'); reflexivity.
    + rewrite IH. destruct (String.eqb_spec k k1) as [->|Hne].
      * destruct (String.eqb_spec k1 k'); [contradiction | reflexivity].
      * reflexivity.
Qed.

Lemma keys_del d k :
  Dict.keys (Dict.del k d) = filter (fun x => negb (String.eqb x k)) (Dict.keys d).
Proof.
  unfold Dict.del, Dict.keys. induction d as [|[k1 v1] d IH]; simpl; [reflexivity|].
  destruct (String.eqb k1 k); simpl; now rewrite IH.
Qed.

Lemma del_length d k :
  In k (Dict.keys d) -> length (Dict.del k d) < length d.
Proof.
  unfold Dict.del. induction d as [|[k1 v1] d IH]; simpl; [tauto|].
  intros [H|H].
  - subst. rewrite String.eqb_refl. simpl.
    pose proof (filter_length_le (fun entry : string * V => negb (String.eqb (fst entry) k)) d).
    lia.
  - specialize (IH H). destruct (String.eqb k1 k); simpl; lia.
Qed.

Lemma NoDup_keys_del d k : NoDup (Dict.keys d) -> NoDup (Dict.keys (Dict.del k d)).
Proof.
  intros H. rewrite keys_del. now apply NoDup_filter.
Qed.

Lemma keys_set d k v :
  Dict.keys (Dict.set k v d)
  = if Dict.mem k d then Dict.keys d else Dict.keys d ++ [k].
Proof.
  unfold Dict.mem.
  induction d as [|[k1 v1] d IH]; simpl; [reflexivity|].
  destruct (String.eqb_spec k k1) as [->|Hne]; [reflexivity|].
  simpl. rewrite IH. destruct (Dict.get k d); reflexivity.
Qed.

Lemma get_set d k v k' :
  Dict.get k' (Dict.set k v d) = if String.eqb k' k then Some v else Dict.get k' d.
Proof.
  induction d as [|[k1 v1] d IH]; simpl.
  - reflexivity.
  - destruct (String.eqb_spec k k1) as [->|Hne]; simpl.
    + destruct (String.eqb k' k1); reflexivity.
    + rewrite IH. destruct (String.eqb_spec k' k1) as [->|Hne'].
      * destruct (String.eqb_spec k1 k); [congruence | reflexivity].
      * reflexivity.
Qed.

Lemma NoDup_keys_set d k v : NoDup (Dict.keys d) -> NoDup (Dict.keys (Dict.set k v d)).
Proof.
  intros Hnd. rewrite keys_set.
  destruct (Dict.mem k d) eqn:E; [assumption|].
  apply NoDup_app; [assumption | repeat constructor; simpl; tauto |].
  intros x Hx [<-|[]]. apply mem_keys in Hx. congruence.
Qed.

End Facts.

End DictFacts.

(** ** The apply loop: what one transaction, one pass and a whole run do *)

Section ApplyFacts.

Context {U : Type}.
Variable env : Environment U.
Variable revision_to_file : Dict.t string.

Implicit Types (p : Dict.t (list string * list string)) (w : World U).

Lemma get_forget_predecessor p r m :
  Dict.get m (forget_predecessor r p)
  = match Dict.get m p with
    | Some (declared, outstanding) =>
        Some (declared,
              if Str.mem r outstanding then Str.remove_first r outstanding
              else outstanding)
    | None => None
    end.
Proof.
  unfold forget_predecessor.
  induction p as [|[k [d o]] p IH]; simpl; [reflexivity|].
  destruct (String.eqb m k); [reflexivity | apply IH].
Qed.

Lemma keys_forget_predecessor p r :
  Dict.keys (forget_predecessor r p) = Dict.keys p.
Proof.
  unfold forget_predecessor, Dict.keys. rewrite map_map. reflexivity.
Qed.

Lemma get_settle p r m :
  Dict.get m (settle p r)
  = if String.eqb m r then None
    else match Dict.get m p with
         | Some (declared, outstanding) =>
             Some (declared,
                   if Str.mem r outstanding then Str.remove_first r outstanding
                   else outstanding)
         | None => None
         end.
Proof.
  unfold settle. rewrite get_forget_predecessor, DictFacts.get_del.
  destruct (String.eqb m r); reflexivity.
Qed.

Lemma keys_settle p r :
  Dict.keys (settle p r) = filter (fun x => negb (String.eqb x r)) (Dict.keys p).
Proof.
  unfold settle. now rewrite keys_forget_predecessor, DictFacts.keys_del.
Qed.

Lemma edges_of_settle p r m :
  In m (Dict.keys (settle p r)) -> edges_of (settle p r) m = edges_of p m.
Proof.
  intros Hin. apply DictFacts.get_keys in Hin. destruct Hin as [v Hv].
  unfold edges_of. rewrite get_settle in *.
  destruct (String.eqb m r); [discriminate|].
  destruct (Dict.get m p) as [[d o]|]; [reflexivity | discriminate].
Qed.

Lemma evolve_app p l1 l2 : evolve p (l1 ++ l2) = evolve (evolve p l1) l2.
Proof. unfold evolve. apply fold_left_app. Qed.

Lemma keys_evolve_incl p done : incl (Dict.keys (evolve p done)) (Dict.keys p).
Proof.
  revert p. induction done as [|r done IH]; intros p; simpl.
  - apply incl_refl.
  - intros x Hx. apply IH in Hx. rewrite keys_settle in Hx.
    now apply filter_In in Hx.
Qed.

Lemma insert_parents_spec declared r l l' :
  insert_parents declared r l = inr l' ->
  revision l' = revision l /\
  dependent_revision l'
  = dependent_revision l ++ map (fun parent => (parent, r)) declared.
Proof.
  revert l. induction declared as [|x declared IH]; intros l; simpl.
  - intros [= <-]. now rewrite app_nil_r.
  - unfold bind, INSERT_DEPENDENT_REVISION_TEMPLATE.
    destruct (existsb _ _); [discriminate|].
    destruct (negb _); [discriminate|].
    intros H. apply IH in H. simpl in H. destruct H as [-> ->].
    split; [reflexivity|]. now rewrite <- app_assoc.
Qed.

Lemma apply_transaction_spec r command entry (d d' : Database U) :
  apply_transaction env r command entry d = inr d' ->
  exists declared outstanding,
    entry = Some (declared, outstanding) /\
    execute env command (store d) = Some (store d') /\
    revision (ledger d') = revision (ledger d) ++ [r] /\
    dependent_revision (ledger d')
    = dependent_revision (ledger d) ++ map (fun parent => (parent, r)) declared /\
    ~ In r (revision (ledger d)).
Proof.
  unfold apply_transaction.
  destruct (execute env command (store d)) as [u|]; [|discriminate].
  unfold bind at 1, INSERT_REVISION_TEMPLATE.
  destruct (Str.mem r (revision (ledger d))) eqn:Hmem; [discriminate|].
  destruct (Nat.ltb 255 (String.length r)); [discriminate|].
  destruct entry as [[declared outstanding]|]; [|discriminate].
  unfold bind.
  destruct (insert_parents declared r _) as [e|l2] eqn:Hins; [discriminate|].
  intros [= <-]. apply insert_parents_spec in Hins. simpl in *.
  destruct Hins as [-> ->].
  exists declared, outstanding. repeat split; try reflexivity.
  now apply mem_not_In.
Qed.

(** One pass of the loop body either commits the whole transaction of
    [r], or raises and leaves the database and the dictionary alone. *)
Lemma apply_revision_spec r p w o p' w' :
  apply_revision env revision_to_file r (p, w) = (o, (p', w')) ->
  (o = Returned /\ In r (Dict.keys p) /\ p' = settle p r /\
   revision (ledger_of w') = revision (ledger_of w) ++ [r] /\
   dependent_revision (ledger_of w')
   = dependent_revision (ledger_of w) ++ edges_of p r /\
   forward_effect env revision_to_file (Some (store (db w))) r
   = Some (store (db w')) /\
   stdout w' = stdout w ++ [MsgApplying r; MsgDone] /\
   ~ In r (revision (ledger_of w)))
  \/
  ((exists e, o = Raised e) /\ p' = p /\ db w' = db w /\ commits w' = commits w /\
   (stdout w' = stdout w \/ stdout w' = stdout w ++ [MsgApplying r])).
Proof.
  unfold apply_revision, forward_effect.
  destruct (Dict.get r revision_to_file) as [file|].
  2:{ intros [= <- <- <-]. right. repeat split; eauto. }
  destruct (open_file env file) as [lines|].
  2:{ intros [= <- <- <-]. right. repeat split; eauto. }
  unfold begin. simpl.
  destruct (apply_transaction env r (read lines) (Dict.get r p) (db w))
    as [e|d] eqn:Htx.
  - intros [= <- <- <-]. right. repeat split; eauto.
  - apply apply_transaction_spec in Htx.
    destruct Htx as (declared & outstanding & Hget & Hexec & Hrev & Hdep & Hnew).
    unfold Dict.mem. rewrite Hget.
    intros [= <- <- <-]. left. unfold ledger_of, edges_of. simpl.
    rewrite Hget. repeat split; try assumption.
    + apply DictFacts.get_keys. eauto.
    + now rewrite <- app_assoc.
Qed.

Lemma effect_nil p w w' : db w' = db w -> effect env revision_to_file p [] w w'.
Proof.
  intros H. unfold effect, ledger_of. rewrite H. simpl.
  rewrite !app_nil_r. repeat split; constructor.
Qed.

Lemma edges_of_evolve p done m :
  In m (Dict.keys (evolve p done)) -> edges_of (evolve p done) m = edges_of p m.
Proof.
  revert p. induction done as [|r done IH]; intros p Hin; simpl in *.
  - reflexivity.
  - rewrite IH by assumption. apply edges_of_settle.
    now apply keys_evolve_incl in Hin.
Qed.

Lemma flat_map_edges_of_evolve p done l :
  Forall (fun r => In r (Dict.keys (evolve p done))) l ->
  flat_map (edges_of (evolve p done)) l = flat_map (edges_of p) l.
Proof.
  induction 1 as [|r l Hr Hl IH]; simpl; [reflexivity|].
  now rewrite IH, edges_of_evolve.
Qed.

Lemma effect_app p done rest w w1 w' :
  effect env revision_to_file p done w w1 ->
  effect env revision_to_file (evolve p done) rest w1 w' ->
  effect env revision_to_file p (done ++ rest) w w'.
Proof.
  intros (Hr1 & Hd1 & Hs1 & Hk1 & Hn1) (Hr2 & Hd2 & Hs2 & Hk2 & Hn2).
  unfold effect. repeat split.
  - now rewrite Hr2, Hr1, app_assoc.
  - rewrite Hd2, Hd1, flat_map_app, <- app_assoc.
    now rewrite flat_map_edges_of_evolve.
  - now rewrite fold_left_app, Hs1.
  - apply Forall_app. split; [assumption|].
    eapply Forall_impl; [|exact Hk2]. intros r. apply keys_evolve_incl.
  - apply Forall_app. split; [assumption|].
    eapply Forall_impl; [|exact Hn2]. intros r Hr Hin. apply Hr.
    rewrite Hr1. apply in_or_app. now left.
Qed.

Lemma effect_one r p w w' :
  In r (Dict.keys p) ->
  revision (ledger_of w') = revision (ledger_of w) ++ [r] ->
  dependent_revision (ledger_of w')
  = dependent_revision (ledger_of w) ++ edges_of p r ->
  forward_effect env revision_to_file (Some (store (db w))) r
  = Some (store (db w')) ->
  ~ In r (revision (ledger_of w)) ->
  effect env revision_to_file p [r] w w'.
Proof.
  intros Hk Hr Hd Hs Hn. unfold effect. simpl. rewrite app_nil_r.
  repeat split; auto.
Qed.

Local Arguments apply_revision : simpl never.

Lemma apply_round_spec F p w o p' w' done :
  apply_round env revision_to_file F (p, w) = (o, (p', w'), done) ->
  p' = evolve p done /\ effect env revision_to_file p done w w' /\
  ((o = Returned /\ F = done /\
    stdout w' = stdout w ++ applied_messages done)
   \/
   (exists r rest,
      (exists e, o = Raised e) /\ F = done ++ r :: rest /\
      (stdout w' = stdout w ++ applied_messages done \/
       stdout w' = stdout w ++ applied_messages done ++ [MsgApplying r]))).
Proof.
  revert p w done. induction F as [|r F IH]; intros p w done; simpl.
  - intros [= <- <- <- <-]. split; [reflexivity|].
    split; [now apply effect_nil|]. left. simpl. now rewrite app_nil_r.
  - destruct (apply_revision env revision_to_file r (p, w)) as [o1 [p1 w1]] eqn:Hone.
    apply apply_revision_spec in Hone.
    destruct Hone as [(-> & Hk & -> & Hr & Hd & Hs & Hout & Hn)
                     |([e ->] & -> & Hdb & _ & Hout)].
    + simpl.
      destruct (apply_round env revision_to_file F _)
        as [[o2 [p2 w2]] done2] eqn:Hrest.
      simpl. intros [= <- <- <- <-]. apply IH in Hrest.
      destruct Hrest as (-> & Heff & Hcases).
      split; [reflexivity|]. split.
      * change (r :: done2) with ([r] ++ done2).
        apply effect_app with (w1 := w1);
          [apply effect_one; assumption | exact Heff].
      * destruct Hcases as [(-> & -> & Ho)|(r' & rest & He & -> & Ho)].
        -- left. repeat split. rewrite Ho, Hout. simpl.
           now rewrite <- app_assoc.
        -- right. exists r', rest. split; [assumption|]. split; [reflexivity|].
           simpl. rewrite Hout in Ho. rewrite <- !app_assoc in Ho. simpl in Ho.
           exact Ho.
    + intros [= <- <- <- <-]. split; [reflexivity|].
      split; [now apply effect_nil|].
      right. exists r, F. split; [eauto|]. split; [reflexivity|].
      simpl. now rewrite app_nil_r.
Qed.

Lemma loop_spec fuel F p w o p' w' rounds :
  _apply_revisions_to_database env fuel revision_to_file F (p, w)
  = (o, (p', w'), rounds) ->
  exists s,
    schedule F p rounds p' s /\ stop_of o s /\
    effect env revision_to_file p (concat rounds) w w' /\
    (stdout w' = stdout w ++ applied_messages (concat rounds) \/
     exists r, s = FailedAt r /\
       stdout w' = stdout w ++ applied_messages (concat rounds) ++ [MsgApplying r]).
Proof.
  revert F p w rounds. induction fuel as [|fuel IH]; intros F p w rounds; simpl.
  - intros [= <- <- <- <-]. exists Fuel. split; [constructor|].
    split; [reflexivity|]. split; [now apply effect_nil|].
    left. simpl. now rewrite app_nil_r.
  - destruct (apply_round env revision_to_file F (p, w))
      as [[o1 [p1 w1]] done] eqn:Hround.
    apply apply_round_spec in Hround.
    destruct Hround as (-> & Heff & [(-> & -> & Hout)|(r & rest & [e ->] & -> & Hout)]).
    + simpl.
      destruct (revisions_with_no_outstanding_predecessors (evolve p done))
        as [|n next] eqn:Hnext.
      * intros [= <- <- <- <-]. exists Completed.
        split; [now constructor|]. split; [reflexivity|].
        simpl. rewrite app_nil_r. split; [assumption | now left].
      * destruct (_apply_revisions_to_database env fuel revision_to_file _ _)
          as [[o2 [p2 w2]] rounds2] eqn:Hloop.
        intros [= <- <- <- <-]. apply IH in Hloop.
        destruct Hloop as (s & Hs & Hstop & Heff2 & Hout2).
        exists s. split.
        { apply schedule_next; rewrite Hnext; [discriminate | assumption]. }
        split; [assumption|]. split.
        { simpl. eapply effect_app; eassumption. }
        simpl. unfold applied_messages in *. rewrite flat_map_app.
        rewrite Hout in Hout2.
        destruct Hout2 as [H|(r & -> & H)]; [left | right; exists r; split; [reflexivity|]];
          rewrite H, <- !app_assoc; reflexivity.
    + intros [= <- <- <- <-]. exists (FailedAt r).
      split; [now apply schedule_failed with (rest := rest)|].
      split; [simpl; eauto|]. simpl. rewrite app_nil_r.
      split; [assumption|].
      destruct Hout as [H|H]; [now left | right; eauto].
Qed.

End ApplyFacts.

(** ** The catalog and the predecessor dictionary *)

Section CatalogFacts.

Context {U : Type}.
Variable env : Environment U.

Lemma read_predecessors_spec applied lines :
  read_predecessors applied lines
  = (declared_in lines, outstanding_in applied lines).
Proof.
  unfold outstanding_in, declared_in.
  induction lines as [|line rest IH]; simpl; [reflexivity|].
  rewrite IH.
  destruct (Str.startswith line PREDECESSOR_MARKER); simpl; [|reflexivity].
  destruct (Str.mem (predecessor_of_line line) applied); reflexivity.
Qed.

Lemma find_app_first (A : Type) (f : A -> bool) (l1 l2 : list A) :
  find f (l1 ++ l2)
  = match find f l1 with Some x => Some x | None => find f l2 end.
Proof.
  induction l1 as [|a l1 IH]; simpl; [reflexivity|].
  destruct (f a); [reflexivity | apply IH].
Qed.

Lemma get_fold_set dir files (acc : Dict.t string) r :
  Dict.get r
    (fold_left
       (fun d filename => Dict.set (revision_of_filename dir filename) filename d)
       files acc)
  = match find (fun f => String.eqb r (revision_of_filename dir f)) (rev files) with
    | Some f => Some f
    | None => Dict.get r acc
    end.
Proof.
  revert acc. induction files as [|f files IH]; intros acc; simpl; [reflexivity|].
  rewrite IH, find_app_first.
  destruct (find _ (rev files)); [reflexivity|]. simpl.
  rewrite DictFacts.get_set. destruct (String.eqb r _); reflexivity.
Qed.

Lemma NoDup_fold_set dir files (acc : Dict.t string) :
  NoDup (Dict.keys acc) ->
  NoDup (Dict.keys
           (fold_left
              (fun d filename =>
                 Dict.set (revision_of_filename dir filename) filename d)
              files acc)).
Proof.
  revert acc. induction files as [|f files IH]; intros acc Hnd; simpl.
  - assumption.
  - apply IH. now apply DictFacts.NoDup_keys_set.
Qed.

Lemma NoDup_catalog : NoDup (Dict.keys (catalog env)).
Proof. apply NoDup_fold_set. constructor. Qed.

Lemma get_remove_applied applied (d : Dict.t string) r :
  Dict.get r (remove_applied applied d)
  = if Str.mem r applied then None else Dict.get r d.
Proof.
  unfold remove_applied. revert d.
  induction applied as [|a applied IH]; intros d; simpl; [reflexivity|].
  rewrite IH. destruct (String.eqb_spec r a) as [->|Hne]; simpl.
  - destruct (Str.mem a applied); [reflexivity|].
    unfold Dict.mem. destruct (Dict.get a d) eqn:E.
    + rewrite DictFacts.get_del, String.eqb_refl. reflexivity.
    + assumption.
  - destruct (Str.mem r applied); [reflexivity|].
    destruct (Dict.mem a d); [|reflexivity].
    rewrite DictFacts.get_del. destruct (String.eqb_spec r a); [contradiction|reflexivity].
Qed.

Lemma keys_remove_applied applied (d : Dict.t string) :
  Dict.keys (remove_applied applied d)
  = filter (fun r => negb (Str.mem r applied)) (Dict.keys d).
Proof.
  unfold remove_applied. revert d.
  induction applied as [|a applied IH]; intros d; simpl.
  - symmetry. apply forallb_filter_id. apply forallb_forall. reflexivity.
  - rewrite IH.
    assert (Hdel : Dict.keys (if Dict.mem a d then Dict.del a d else d)
                   = filter (fun x => negb (String.eqb x a)) (Dict.keys d)).
    { destruct (Dict.mem a d) eqn:E.
      - apply DictFacts.keys_del.
      - symmetry. apply forallb_filter_id. apply forallb_forall. intros x Hx.
        destruct (String.eqb_spec x a) as [->|]; [|reflexivity].
        apply DictFacts.mem_keys in Hx. congruence. }
    rewrite Hdel. clear.
    induction (Dict.keys d) as [|k ks IHk]; simpl; [reflexivity|].
    destruct (String.eqb k a); simpl; rewrite IHk; [reflexivity|].
    destruct (Str.mem k applied); reflexivity.
Qed.

Lemma NoDup_pending_files applied : NoDup (Dict.keys (pending_files env applied)).
Proof.
  unfold pending_files. rewrite keys_remove_applied.
  apply NoDup_filter. apply NoDup_catalog.
Qed.

Lemma pending_not_applied applied r :
  In r (Dict.keys (pending_files env applied)) -> ~ In r applied.
Proof.
  unfold pending_files. rewrite keys_remove_applied. intros H.
  apply filter_In in H. destruct H as [_ H].
  apply mem_not_In. now destruct (Str.mem r applied).
Qed.

Lemma build_revision_to_predecessors_spec applied items acc p :
  build_revision_to_predecessors env applied items acc = inr p ->
  NoDup (Dict.keys items) ->
  (forall k, In k (Dict.keys items) -> ~ In k (Dict.keys acc)) ->
  exists entries,
    p = acc ++ entries /\
    Forall2 (fun item entry => entry_of env applied item = Some entry) items entries.
Proof.
  revert acc. induction items as [|[r file] items IH]; intros acc; simpl.
  - intros [= <-] _ _. exists []. rewrite app_nil_r. split; constructor.
  - destruct (open_file env file) as [lines|] eqn:Hopen; [|discriminate].
    intros Hbuild Hnd Hfresh. inversion Hnd as [|? ? Hr Hnd']; subst.
    assert (Hset : Dict.set r (read_predecessors applied lines) acc
                   = acc ++ [(r, read_predecessors applied lines)]).
    { assert (Hnot : ~ In r (Dict.keys acc)) by (apply Hfresh; now left).
      clear - Hnot. induction acc as [|[k v] acc IHa]; simpl; [reflexivity|].
      destruct (String.eqb_spec r k) as [->|Hne].
      - exfalso. apply Hnot. now left.
      - rewrite IHa; [reflexivity|]. intros H. apply Hnot. now right. }
    rewrite Hset in Hbuild. apply IH in Hbuild; [|assumption|].
    + destruct Hbuild as (entries & -> & Hall).
      exists ((r, read_predecessors applied lines) :: entries).
      split; [now rewrite <- app_assoc|].
      constructor; [|assumption]. unfold entry_of. simpl. now rewrite Hopen.
    + intros k Hk Hin. unfold Dict.keys in Hin. rewrite map_app in Hin.
      apply in_app_or in Hin. destruct Hin as [Hin|[<-|[]]].
      * apply (Hfresh k); [now right | assumption].
      * contradiction.
Qed.

(** The predecessor dictionary has the pending revisions as keys, each
    with the two lists read from its file. *)
Lemma pending_predecessors_spec applied p0 :
  pending_predecessors env applied = inr p0 ->
  Dict.keys p0 = Dict.keys (pending_files env applied) /\
  forall r entry,
    Dict.get r p0 = Some entry ->
    exists file lines,
      Dict.get r (pending_files env applied) = Some file /\
      open_file env file = Some lines /\
      entry = (declared_in lines, outstanding_in applied lines).
Proof.
  unfold pending_predecessors. intros Hbuild.
  apply build_revision_to_predecessors_spec in Hbuild;
    [|apply NoDup_pending_files | intros k _ []].
  destruct Hbuild as (entries & -> & Hall). simpl.
  pose proof (NoDup_pending_files applied) as Hnd.
  revert Hall Hnd. generalize (pending_files env applied) as items.
  intros items Hall. induction Hall as [|[r file] [r' v] items entries Hone Hall IH];
    intros Hnd; simpl.
  - split; [reflexivity | discriminate].
  - inversion Hnd as [|? ? Hr Hnd']; subst.
    unfold entry_of in Hone. simpl in Hone.
    destruct (open_file env file) as [lines|] eqn:Hopen; [|discriminate].
    injection Hone as <- <-.
    destruct (IH Hnd') as [Hkeys Hget]. split; [now rewrite Hkeys|].
    intros k entry. destruct (String.eqb_spec k r) as [->|Hne].
    + intros [= <-]. exists file, lines. repeat split; try assumption.
      apply read_predecessors_spec.
    + apply Hget.
Qed.

End CatalogFacts.

Section CatalogTotal.

Context {U : Type}.
Variable env : Environment U.

Lemma build_revision_to_predecessors_total applied items acc :
  (forall r file, In (r, file) items -> exists lines, open_file env file = Some lines) ->
  exists p, build_revision_to_predecessors env applied items acc = inr p.
Proof.
  revert acc. induction items as [|[r file] items IH]; intros acc Hopen; simpl.
  - eauto.
  - destruct (Hopen r file (or_introl eq_refl)) as [lines ->].
    apply IH. intros r' file' Hin. apply (Hopen r' file'). now right.
Qed.

Lemma In_get (V : Type) (d : Dict.t V) k v :
  NoDup (Dict.keys d) -> In (k, v) d -> Dict.get k d = Some v.
Proof.
  induction d as [|[k' v'] d IH]; simpl; [tauto|].
  intros Hnd Hin. inversion Hnd as [|? ? Hnot Hnd']; subst.
  destruct Hin as [[= -> ->]|Hin].
  - now rewrite String.eqb_refl.
  - destruct (String.eqb_spec k k') as [->|Hne]; [|now apply IH].
    exfalso. apply Hnot. apply in_map_iff. exists (k', v). split; [reflexivity|assumption].
Qed.

Lemma no_frontier_iff (p : Dict.t (list string * list string)) :
  NoDup (Dict.keys p) ->
  (revisions_with_no_outstanding_predecessors p = [] <->
   forall r declared outstanding,
     Dict.get r p = Some (declared, outstanding) -> outstanding <> []).
Proof.
  intros Hnd. unfold revisions_with_no_outstanding_predecessors. split.
  - intros Hnil r declared outstanding Hget ->.
    apply DictFacts.get_In in Hget.
    assert (Hin : In r (map fst (filter no_outstanding p))).
    { apply in_map_iff. exists (r, (declared, [])). split; [reflexivity|].
      apply filter_In. split; [assumption | reflexivity]. }
    rewrite Hnil in Hin. contradiction.
  - intros Hall.
    destruct (filter no_outstanding p) as [|[r [d o]] rest] eqn:E; [reflexivity|].
    assert (Hin : In (r, (d, o)) (filter no_outstanding p)) by (rewrite E; now left).
    apply filter_In in Hin. destruct Hin as [Hin Hno].
    unfold no_outstanding in Hno. simpl in Hno.
    destruct o; [|discriminate].
    exfalso. apply (Hall r d []); [|reflexivity]. now apply In_get.
Qed.

Lemma in_frontier (p : Dict.t (list string * list string)) r :
  NoDup (Dict.keys p) ->
  (In r (revisions_with_no_outstanding_predecessors p) <->
   exists declared, Dict.get r p = Some (declared, [])).
Proof.
  intros Hnd. unfold revisions_with_no_outstanding_predecessors.
  rewrite in_map_iff. split.
  - intros [[r' [d o]] [Hr Hin]]. simpl in Hr. subst r'.
    apply filter_In in Hin. destruct Hin as [Hin Hno].
    unfold no_outstanding in Hno. simpl in Hno. destruct o; [|discriminate].
    exists d. now apply In_get.
  - intros [d Hget]. exists (r, (d, [])). split; [reflexivity|].
    apply filter_In. split; [now apply DictFacts.get_In | reflexivity].
Qed.

End CatalogTotal.

Section ApplyMigrationsFacts.

Context {U : Type}.
Variable env : Environment U.

(** The announcements that precede the loop. *)
Lemma apply_migrations_unfold fuel (w : World U) :
  apply_migrations env fuel w
  = let applied := revision (ledger_of w) in
    let w1 := print (MsgFound (length applied)) (print MsgFinding w) in
    match pending_files env applied with
    | [] => (Returned, print MsgAllApplied w1, [])
    | _ :: _ =>
        let w2 := print (MsgToApply (length (pending_files env applied))) w1 in
        match pending_predecessors env applied with
        | inl e => (Raised e, w2, [])
        | inr p0 =>
            match revisions_with_no_outstanding_predecessors p0 with
            | [] => (Exit 1, print MsgInvalidDependencies w2, [])
            | _ :: _ =>
                let '(o, st, rounds) :=
                  _apply_revisions_to_database env fuel
                    (pending_files env applied)
                    (revisions_with_no_outstanding_predecessors p0) (p0, w2) in
                (o, snd st, rounds)
            end
        end
    end.
Proof.
  unfold apply_migrations, ledger_of, FIND_PREVIOUSLY_RUN_MIGRATIONS. simpl.
  destruct (pending_files env (revision (ledger (db w)))); [reflexivity|].
  destruct (pending_predecessors env (revision (ledger (db w)))) as [e|p0];
    [reflexivity|].
  destruct (revisions_with_no_outstanding_predecessors p0); reflexivity.
Qed.

End ApplyMigrationsFacts.

(** ** Finite graphs: a long enough chain closes a cycle *)

Section GraphFacts.

Variable A : Type.
Variable R : A -> A -> Prop.
Hypothesis eq_dec : forall x y : A, {x = y} + {x <> y}.

Lemma chain_app_l (l1 l2 : list A) : chain R (l1 ++ l2) -> chain R l1.
Proof.
  induction l1 as [|x l1 IH]; simpl; [trivial|].
  intros [Hhd Htl]. split; [|now apply IH].
  destruct l1; simpl in *; [trivial | assumption].
Qed.

Lemma chain_app_r (l1 l2 : list A) : chain R (l1 ++ l2) -> chain R l2.
Proof.
  induction l1 as [|x l1 IH]; simpl; [trivial|].
  intros [_ Htl]. now apply IH.
Qed.

Lemma chain_path (a b : A) (l : list A) :
  chain R (a :: l ++ [b]) -> clos_trans A R a b.
Proof.
  revert a. induction l as [|x l IH]; intros a; simpl.
  - intros [Hab _]. now apply t_step.
  - intros [Hax Htl]. apply t_trans with x; [now apply t_step|].
    apply IH. exact Htl.
Qed.

Lemma repeated_element (l : list A) :
  ~ NoDup l -> exists a l1 l2 l3, l = l1 ++ a :: l2 ++ a :: l3.
Proof.
  induction l as [|x l IH]; intros Hdup.
  - exfalso. apply Hdup. constructor.
  - destruct (in_dec eq_dec x l) as [Hin|Hnot].
    + apply in_split in Hin. destruct Hin as (l2 & l3 & ->).
      exists x, [], l2, l3. reflexivity.
    + destruct IH as (a & l1 & l2 & l3 & ->).
      { intros Hnd. apply Hdup. now constructor. }
      exists a, (x :: l1), l2, l3. reflexivity.
Qed.





End GraphFacts.

(** ** Rollback: what one transaction and a whole cascade do *)

Section RollbackFacts.

Context {U : Type}.
Variable env : Environment U.

Implicit Types (w : World U) (l : Ledger).

Lemma without_one x l :
  without [x] l
  = {| revision := filter (fun r => negb (String.eqb r x)) (revision l);
       dependent_revision :=
         filter (fun e => negb (String.eqb (snd e) x)) (dependent_revision l) |}.
Proof.
  unfold without. f_equal; apply filter_ext; intros a; simpl;
    now rewrite orb_false_r.
Qed.

Lemma mem_app x S1 S2 : Str.mem x (S1 ++ S2) = Str.mem x S1 || Str.mem x S2.
Proof. unfold Str.mem. apply existsb_app. Qed.

Lemma filter_twice (A : Type) (f g : A -> bool) (xs : list A) :
  filter g (filter f xs) = filter (fun a => f a && g a) xs.
Proof.
  induction xs as [|a xs IH]; simpl; [reflexivity|].
  destruct (f a); simpl; [|assumption].
  destruct (g a); now rewrite IH.
Qed.

Lemma without_app S1 S2 l : without S2 (without S1 l) = without (S1 ++ S2) l.
Proof.
  unfold without. simpl. rewrite !filter_twice.
  f_equal; apply filter_ext; intros a; rewrite mem_app;
    now rewrite negb_orb.
Qed.

Lemma without_nil l : without [] l = l.
Proof.
  unfold without. simpl. destruct l as [rs es]. simpl. f_equal;
    apply forallb_filter_id; apply forallb_forall; reflexivity.
Qed.

Lemma without_edges_incl S l :
  incl (dependent_revision (without S l)) (dependent_revision l).
Proof. intros e He. simpl in He. now apply filter_In in He. Qed.

Lemma remove_transaction_spec x command (d : Database U) :
  match remove_transaction env x command d with
  | inr d' =>
      execute env command (store d) = Some (store d') /\
      ledger d' = without [x] (ledger d) /\
      (forall a b, In (a, b) (dependent_revision (ledger d')) -> a <> x /\ b <> x)
  | inl e =>
      e = ScriptError \/
      (e = IntegrityError /\
       exists dependent, dependent <> x /\
         In (x, dependent) (dependent_revision (ledger d)))
  end.
Proof.
  unfold remove_transaction.
  destruct (execute env command (store d)) as [u|]; [|now left].
  unfold bind, DELETE_DEPENDENT_REVISION_TEMPLATE, DELETE_REVISION_TEMPLATE. simpl.
  destruct (existsb _ _) eqn:Hex.
  - right. split; [reflexivity|].
    apply existsb_exists in Hex. destruct Hex as ([a b] & Hin & Hor).
    apply filter_In in Hin. destruct Hin as [Hin Hb]. simpl in *.
    destruct (String.eqb_spec b x) as [->|Hne]; [discriminate|].
    rewrite orb_false_r in Hor. apply String.eqb_eq in Hor. subst a.
    exists b. split; assumption.
  - simpl. split; [reflexivity|]. split; [now rewrite without_one|].
    intros a b Hin.
    assert (Hf : String.eqb a x || String.eqb b x = false).
    { destruct (String.eqb a x || String.eqb b x) eqn:E; [|reflexivity].
      rewrite <- Hex. symmetry. apply existsb_exists.
      exists (a, b). split; assumption. }
    apply orb_false_elim in Hf. destruct Hf as [Ha Hb].
    split; now apply String.eqb_neq.
Qed.

(** The last step of a rollback either commits the removal of [x] or
    raises, leaving the database as it was. *)
Lemma undo_spec x w :
  match undo env x w with
  | (Returned, w') =>
      (exists lines,
          open_file env (file_to_apply env x) = Some lines /\
          execute env (read lines) (store (db w)) = Some (store (db w'))) /\
      ledger_of w' = without [x] (ledger_of w) /\
      (forall a b, In (a, b) (dependent_revision (ledger_of w')) -> a <> x /\ b <> x) /\
      stdout w' = stdout w ++ [MsgUndoing x; MsgDone] /\
      commits w' = commits w ++ [ledger_of w']
  | (o, w') =>
      db w' = db w /\ commits w' = commits w /\
      stdout w' = stdout w ++ [MsgUndoing x] /\
      ((o = Raised FileNotFoundError /\ open_file env (file_to_apply env x) = None) \/
       (o = Raised ScriptError /\ open_file env (file_to_apply env x) <> None) \/
       (o = Raised IntegrityError /\
        exists dependent, dependent <> x /\
          In (x, dependent) (dependent_revision (ledger_of w))))
  end.
Proof.
  unfold undo.
  destruct (open_file env (file_to_apply env x)) as [lines|] eqn:Hopen.
  2:{ simpl. repeat split. now left. }
  unfold begin. simpl.
  pose proof (remove_transaction_spec x (read lines) (db w)) as Htx.
  destruct (remove_transaction env x (read lines) (db w)) as [e|d'].
  - simpl. repeat split.
    destruct Htx as [->|[-> Hdep]].
    + right. left. split; [reflexivity | discriminate].
    + right. right. split; [reflexivity | assumption].
  - destruct Htx as (Hexec & Hledger & Hfree).
    unfold ledger_of. simpl. repeat split; try assumption.
    + exists lines. split; [reflexivity | assumption].
    + now apply Hfree in H.
    + now apply Hfree in H.
    + now rewrite <- app_assoc.
Qed.

(** A property of pairs of worlds that holds across every transaction of
    a rollback holds across the whole cascade. *)
Lemma remove_migration_rule (I : World U -> World U -> Prop) :
  (forall w, I w w) ->
  (forall w1 w2 w3, I w1 w2 -> I w2 w3 -> I w1 w3) ->
  (forall x w, I w (snd (undo env x w))) ->
  forall fuel x w, I w (snd (remove_migration env fuel x w)).
Proof.
  intros Hrefl Htrans Hundo.
  induction fuel as [|fuel IH]; intros x w; simpl; [apply Hrefl|].
  assert (Hall : forall (ds : list string) w0,
             I w0 (snd (for_each (remove_migration env fuel) ds w0))).
  { induction ds as [|d ds IHl]; intros w0; simpl; [apply Hrefl|].
    specialize (IH d w0).
    destruct (remove_migration env fuel d w0) as [[] w1]; simpl in *; try assumption.
    apply Htrans with w1; [assumption | apply IHl]. }
  specialize (Hall (FIND_DEPENDENT_REVISIONS x (ledger (db w))) w).
  destruct (for_each (remove_migration env fuel) _ w) as [[] w1]; simpl in *;
    try assumption.
  apply Htrans with w1; [assumption | apply Hundo].
Qed.

End RollbackFacts.

Section CascadeFacts.

Context {U : Type}.
Variable env : Environment U.

Implicit Types (w : World U).

Lemma shrinks_refl w : shrinks w w.
Proof. split; apply incl_refl. Qed.

Lemma shrinks_trans w1 w2 w3 : shrinks w1 w2 -> shrinks w2 w3 -> shrinks w1 w3.
Proof. intros [H1 H2] [H3 H4]. split; eapply incl_tran; eassumption. Qed.

Lemma undo_shrinks x w : shrinks w (snd (undo env x w)).
Proof.
  pose proof (undo_spec env x w) as H.
  destruct (undo env x w) as [o w']. simpl.
  assert (Hsame : db w' = db w -> shrinks w w').
  { intros E. unfold shrinks, ledger_of. rewrite E. split; apply incl_refl. }
  destruct o; try (apply Hsame; tauto).
  destruct H as (_ & Hl & _). unfold shrinks. rewrite Hl. split.
  - intros r Hr. simpl in Hr. now apply filter_In in Hr.
  - apply without_edges_incl.
Qed.

Lemma for_each_rule (I : World U -> World U -> Prop)
  (f : string -> World U -> outcome * World U) :
  (forall w, I w w) ->
  (forall w1 w2 w3, I w1 w2 -> I w2 w3 -> I w1 w3) ->
  (forall x w, I w (snd (f x w))) ->
  forall ds w, I w (snd (for_each f ds w)).
Proof.
  intros Hrefl Htrans Hf. induction ds as [|d ds IH]; intros w; simpl.
  - apply Hrefl.
  - specialize (Hf d w). destruct (f d w) as [[] w1]; simpl in *; try assumption.
    apply Htrans with w1; [assumption | apply IH].
Qed.

Lemma remove_migration_shrinks fuel x w :
  shrinks w (snd (remove_migration env fuel x w)).
Proof.
  apply remove_migration_rule;
    [apply shrinks_refl | apply shrinks_trans | apply undo_shrinks].
Qed.

Lemma for_each_shrinks fuel ds w :
  shrinks w (snd (for_each (remove_migration env fuel) ds w)).
Proof.
  apply for_each_rule;
    [apply shrinks_refl | apply shrinks_trans | apply remove_migration_shrinks].
Qed.

Lemma foreign_keys_without_one x l :
  foreign_keys l ->
  (forall a b, In (a, b) (dependent_revision (without [x] l)) -> a <> x /\ b <> x) ->
  foreign_keys (without [x] l).
Proof.
  intros Hfk Hfree a b Hin. destruct (Hfree a b Hin) as [Ha Hb].
  apply without_edges_incl in Hin. destruct (Hfk a b Hin) as [Hra Hrb].
  simpl. split; apply filter_In; (split; [assumption|]); simpl;
    rewrite orb_false_r; apply negb_true_iff; now apply String.eqb_neq.
Qed.

Lemma undo_keeps_foreign_keys x w : keeps_foreign_keys w (snd (undo env x w)).
Proof.
  pose proof (undo_spec env x w) as H.
  destruct (undo env x w) as [o w']. simpl.
  assert (Hsame : db w' = db w /\ commits w' = commits w -> keeps_foreign_keys w w').
  { intros [E1 E2] Hfk Hall. unfold ledger_of. rewrite E1, E2. now split. }
  destruct o; try (apply Hsame; tauto).
  destruct H as (_ & Hl & Hfree & _ & Hc). intros Hfk Hall.
  assert (Hfk' : foreign_keys (ledger_of w')).
  { rewrite Hl. apply foreign_keys_without_one; [assumption|]. now rewrite <- Hl. }
  split; [assumption|]. rewrite Hc. apply Forall_app. split; [assumption|].
  now constructor.
Qed.

Lemma remove_migration_keeps_foreign_keys fuel x w :
  keeps_foreign_keys w (snd (remove_migration env fuel x w)).
Proof.
  apply remove_migration_rule.
  - intros w0 Hfk Hall. now split.
  - intros w1 w2 w3 H12 H23 Hfk Hall. destruct (H12 Hfk Hall). now apply H23.
  - apply undo_keeps_foreign_keys.
Qed.

(** A rollback that returns has cleared every edge that mentions its
    target, and the row of the target. *)
Lemma remove_migration_returned_free fuel x w w' :
  remove_migration env fuel x w = (Returned, w') ->
  ~ In x (revision (ledger_of w')) /\
  forall a b, In (a, b) (dependent_revision (ledger_of w')) -> a <> x /\ b <> x.
Proof.
  destruct fuel as [|fuel]; simpl; [discriminate|].
  destruct (for_each (remove_migration env fuel) _ w) as [[] w1]; try discriminate.
  pose proof (undo_spec env x w1) as H. intros E. rewrite E in H.
  destruct H as (_ & Hl & Hfree & _). split; [|assumption].
  rewrite Hl. simpl. intros Hin. apply filter_In in Hin.
  destruct Hin as [_ Hin]. simpl in Hin. now rewrite String.eqb_refl in Hin.
Qed.

Lemma for_each_returned_free fuel ds w w' :
  for_each (remove_migration env fuel) ds w = (Returned, w') ->
  forall d, In d ds ->
    forall a, ~ In (a, d) (dependent_revision (ledger_of w')).
Proof.
  revert w. induction ds as [|d0 ds IH]; intros w; simpl; [intros _ d []|].
  destruct (remove_migration env fuel d0 w) as [[] w1] eqn:Hone; try discriminate.
  intros Hrest d [<-|Hin] a.
  - apply remove_migration_returned_free in Hone. destruct Hone as [_ Hfree].
    pose proof (for_each_shrinks fuel ds w1) as [_ Hsh]. rewrite Hrest in Hsh.
    intros Hin. apply Hsh in Hin. apply Hfree in Hin. now destruct Hin.
  - now apply (IH w1).
Qed.

Lemma for_each_never (bad : outcome) (f : string -> World U -> outcome * World U) :
  bad <> Returned ->
  (forall x w, fst (f x w) <> bad) ->
  forall ds w, fst (for_each f ds w) <> bad.
Proof.
  intros Hbad Hf. induction ds as [|d ds IH]; intros w; simpl.
  - congruence.
  - specialize (Hf d w). destruct (f d w) as [[] w1]; simpl in *; try assumption.
    apply IH.
Qed.

Lemma in_dependents x d l :
  In d (FIND_DEPENDENT_REVISIONS x l) <-> In (x, d) (dependent_revision l).
Proof.
  unfold FIND_DEPENDENT_REVISIONS. rewrite in_map_iff. split.
  - intros [[a b] [<- Hin]]. apply filter_In in Hin. destruct Hin as [Hin Heq].
    simpl in *. apply String.eqb_eq in Heq. now subst.
  - intros Hin. exists (x, d). split; [reflexivity|].
    apply filter_In. split; [assumption | apply String.eqb_refl].
Qed.

(** The order of a cascade: the database never has to refuse the removal
    of a revision because an edge still references it. *)
Lemma remove_migration_never_refused fuel x w :
  fst (remove_migration env fuel x w) <> Raised IntegrityError.
Proof.
  revert x w. induction fuel as [|fuel IH]; intros x w; simpl; [discriminate|].
  pose proof (@for_each_never (Raised IntegrityError) (remove_migration env fuel)
                ltac:(discriminate) IH
                (FIND_DEPENDENT_REVISIONS x (ledger (db w))) w) as Hloop.
  pose proof (for_each_shrinks fuel (FIND_DEPENDENT_REVISIONS x (ledger (db w))) w)
    as [_ Hsh].
  destruct (for_each (remove_migration env fuel) _ w) as [o1 w1] eqn:Hfor.
  simpl in *.
  destruct o1; try assumption.
  pose proof (undo_spec env x w1) as H.
  destruct (undo env x w1) as [o w']. simpl. intros ->.
  destruct H as (_ & _ & _ & [[E _]|[[E _]|[_ (d & Hne & Hin)]]]); try discriminate.
  apply (for_each_returned_free _ _ _ Hfor d) with (a := x); [|assumption].
  apply in_dependents. now apply Hsh.
Qed.

End CascadeFacts.

Section CascadeReach.

Context {U : Type}.
Variable env : Environment U.

Implicit Types (w : World U).

Lemma chain_mono (A : Type) (R R' : A -> A -> Prop) (l : list A) :
  (forall x y, R x y -> R' x y) -> chain R l -> chain R' l.
Proof.
  intros Hsub. induction l as [|x l IH]; simpl; [trivial|].
  intros [Hhd Htl]. split; [|now apply IH].
  destruct l; [trivial | now apply Hsub].
Qed.

Lemma clos_trans_mono (A : Type) (R R' : A -> A -> Prop) x y :
  (forall a b, R a b -> R' a b) -> clos_trans A R x y -> clos_trans A R' x y.
Proof.
  intros Hsub. induction 1 as [a b Hab|a b c _ IH1 _ IH2].
  - apply t_step. now apply Hsub.
  - now apply t_trans with b.
Qed.

Lemma undo_has_fuel x w : fst (undo env x w) <> OutOfFuel.
Proof.
  pose proof (undo_spec env x w) as H.
  destruct (undo env x w) as [[] w']; simpl; try discriminate.
  destruct H as (_ & _ & _ & [[E _]|[[E _]|[E _]]]); discriminate.
Qed.

Lemma for_each_out_of_fuel fuel ds w :
  fst (for_each (remove_migration env fuel) ds w) = OutOfFuel ->
  exists d w2,
    In d ds /\ shrinks w w2 /\ fst (remove_migration env fuel d w2) = OutOfFuel.
Proof.
  revert w. induction ds as [|d ds IH]; intros w; simpl; [discriminate|].
  pose proof (remove_migration_shrinks env fuel d w) as Hsh.
  destruct (remove_migration env fuel d w) as [o w1] eqn:Hone. simpl in Hsh.
  destruct o; simpl; try discriminate.
  - intros Hrest. apply IH in Hrest. destruct Hrest as (d' & w2 & Hin & Hsh2 & Hout).
    exists d', w2. split; [now right|]. split; [|assumption].
    now apply shrinks_trans with w1.
  - intros _. exists d, w. split; [now left|]. split; [apply shrinks_refl|].
    now rewrite Hone.
Qed.

(** Running out of depth [fuel] means the recorded edges contain a chain
    of [fuel] edges below the target. *)
Lemma out_of_fuel_chain fuel x w :
  fst (remove_migration env fuel x w) = OutOfFuel ->
  exists path,
    length path = fuel /\
    chain (recorded_edge (ledger_of w)) (x :: path) /\
    incl path (map snd (dependent_revision (ledger_of w))).
Proof.
  revert x w. induction fuel as [|fuel IH]; intros x w; simpl.
  - intros _. exists []. repeat split. intros a [].
  - destruct (for_each (remove_migration env fuel) _ w) as [o1 w1] eqn:Hfor.
    destruct o1; simpl; try discriminate.
    + intros H. now apply undo_has_fuel in H.
    + intros _.
      assert (Hout : fst (for_each (remove_migration env fuel)
                            (FIND_DEPENDENT_REVISIONS x (ledger (db w))) w)
                     = OutOfFuel) by now rewrite Hfor.
      apply for_each_out_of_fuel in Hout.
      destruct Hout as (d & w2 & Hd & [_ Hsh] & Hout).
      apply IH in Hout. destruct Hout as (path & Hlen & Hchain & Hincl).
      apply in_dependents in Hd.
      exists (d :: path). split; [simpl; now rewrite Hlen|]. split.
      * split; [exact Hd|].
        eapply chain_mono; [|exact Hchain].
        intros a b Hab. now apply Hsh.
      * intros a [<-|Ha].
        -- apply in_map_iff. exists (x, d). split; [reflexivity | exact Hd].
        -- apply Hincl in Ha. apply in_map_iff in Ha.
           destruct Ha as (e & He & Hin). apply in_map_iff. exists e.
           split; [assumption | now apply Hsh].
Qed.

Lemma for_each_returned_without fuel :
  (forall x w w',
      remove_migration env fuel x w = (Returned, w') ->
      exists removed,
        ledger_of w' = without removed (ledger_of w) /\ In x removed /\
        forall y, In y removed ->
          y = x \/ clos_trans string (recorded_edge (ledger_of w)) x y) ->
  forall ds w w',
    for_each (remove_migration env fuel) ds w = (Returned, w') ->
    exists removed,
      ledger_of w' = without removed (ledger_of w) /\ incl ds removed /\
      forall y, In y removed ->
        exists d, In d ds /\
          (y = d \/ clos_trans string (recorded_edge (ledger_of w)) d y).
Proof.
  intros Hone. induction ds as [|d ds IH]; intros w w'; simpl.
  - intros [= <-]. exists []. rewrite without_nil.
    repeat split; [apply incl_refl | intros y []].
  - destruct (remove_migration env fuel d w) as [[] w1] eqn:Hd; try discriminate.
    intros Hrest. apply Hone in Hd. destruct Hd as (S1 & Hl1 & Hin1 & Hreach1).
    apply IH in Hrest. destruct Hrest as (S2 & Hl2 & Hincl2 & Hreach2).
    exists (S1 ++ S2). split; [now rewrite Hl2, Hl1, without_app|]. split.
    + intros a [<-|Ha]; apply in_or_app; [now left | right; now apply Hincl2].
    + intros y Hy. apply in_app_or in Hy. destruct Hy as [Hy|Hy].
      * exists d. split; [now left | now apply Hreach1].
      * destruct (Hreach2 y Hy) as (d' & Hd' & Hor).
        exists d'. split; [now right|].
        destruct Hor as [->|Hct]; [now left | right].
        eapply clos_trans_mono; [|exact Hct].
        intros a b. unfold recorded_edge. rewrite Hl1. apply without_edges_incl.
Qed.

(** A rollback that returns has removed its target and, besides, only
    revisions that the recorded edges place below the target. *)
Lemma remove_migration_returned_without fuel x w w' :
  remove_migration env fuel x w = (Returned, w') ->
  exists removed,
    ledger_of w' = without removed (ledger_of w) /\ In x removed /\
    forall y, In y removed ->
      y = x \/ clos_trans string (recorded_edge (ledger_of w)) x y.
Proof.
  revert x w w'. induction fuel as [|fuel IH]; intros x w w'; simpl;
    [discriminate|].
  destruct (for_each (remove_migration env fuel) _ w) as [[] w1] eqn:Hfor;
    try discriminate.
  apply (@for_each_returned_without fuel IH) in Hfor.
  destruct Hfor as (S1 & Hl1 & _ & Hreach).
  pose proof (undo_spec env x w1) as H. intros E. rewrite E in H.
  destruct H as (_ & Hl & _).
  exists (S1 ++ [x]). split; [now rewrite Hl, Hl1, without_app|]. split.
  - apply in_or_app. right. now left.
  - intros y Hy. apply in_app_or in Hy. destruct Hy as [Hy|[<-|[]]]; [|now left].
    right. destruct (Hreach y Hy) as (d & Hd & Hor).
    apply in_dependents in Hd.
    destruct Hor as [->|Hct]; [now apply t_step|].
    apply t_trans with d; [now apply t_step | assumption].
Qed.

End CascadeReach.

(** ** Facts about the examples *)

Lemma ranked_is_acyclic (A : Type) (R : A -> A -> Prop) (rank : A -> nat) :
  (forall x y, R x y -> rank x < rank y) -> acyclic R.
Proof.
  intros Hrank x Hcycle.
  assert (Hlt : forall a b, clos_trans A R a b -> rank a < rank b).
  { induction 1 as [a b Hab|a b c _ IH1 _ IH2]; [now apply Hrank | lia]. }
  apply Hlt in Hcycle. lia.
Qed.

Lemma diamond_ledger_acyclic : acyclic (recorded_edge Examples.diamond_ledger).
Proof.
  apply ranked_is_acyclic with (rank := Examples.depth).
  intros x y Hin. unfold recorded_edge in Hin. simpl in Hin.
  repeat destruct Hin as [Hin|Hin];
    try (injection Hin as <- <-; vm_compute; lia).
  contradiction.
Qed.

Lemma diamond_ledger_foreign_keys : foreign_keys Examples.diamond_ledger.
Proof.
  intros a b Hin. simpl in Hin.
  repeat destruct Hin as [Hin|Hin];
    try (injection Hin as <- <-; simpl; tauto).
  contradiction.
Qed.

Section RoundTripFacts.

Context {U : Type}.
Variable env : Environment U.

Implicit Types (w : World U).

(** What a run of apply_migrations, however it ends, has done to the
    database. *)
Lemma apply_migrations_effect fuel w o w' rounds :
  apply_migrations env fuel w = (o, w', rounds) ->
  exists p,
    effect env (pending_files env (revision (ledger_of w))) p (concat rounds) w w'.
Proof.
  rewrite apply_migrations_unfold. cbv zeta.
  destruct (pending_files env (revision (ledger_of w))) as [|item items] eqn:Hfiles.
  { intros [= <- <- <-]. exists []. now apply effect_nil. }
  rewrite <- Hfiles.
  destruct (pending_predecessors env (revision (ledger_of w))) as [e|p0].
  { intros [= <- <- <-]. exists []. now apply effect_nil. }
  destruct (revisions_with_no_outstanding_predecessors p0) as [|r0 front] eqn:Hfront.
  { intros [= <- <- <-]. exists []. now apply effect_nil. }
  destruct (_apply_revisions_to_database env fuel _ _ _)
    as [[o1 [p1 w1]] rounds1] eqn:Hloop.
  intros [= <- <- <-]. apply loop_spec in Hloop.
  destruct Hloop as (s & _ & _ & Heff & _).
  exists p0. exact Heff.
Qed.

Lemma edges_of_dependent p r a b : In (a, b) (edges_of p r) -> b = r.
Proof.
  unfold edges_of. destruct (Dict.get r p) as [[declared outstanding]|]; [|intros []].
  intros Hin. apply in_map_iff in Hin. destruct Hin as (x & [= _ <-] & _).
  reflexivity.
Qed.

Lemma filter_none (A : Type) (f : A -> bool) (xs : list A) :
  (forall a, In a xs -> f a = false) -> filter f xs = [].
Proof.
  induction xs as [|a xs IH]; simpl; [reflexivity|].
  intros H. rewrite (H a (or_introl eq_refl)). apply IH.
  intros b Hb. apply H. now right.
Qed.

Lemma filter_all (A : Type) (f : A -> bool) (xs : list A) :
  (forall a, In a xs -> f a = true) -> filter f xs = xs.
Proof.
  intros H. apply forallb_filter_id. now apply forallb_forall.
Qed.

(** Removing exactly the revisions a run applied gives back the ledger
    the run started from. *)
Lemma without_applied rtf p done removed w w' :
  effect env rtf p done w w' ->
  foreign_keys (ledger_of w) ->
  (forall r, In r removed <-> In r done) ->
  without removed (ledger_of w') = ledger_of w.
Proof.
  intros (Hrev & Hdep & _ & _ & Hnew) Hfk Hsame.
  rewrite Forall_forall in Hnew.
  unfold without. rewrite Hrev, Hdep, !filter_app.
  rewrite (@filter_all _ _ (revision (ledger_of w))),
          (@filter_none _ _ done),
          (@filter_all _ _ (dependent_revision (ledger_of w))),
          (@filter_none _ _ (flat_map (edges_of p) done)).
  - rewrite !app_nil_r. now destruct (ledger_of w).
  - intros [a b] Hin. apply in_flat_map in Hin. destruct Hin as (r & Hr & Hin).
    apply edges_of_dependent in Hin. subst b. simpl.
    apply negb_false_iff. apply mem_In. now apply Hsame.
  - intros [a b] Hin. simpl. apply negb_true_iff. apply mem_not_In.
    intros Hb. apply Hsame in Hb. apply (Hnew b Hb). now apply (Hfk a b).
  - intros r Hr. apply negb_false_iff. apply mem_In. now apply Hsame.
  - intros r Hr. apply negb_true_iff. apply mem_not_In.
    intros Hin. apply Hsame in Hin. now apply (Hnew r Hin).
Qed.

(** Below a revision applied by the run, the ledger only records
    revisions applied by the run. *)
Lemma below_applied rtf p done w w' :
  effect env rtf p done w w' ->
  foreign_keys (ledger_of w) ->
  forall a b,
    clos_trans string (recorded_edge (ledger_of w')) a b ->
    In a done -> In b done.
Proof.
  intros (Hrev & Hdep & _ & _ & Hnew) Hfk.
  rewrite Forall_forall in Hnew.
  induction 1 as [a b Hab|a b c _ IH1 _ IH2]; [|auto].
  intros Ha. unfold recorded_edge in Hab. rewrite Hdep in Hab.
  apply in_app_or in Hab. destruct Hab as [Hold|Hadded].
  - exfalso. apply (Hnew a Ha). now apply (Hfk a b).
  - apply in_flat_map in Hadded. destruct Hadded as (r & Hr & Hin).
    apply edges_of_dependent in Hin. now subst.
Qed.

End RoundTripFacts.

(** ** The skeleton of the loop: order, coverage, termination *)

Section ScheduleFacts.

Implicit Types (p q : Dict.t (list string * list string)).

Lemma remove_first_In x r (o : list string) :
  In x o -> x = r \/ In x (Str.remove_first r o).
Proof.
  induction o as [|y o IH]; simpl; [tauto|].
  destruct (String.eqb_spec r y) as [->|Hne].
  - intros [->|H]; [now left | now right].
  - intros [->|H]; [right; now left|].
    destruct (IH H); [now left | right; now right].
Qed.










Lemma in_frontier_entry p m :
  In m (revisions_with_no_outstanding_predecessors p) <->
  exists declared, In (m, (declared, [])) p.
Proof.
  unfold revisions_with_no_outstanding_predecessors. rewrite in_map_iff. split.
  - intros ([m' [d o]] & Hm & Hin). simpl in Hm. subst m'.
    apply filter_In in Hin. destruct Hin as [Hin Hno].
    unfold no_outstanding in Hno. simpl in Hno. destruct o; [|discriminate].
    now exists d.
  - intros [d Hin]. exists (m, (d, [])). split; [reflexivity|].
    apply filter_In. now split.
Qed.



End ScheduleFacts.

Section LoopTermination.

Context {U : Type}.
Variable env : Environment U.
Variable revision_to_file : Dict.t string.

Implicit Types (p q : Dict.t (list string * list string)) (w : World U).

Lemma settle_length_le q r : length (settle q r) <= length q.
Proof.
  unfold settle, forget_predecessor, Dict.del. rewrite length_map.
  apply filter_length_le.
Qed.

Lemma settle_length_lt q r : In r (Dict.keys q) -> length (settle q r) < length q.
Proof.
  intros Hin. unfold settle, forget_predecessor. rewrite length_map.
  now apply DictFacts.del_length.
Qed.

Lemma evolve_length_le done : forall q, length (evolve q done) <= length q.
Proof.
  induction done as [|r done IH]; intros q; simpl; [lia|].
  specialize (IH (settle q r)). pose proof (settle_length_le q r). lia.
Qed.

Lemma frontier_incl q :
  incl (revisions_with_no_outstanding_predecessors q) (Dict.keys q).
Proof.
  intros m Hm. apply in_frontier_entry in Hm. destruct Hm as [d Hin].
  apply in_map_iff. exists (m, (d, [])). now split.
Qed.

(** Every pass of the [while] loop that goes on to another pass has
    removed at least one key, so the number of keys bounds the passes. *)
Lemma loop_has_fuel fuel : forall F p w,
  F <> [] -> incl F (Dict.keys p) -> length p <= fuel ->
  fst (fst (_apply_revisions_to_database env fuel revision_to_file F (p, w)))
  <> OutOfFuel.
Proof.
  induction fuel as [|fuel IH]; intros F p w Hne Hincl Hlen.
  - exfalso. destruct p; [|simpl in Hlen; lia].
    destruct F as [|r F]; [now apply Hne|]. apply (Hincl r). now left.
  - simpl.
    destruct (apply_round env revision_to_file F (p, w))
      as [[o1 [p1 w1]] done] eqn:Hround.
    apply apply_round_spec in Hround.
    destruct Hround as (-> & _ & [(-> & -> & _)|(r & rest & [e ->] & _)]);
      [|simpl; discriminate].
    simpl.
    destruct (revisions_with_no_outstanding_predecessors (evolve p done))
      as [|n next] eqn:Hnext; [simpl; discriminate|].
    specialize (IH (n :: next) (evolve p done) w1).
    destruct (_apply_revisions_to_database env fuel revision_to_file _ _)
      as [[o2 [p2 w2]] rounds2]. simpl in *. apply IH.
    + discriminate.
    + rewrite <- Hnext. apply frontier_incl.
    + destruct done as [|r done]; [now contradiction Hne|].
      simpl. pose proof (evolve_length_le done (settle p r)).
      assert (In r (Dict.keys p)) by (apply Hincl; now left).
      pose proof (settle_length_lt p r H0). lia.
Qed.

End LoopTermination.

Section ScheduleInvariant.

Implicit Types (p q : Dict.t (list string * list string)).

Variable P : Dict.t (list string * list string) -> Prop.
Variable Q : string -> Prop.

Hypothesis step :
  forall q r, P q -> Q r -> In r (Dict.keys q) -> P (settle q r).
Hypothesis eligible :
  forall q, P q -> NoDup (Dict.keys q) ->
            Forall Q (revisions_with_no_outstanding_predecessors q).

Lemma keys_evolve done : forall p,
  Dict.keys (evolve p done)
  = filter (fun k => negb (Str.mem k done)) (Dict.keys p).
Proof.
  induction done as [|r done IH]; intros p; simpl.
  - symmetry. apply forallb_filter_id. now apply forallb_forall.
  - rewrite IH, keys_settle, filter_twice. apply filter_ext. intros k.
    now rewrite negb_orb.
Qed.

Lemma NoDup_keys_evolve p done :
  NoDup (Dict.keys p) -> NoDup (Dict.keys (evolve p done)).
Proof. intros H. rewrite keys_evolve. now apply NoDup_filter. Qed.

Lemma NoDup_frontier q :
  NoDup (Dict.keys q) -> NoDup (revisions_with_no_outstanding_predecessors q).
Proof.
  unfold revisions_with_no_outstanding_predecessors, Dict.keys.
  induction q as [|[k v] q IH]; simpl; [constructor|].
  intros Hnd. inversion Hnd as [|? ? Hk Hnd']; subst.
  destruct (no_outstanding (k, v)); simpl; [|now apply IH].
  constructor; [|now apply IH].
  intros Hin. apply Hk. apply in_map_iff in Hin.
  destruct Hin as (e & He & Hin). apply filter_In in Hin.
  apply in_map_iff. exists e. tauto.
Qed.

Lemma evolve_invariant done : forall p,
  P p -> Forall Q done -> NoDup done -> incl done (Dict.keys p) ->
  P (evolve p done).
Proof.
  induction done as [|r done IH]; intros p HP HQ Hnd Hincl; simpl; [assumption|].
  inversion HQ as [|? ? Hr HQ']; subst. inversion Hnd as [|? ? Hnot Hnd']; subst.
  apply IH; try assumption.
  - apply step; [assumption | assumption | apply Hincl; now left].
  - intros x Hx. rewrite keys_settle. apply filter_In. split.
    + apply Hincl. now right.
    + apply negb_true_iff. apply String.eqb_neq. intros ->. contradiction.
Qed.

(** An invariant of the dictionary that makes every revision of a
    frontier satisfy [Q] makes every revision the loop applies, or tries
    to apply, satisfy [Q]. *)
Lemma schedule_invariant F p rounds p' s :
  schedule F p rounds p' s ->
  P p -> NoDup (Dict.keys p) -> Forall Q F -> NoDup F -> incl F (Dict.keys p) ->
  Forall Q (concat rounds) /\ (forall r, s = FailedAt r -> Q r).
Proof.
  induction 1 as [F p|F p done r rest HF|F p Hnone|F p rounds p' s Hsome Hrest IH];
    intros HP Hndk HQ Hnd Hincl; simpl.
  - split; [constructor | discriminate].
  - subst F. apply Forall_app in HQ. destruct HQ as [HQ1 HQ2].
    inversion HQ2; subst. rewrite app_nil_r. split; [assumption|].
    now intros r' [= <-].
  - rewrite app_nil_r. split; [assumption | discriminate].
  - destruct IH as [IH1 IH2].
    + now apply evolve_invariant.
    + now apply NoDup_keys_evolve.
    + apply eligible; [now apply evolve_invariant | now apply NoDup_keys_evolve].
    + apply NoDup_frontier. now apply NoDup_keys_evolve.
    + apply frontier_incl.
    + split; [|assumption]. apply Forall_app. now split.
Qed.

End ScheduleInvariant.

Section ApplyMigrationsCases.

Context {U : Type}.
Variable env : Environment U.

Implicit Types (w : World U).

Lemma in_applied_messages n done :
  In (MsgApplying n) (applied_messages done) -> In n done.
Proof.
  unfold applied_messages. intros Hin. apply in_flat_map in Hin.
  destruct Hin as (r & Hr & [[= ->]|[[=]|[]]]). assumption.
Qed.

(** The three ways apply_migrations goes once every pending file has been
    read: nothing is pending, nothing is eligible, or the loop runs. *)
Lemma apply_migrations_cases fuel w p0 o w' rounds :
  pending_predecessors env (revision (ledger_of w)) = inr p0 ->
  apply_migrations env fuel w = (o, w', rounds) ->
  (rounds = [] /\
   ((o = Returned /\ p0 = []) \/
    (o = Exit 1 /\ p0 <> [] /\ revisions_with_no_outstanding_predecessors p0 = [])) /\
   (forall n, In (MsgApplying n) (stdout w') -> In (MsgApplying n) (stdout w)))
  \/
  (revisions_with_no_outstanding_predecessors p0 <> [] /\
   (length p0 <= fuel -> o <> OutOfFuel) /\
   exists p' s,
     schedule (revisions_with_no_outstanding_predecessors p0) p0 rounds p' s /\
     stop_of o s /\
     forall n, In (MsgApplying n) (stdout w') ->
               In (MsgApplying n) (stdout w) \/ In n (concat rounds) \/ s = FailedAt n).
Proof.
  intros Hp0. rewrite apply_migrations_unfold. cbv zeta. rewrite Hp0.
  pose proof (pending_predecessors_spec env _ Hp0) as [Hkeys _].
  assert (Hplain : forall (ms : list message) n,
             (forall m, In m ms -> forall r, m <> MsgApplying r) ->
             In (MsgApplying n) (stdout w ++ ms) -> In (MsgApplying n) (stdout w)).
  { intros ms n Hms Hin. apply in_app_or in Hin. destruct Hin as [Hin|Hin];
      [assumption|]. exfalso. now apply (Hms _ Hin n). }
  destruct (pending_files env (revision (ledger_of w))) as [|item items] eqn:Hfiles.
  { intros [= <- <- <-]. left. split; [reflexivity|]. split.
    - left. split; [reflexivity|]. destruct p0; [reflexivity | discriminate].
    - intros n. unfold print. simpl. rewrite <- !app_assoc. apply Hplain.
      intros m [<-|[<-|[<-|[]]]] r; discriminate. }
  assert (Hne : p0 <> []) by (intros ->; discriminate).
  destruct (revisions_with_no_outstanding_predecessors p0) as [|r0 front] eqn:Hfront.
  { intros [= <- <- <-]. left. split; [reflexivity|]. split.
    - right. now split.
    - intros n. unfold print. simpl. rewrite <- !app_assoc. apply Hplain.
      intros m [<-|[<-|[<-|[<-|[]]]]] r; discriminate. }
  rewrite <- Hfront, <- Hfiles.
  pose proof (@loop_has_fuel _ env (pending_files env (revision (ledger_of w))) fuel
                (revisions_with_no_outstanding_predecessors p0) p0
                (print (MsgToApply (length (pending_files env (revision (ledger_of w)))))
                   (print (MsgFound (length (revision (ledger_of w))))
                      (print MsgFinding w)))) as Hfuel.
  destruct (_apply_revisions_to_database env fuel _ _ _)
    as [[o1 [p1 w1]] rounds1] eqn:Hloop.
  intros [= <- <- <-]. right. split; [rewrite Hfront; discriminate|]. split.
  { intros Hlen. apply Hfuel; [rewrite Hfront; discriminate | apply frontier_incl
                              | assumption]. }
  apply loop_spec in Hloop. destruct Hloop as (s & Hsched & Hstop & _ & Hout).
  exists p1, s. split; [assumption|]. split; [assumption|].
  intros n Hin. simpl in Hin.
  assert (Hpre : forall tail,
             In (MsgApplying n)
               ((((stdout w ++ [MsgFinding]) ++ [MsgFound (length (revision (ledger_of w)))])
                 ++ [MsgToApply (length (pending_files env (revision (ledger_of w))))])
                ++ tail) ->
             In (MsgApplying n) (stdout w) \/ In (MsgApplying n) tail).
  { intros tail H. apply in_app_or in H. destruct H as [H|H]; [left | now right].
    rewrite <- !app_assoc in H. revert H. apply Hplain.
    intros m [<-|[<-|[<-|[]]]] r; discriminate. }
  destruct Hout as [Hout|(r & -> & Hout)]; simpl in Hout; rewrite Hout in Hin;
    apply Hpre in Hin; destruct Hin as [Hin|Hin]; try (now left).
  - right. left. now apply in_applied_messages.
  - apply in_app_or in Hin. destruct Hin as [Hin|[[= ->]|[]]].
    + right. left. now apply in_applied_messages.
    + right. now right.
Qed.

End ApplyMigrationsCases.

(** ** Pending revisions and their entries *)

Section PendingFacts.

Context {U : Type}.
Variable env : Environment U.
Variable applied : list string.
Variable p0 : Dict.t (list string * list string).
Hypothesis Hp0 : pending_predecessors env applied = inr p0.

Lemma NoDup_pending_predecessors : NoDup (Dict.keys p0).
Proof.
  destruct (pending_predecessors_spec env applied Hp0) as [-> _].
  apply NoDup_pending_files.
Qed.

Lemma pending_key_not_applied x : In x (Dict.keys p0) -> ~ In x applied.
Proof.
  destruct (pending_predecessors_spec env applied Hp0) as [-> _].
  apply pending_not_applied.
Qed.

Lemma pending_entry m declared outstanding :
  Dict.get m p0 = Some (declared, outstanding) ->
  outstanding = filter (fun x => negb (Str.mem x applied)) declared.
Proof.
  intros Hget.
  destruct (pending_predecessors_spec env applied Hp0) as [_ Hentries].
  destruct (Hentries m _ Hget) as (file & lines & _ & _ & Heq).
  now injection Heq as -> ->.
Qed.

Lemma pending_entry_of_file m file lines :
  Dict.get m (pending_files env applied) = Some file ->
  open_file env file = Some lines ->
  Dict.get m p0 = Some (declared_in lines, outstanding_in applied lines).
Proof.
  intros Hfile Hopen.
  destruct (pending_predecessors_spec env applied Hp0) as [Hkeys Hentries].
  assert (Hin : In m (Dict.keys p0)).
  { rewrite Hkeys. apply DictFacts.get_keys. eauto. }
  apply DictFacts.get_keys in Hin. destruct Hin as [entry Hget].
  destruct (Hentries m entry Hget) as (file' & lines' & Hfile' & Hopen' & ->).
  rewrite Hfile in Hfile'. injection Hfile' as <-.
  rewrite Hopen in Hopen'. injection Hopen' as <-. assumption.
Qed.

(** A pending revision waits, from the start, for each pending
    predecessor it declares. *)
Lemma waits_for_outstanding m x :
  waits_for p0 m x ->
  exists declared outstanding,
    Dict.get m p0 = Some (declared, outstanding) /\ In x outstanding.
Proof.
  intros (declared & outstanding & Hget & Hx & Hkey).
  exists declared, outstanding. split; [assumption|].
  rewrite (pending_entry _ Hget). apply filter_In. split; [assumption|].
  apply negb_true_iff. apply mem_not_In. now apply pending_key_not_applied.
Qed.


End PendingFacts.




(** ** A predecessor named twice *)

Section Blocked.

Implicit Types (p q : Dict.t (list string * list string)).

Lemma count_remove_first_other r x (o : list string) :
  x <> r ->
  count_occ string_dec (Str.remove_first r o) x = count_occ string_dec o x.
Proof.
  intros Hne. induction o as [|y o IH]; simpl; [reflexivity|].
  destruct (String.eqb_spec r y) as [->|Hry].
  - destruct (string_dec y x); [congruence | reflexivity].
  - simpl. destruct (string_dec y x); now rewrite IH.
Qed.

Lemma count_remove_first_same r (o : list string) :
  In r o ->
  S (count_occ string_dec (Str.remove_first r o) r) = count_occ string_dec o r.
Proof.
  induction o as [|y o IH]; simpl; [tauto|].
  destruct (String.eqb_spec r y) as [->|Hry].
  - intros _. destruct (string_dec y y); [reflexivity | congruence].
  - intros [H|H]; [congruence|]. simpl.
    destruct (string_dec y r); [congruence | now apply IH].
Qed.

Lemma count_filter_kept (f : string -> bool) x (l : list string) :
  f x = true ->
  count_occ string_dec (filter f l) x = count_occ string_dec l x.
Proof.
  intros Hf. induction l as [|y l IH]; simpl; [reflexivity|].
  destruct (f y) eqn:Hy; simpl.
  - destruct (string_dec y x); now rewrite IH.
  - destruct (string_dec y x); [congruence | assumption].
Qed.

Lemma declared_in_app l1 l2 :
  declared_in (l1 ++ l2) = declared_in l1 ++ declared_in l2.
Proof. unfold declared_in. now rewrite filter_app, map_app. Qed.

Lemma declared_twice pre line mid post :
  Str.startswith line PREDECESSOR_MARKER = true ->
  2 <= count_occ string_dec
         (declared_in (pre ++ line :: mid ++ line :: post))
         (predecessor_of_line line).
Proof.
  intros Hmark.
  assert (Hone : forall rest,
             declared_in (line :: rest) = predecessor_of_line line :: declared_in rest).
  { intros rest. unfold declared_in. simpl. now rewrite Hmark. }
  rewrite declared_in_app, Hone, declared_in_app, Hone.
  rewrite count_occ_app. simpl.
  destruct (string_dec _ _) as [_|Hne]; [|congruence].
  rewrite count_occ_app. simpl.
  destruct (string_dec _ _) as [_|Hne]; [|congruence]. lia.
Qed.

Variable p0 : Dict.t (list string * list string).
Variables M Pd : string.

Lemma blocked_step q r :
  blocked p0 M Pd q -> ~ held_back p0 M r -> In r (Dict.keys q) -> blocked p0 M Pd (settle q r).
Proof.
  intros [(d & o & HM & HPd & Hcount) Hothers] Hfree Hkey. split.
  - assert (HrM : M <> r) by (intros <-; apply Hfree; now left).
    exists d, (if Str.mem r o then Str.remove_first r o else o).
    rewrite get_settle, HM.
    destruct (String.eqb_spec M r) as [|_]; [contradiction|].
    split; [reflexivity|].
    destruct (string_dec Pd r) as [->|Hne].
    + specialize (Hcount Hkey).
      assert (Hin : In r o) by (apply (count_occ_In string_dec); lia).
      rewrite (proj2 (mem_In r o) Hin).
      pose proof (count_remove_first_same r o Hin) as Hc. split.
      * apply (count_occ_In string_dec). lia.
      * rewrite keys_settle. intros H. apply filter_In in H.
        rewrite String.eqb_refl in H. now destruct H.
    + assert (Hsame : count_occ string_dec
                        (if Str.mem r o then Str.remove_first r o else o) Pd
                      = count_occ string_dec o Pd).
      { destruct (Str.mem r o); [now apply count_remove_first_other | reflexivity]. }
      split.
      * apply (count_occ_In string_dec). rewrite Hsame.
        now apply (count_occ_In string_dec).
      * rewrite keys_settle, Hsame. intros H. apply filter_In in H.
        apply Hcount. now destruct H.
  - intros n Hn HnM. destruct (Hothers n Hn HnM) as (d' & o' & x & Hget & Hx & Hheld).
    exists d', (if Str.mem r o' then Str.remove_first r o' else o'), x.
    rewrite get_settle, Hget.
    destruct (String.eqb_spec n r) as [->|_]; [contradiction|].
    split; [reflexivity|]. split; [|assumption].
    destruct (Str.mem r o'); [|assumption].
    destruct (@remove_first_In x r o' Hx) as [->|H]; [contradiction | assumption].
Qed.

Lemma blocked_eligible q :
  blocked p0 M Pd q -> NoDup (Dict.keys q) ->
  Forall (fun r => ~ held_back p0 M r) (revisions_with_no_outstanding_predecessors q).
Proof.
  intros [(d & o & HM & HPd & _) Hothers] Hnd. apply Forall_forall.
  intros r Hr Hheld. apply in_frontier in Hr; [|assumption].
  destruct Hr as [d' Hget].
  destruct (string_dec r M) as [->|Hne].
  - rewrite HM in Hget. injection Hget as -> ->. contradiction.
  - destruct (Hothers r Hheld Hne) as (d1 & o1 & x & Hget1 & Hx & _).
    rewrite Hget in Hget1. injection Hget1 as -> <-. contradiction.
Qed.

End Blocked.

Lemma held_back_pending (p0 : Dict.t (list string * list string)) (M n : string) :
  In M (Dict.keys p0) -> held_back p0 M n -> In n (Dict.keys p0).
Proof.
  intros HM [->|Hct]; [assumption|].
  apply clos_trans_t1n in Hct.
  destruct Hct as [y (d & o & Hget & _)|y z (d & o & Hget & _) _];
    apply DictFacts.get_keys; eauto.
Qed.

Lemma held_back_next (p0 : Dict.t (list string * list string)) (M n : string) :
  held_back p0 M n -> n <> M ->
  exists x, waits_for p0 n x /\ held_back p0 M x.
Proof.
  intros [->|Hct] Hne; [contradiction|].
  apply clos_trans_t1n in Hct. destruct Hct as [y Hstep|y z Hstep Hrest].
  - exists y. split; [assumption | now left].
  - exists y. split; [assumption|]. right. now apply clos_t1n_trans.
Qed.

(** * Further facts on apply and rollback *)

(** ** Apply: what a run applies *)

Section AppliedOnce.

Context {U : Type}.
Variable env : Environment U.
Variable revision_to_file : Dict.t string.

Implicit Types (p : Dict.t (list string * list string)) (w : World U).

Local Arguments apply_revision : simpl never.

Lemma apply_round_applies_once F : forall p w o p' w' done,
  apply_round env revision_to_file F (p, w) = (o, (p', w'), done) ->
  NoDup done.
Proof.
  induction F as [|r F IH]; intros p w o p' w' done; simpl.
  - intros [= <- <- <- <-]. constructor.
  - destruct (apply_revision env revision_to_file r (p, w)) as [o1 [p1 w1]] eqn:Hone.
    apply apply_revision_spec in Hone.
    destruct Hone as [(-> & _ & -> & Hrev & _)|([e ->] & _)].
    + simpl.
      destruct (apply_round env revision_to_file F _) as [[o2 [p2 w2]] done2] eqn:Hrest.
      simpl. intros [= <- <- <- <-].
      pose proof (IH _ _ _ _ _ _ Hrest) as Hnd.
      apply apply_round_spec in Hrest. destruct Hrest as (_ & (_ & _ & _ & _ & Hnew) & _).
      rewrite Forall_forall in Hnew.
      constructor; [|assumption].
      intros Hin. apply (Hnew r Hin). rewrite Hrev. apply in_or_app. right. now left.
    + intros [= <- <- <- <-]. constructor.
Qed.

Lemma loop_applies_once fuel : forall F p w o p' w' rounds,
  _apply_revisions_to_database env fuel revision_to_file F (p, w)
  = (o, (p', w'), rounds) ->
  NoDup (concat rounds).
Proof.
  induction fuel as [|fuel IH]; intros F p w o p' w' rounds; simpl.
  - intros [= <- <- <- <-]. constructor.
  - destruct (apply_round env revision_to_file F (p, w))
      as [[o1 [p1 w1]] done] eqn:Hround.
    pose proof (apply_round_applies_once _ _ _ Hround) as Hnd.
    apply apply_round_spec in Hround.
    destruct Hround as (-> & (Hrev & _) & [(-> & -> & _)|(r & rest & [e ->] & _)]).
    + simpl.
      destruct (revisions_with_no_outstanding_predecessors (evolve p done))
        as [|n next] eqn:Hnext.
      * intros [= <- <- <- <-]. simpl. now rewrite app_nil_r.
      * destruct (_apply_revisions_to_database env fuel revision_to_file _ _)
          as [[o2 [p2 w2]] rounds2] eqn:Hloop.
        intros [= <- <- <- <-]. simpl.
        pose proof (IH _ _ _ _ _ _ _ Hloop) as Hnd2.
        apply loop_spec in Hloop.
        destruct Hloop as (s & _ & _ & (_ & _ & _ & _ & Hnew) & _).
        rewrite Forall_forall in Hnew.
        apply NoDup_app; try assumption.
        intros a Ha Ha2. apply (Hnew a Ha2). rewrite Hrev. apply in_or_app. now right.
    + intros [= <- <- <- <-]. simpl. now rewrite app_nil_r.
Qed.

End AppliedOnce.

(** ** Apply: the only exception of a sound catalog is a failing script *)

Section ApplySound.

Context {U : Type}.
Variable env : Environment U.
Variable revision_to_file : Dict.t string.

Implicit Types (p : predecessors) (w : World U).

Local Arguments apply_revision : simpl never.





End ApplySound.

Section ApplyOutcome.

Context {U : Type}.
Variable env : Environment U.


End ApplyOutcome.

(** ** Rollback: the extent of a cascade *)

Section RollbackExact.

Context {U : Type}.
Variable env : Environment U.

Implicit Types (w : World U).

Lemma at_or_below_without removed l x y :
  at_or_below (without removed l) x y -> at_or_below l x y.
Proof.
  intros [->|Hct]; [now left | right].
  eapply clos_trans_mono; [|exact Hct].
  intros a b. apply without_edges_incl.
Qed.

Lemma at_or_below_step l x d y :
  In (x, d) (dependent_revision l) -> at_or_below l d y -> at_or_below l x y.
Proof.
  intros Hedge [->|Hct]; right.
  - now apply t_step.
  - apply t_trans with d; [now apply t_step | assumption].
Qed.

Lemma undo_extent x w :
  ledger_of (snd (undo env x w)) = without [x] (ledger_of w) \/
  ledger_of (snd (undo env x w)) = ledger_of w.
Proof.
  pose proof (undo_spec env x w) as H.
  destruct (undo env x w) as [o w']. simpl.
  destruct o; try (right; unfold ledger_of; destruct H as [-> _]; reflexivity).
  left. now destruct H as (_ & Hl & _).
Qed.

(** Whatever its outcome, a rollback deletes rows only for the target and
    for revisions below it. *)
Lemma remove_migration_extent fuel : forall x w,
  exists removed,
    ledger_of (snd (remove_migration env fuel x w)) = without removed (ledger_of w) /\
    forall y, In y removed -> at_or_below (ledger_of w) x y.
Proof.
  induction fuel as [|fuel IH]; intros x w; simpl.
  - exists []. rewrite without_nil. split; [reflexivity | intros y []].
  - assert (Hall : forall ds w0,
               exists removed,
                 ledger_of (snd (for_each (remove_migration env fuel) ds w0))
                 = without removed (ledger_of w0) /\
                 forall y, In y removed ->
                   exists d, In d ds /\ at_or_below (ledger_of w0) d y).
    { induction ds as [|d ds IHds]; intros w0; simpl.
      - exists []. rewrite without_nil. split; [reflexivity | intros y []].
      - destruct (IH d w0) as (S1 & Hl1 & Hb1).
        destruct (remove_migration env fuel d w0) as [o1 w1]. simpl in Hl1.
        assert (Hstop : exists removed,
                   ledger_of w1 = without removed (ledger_of w0) /\
                   forall y, In y removed ->
                     exists d', (d = d' \/ In d' ds) /\ at_or_below (ledger_of w0) d' y).
        { exists S1. split; [assumption|]. intros y Hy. exists d. split; [now left|auto]. }
        destruct o1; simpl; try exact Hstop.
        destruct (IHds w1) as (S2 & Hl2 & Hb2).
        exists (S1 ++ S2). split; [now rewrite Hl2, Hl1, without_app|].
        intros y Hy. apply in_app_or in Hy. destruct Hy as [Hy|Hy].
        + exists d. split; [now left | auto].
        + destruct (Hb2 y Hy) as (d' & Hd' & Hbelow). exists d'. split; [now right|].
          rewrite Hl1 in Hbelow. now apply at_or_below_without in Hbelow. }
    destruct (Hall (FIND_DEPENDENT_REVISIONS x (ledger (db w))) w) as (S1 & Hl1 & Hb1).
    assert (Hbelow : forall y, In y S1 -> at_or_below (ledger_of w) x y).
    { intros y Hy. destruct (Hb1 y Hy) as (d & Hd & Hdy).
      apply in_dependents in Hd. now apply at_or_below_step with d. }
    destruct (for_each (remove_migration env fuel) _ w) as [o1 w1]. simpl in Hl1.
    destruct o1; simpl; try (exists S1; now split).
    destruct (undo_extent x w1) as [Hl|Hl].
    + exists (S1 ++ [x]). split; [now rewrite Hl, Hl1, without_app|].
      intros y Hy. apply in_app_or in Hy. destruct Hy as [Hy|[<-|[]]];
        [now apply Hbelow | now left].
    + exists S1. split; [now rewrite Hl | assumption].
Qed.

Lemma closed_under_app l S1 S2 :
  closed_under l S1 -> closed_under (without S1 l) S2 ->
  closed_under l (S1 ++ S2).
Proof.
  intros H1 H2 a b Ha Hedge. apply in_or_app.
  destruct (Str.mem b S1) eqn:Hb; [left; now apply mem_In|].
  apply in_app_or in Ha. destruct Ha as [Ha|Ha].
  - left. now apply (H1 a b).
  - right. apply (H2 a b); [assumption|]. simpl. apply filter_In.
    split; [assumption|]. simpl. now rewrite Hb.
Qed.

(** A rollback that returns has removed the target and everything below
    it. *)
Lemma remove_migration_returned_closed fuel : forall x w w',
  remove_migration env fuel x w = (Returned, w') ->
  exists removed,
    ledger_of w' = without removed (ledger_of w) /\ In x removed /\
    closed_under (ledger_of w) removed.
Proof.
  induction fuel as [|fuel IH]; intros x w w'; simpl; [discriminate|].
  assert (Hall : forall ds w0 w1,
             for_each (remove_migration env fuel) ds w0 = (Returned, w1) ->
             exists removed,
               ledger_of w1 = without removed (ledger_of w0) /\ incl ds removed /\
               closed_under (ledger_of w0) removed).
  { induction ds as [|d ds IHds]; intros w0 w1; simpl.
    - intros [= <-]. exists []. rewrite without_nil.
      split; [reflexivity|]. split; [apply incl_refl | intros a b []].
    - destruct (remove_migration env fuel d w0) as [[] w2] eqn:Hd; try discriminate.
      intros Hrest. apply IH in Hd. destruct Hd as (S1 & Hl1 & Hin1 & Hc1).
      apply IHds in Hrest. destruct Hrest as (S2 & Hl2 & Hincl2 & Hc2).
      exists (S1 ++ S2). split; [now rewrite Hl2, Hl1, without_app|]. split.
      + intros a [<-|Ha]; apply in_or_app; [now left | right; now apply Hincl2].
      + apply closed_under_app; [assumption | now rewrite <- Hl1]. }
  destruct (for_each (remove_migration env fuel) _ w) as [[] w1] eqn:Hfor;
    try discriminate.
  apply Hall in Hfor. destruct Hfor as (S1 & Hl1 & Hincl & Hc1).
  pose proof (undo_spec env x w1) as H. intros E. rewrite E in H.
  destruct H as (_ & Hl & _).
  exists (S1 ++ [x]). split; [now rewrite Hl, Hl1, without_app|]. split.
  - apply in_or_app. right. now left.
  - intros a b Ha Hedge. apply in_or_app. left.
    apply in_app_or in Ha. destruct Ha as [Ha|[<-|[]]].
    + now apply (Hc1 a b).
    + apply Hincl. now apply in_dependents.
Qed.

Lemma closed_under_below l removed x y :
  closed_under l removed -> In x removed -> at_or_below l x y -> In y removed.
Proof.
  intros Hclosed Hx [->|Hct]; [assumption|].
  revert Hx. induction Hct as [a b Hab|a b c _ IH1 _ IH2]; intros Ha.
  - now apply (Hclosed a b).
  - auto.
Qed.

End RollbackExact.


(** ** Rollback: cycles below the target *)

Section ChainsAndCycles.

Variable A : Type.
Variable R : A -> A -> Prop.
Hypothesis eq_dec : forall x y : A, {x = y} + {x <> y}.

Lemma chain_reaches (x a : A) (l : list A) :
  chain R (x :: l) -> In a l -> clos_trans A R x a.
Proof.
  revert x. induction l as [|y l IH]; intros x Hchain Ha; [contradiction|].
  destruct Hchain as [Hxy Htl]. destruct Ha as [<-|Ha].
  - now apply t_step.
  - apply t_trans with y; [now apply t_step | now apply IH].
Qed.

Lemma chain_with_repeat_meets_a_cycle (l : list A) :
  chain R l -> ~ NoDup l -> exists a, In a l /\ clos_trans A R a a.
Proof.
  intros Hchain Hdup.
  destruct (repeated_element eq_dec Hdup) as (a & l1 & l2 & l3 & ->).
  exists a. split; [apply in_or_app; right; now left|].
  apply chain_app_r in Hchain.
  change (a :: l2 ++ a :: l3) with ((a :: l2) ++ a :: l3) in Hchain.
  replace ((a :: l2) ++ a :: l3) with ((a :: l2 ++ [a]) ++ l3) in Hchain
    by (simpl; now rewrite <- app_assoc).
  apply chain_app_l in Hchain. now apply chain_path with l2.
Qed.

Lemma long_chain_meets_a_cycle (l K : list A) :
  chain R l -> incl l K -> length K < length l ->
  exists a, In a l /\ clos_trans A R a a.
Proof.
  intros Hchain Hincl Hlen. apply chain_with_repeat_meets_a_cycle; [assumption|].
  intros Hnd. apply (NoDup_incl_length Hnd) in Hincl. lia.
Qed.

End ChainsAndCycles.

Section CycleBelow.

Context {U : Type}.
Variable env : Environment U.

Implicit Types (w : World U) (l : Ledger).

Lemma above_a_cycle_parent l a b :
  recorded_edge l a b -> above_a_cycle l b -> above_a_cycle l a.
Proof.
  intros Hab (c & Hbc & Hcc). exists c. split; [|exact Hcc].
  now apply at_or_below_step with b.
Qed.

Lemma at_or_below_above l x y :
  at_or_below l x y -> above_a_cycle l y -> above_a_cycle l x.
Proof.
  intros [->|Hxy]; [trivial|]. intros (c & Hyc & Hcc).
  exists c. split; [|exact Hcc]. right.
  destruct Hyc as [->|Hyc]; [assumption | now apply t_trans with y].
Qed.

Lemma on_a_cycle_above l c :
  clos_trans string (recorded_edge l) c c -> above_a_cycle l c.
Proof. intros H. exists c. split; [now left | exact H]. Qed.

(** A revision above a cycle has a dependent above a cycle. *)
Lemma above_a_cycle_step l x :
  above_a_cycle l x ->
  exists d, In (x, d) (dependent_revision l) /\ above_a_cycle l d.
Proof.
  intros (c & Hxc & Hcc).
  assert (Hpath : clos_trans string (recorded_edge l) x c)
    by (destruct Hxc as [->|H]; assumption).
  apply clos_trans_t1n in Hpath.
  destruct Hpath as [d Hxd|d e Hxd Hde].
  - exists d. split; [exact Hxd | now apply on_a_cycle_above].
  - exists d. split; [exact Hxd|]. exists e. split; [|exact Hcc].
    right. now apply clos_t1n_trans.
Qed.

(** Deleting the rows of revisions that are not above a cycle leaves
    every path to a cycle in place. *)
Lemma path_to_a_cycle_without removed l a c :
  (forall y, In y removed -> ~ above_a_cycle l y) ->
  clos_trans string (recorded_edge l) a c -> above_a_cycle l c ->
  clos_trans string (recorded_edge (without removed l)) a c.
Proof.
  intros Hrem Hpath Hc. apply clos_trans_t1n in Hpath.
  assert (Hedge : forall p q, recorded_edge l p q -> above_a_cycle l q ->
                              recorded_edge (without removed l) p q).
  { intros p q Hpq Hq. unfold recorded_edge. simpl. apply filter_In.
    split; [exact Hpq|]. simpl. apply negb_true_iff. apply mem_not_In.
    intros Hin. exact (Hrem q Hin Hq). }
  induction Hpath as [a c Hac|a b c Hab Hbc IH].
  - apply t_step. now apply Hedge.
  - assert (Hb : above_a_cycle l b).
    { apply at_or_below_above with c; [|exact Hc]. right. now apply clos_t1n_trans. }
    apply t_trans with b; [apply t_step; now apply Hedge | now apply IH].
Qed.

Lemma above_a_cycle_without removed l x :
  (forall y, In y removed -> ~ above_a_cycle l y) ->
  above_a_cycle l x -> above_a_cycle (without removed l) x.
Proof.
  intros Hrem (c & Hxc & Hcc).
  pose proof (on_a_cycle_above Hcc) as Hc.
  exists c. split.
  - destruct Hxc as [->|Hxc]; [now left | right].
    now apply path_to_a_cycle_without.
  - now apply path_to_a_cycle_without.
Qed.

(** A revision above a cycle is never undone: the recursion below it does
    not come back. *)
Lemma remove_migration_above_a_cycle fuel : forall x w,
  above_a_cycle (ledger_of w) x ->
  fst (remove_migration env fuel x w) <> Returned.
Proof.
  induction fuel as [|fuel IH]; intros x w Habove; simpl; [discriminate|].
  assert (Hall : forall ds w0,
             (exists d, In d ds /\ above_a_cycle (ledger_of w0) d) ->
             fst (for_each (remove_migration env fuel) ds w0) <> Returned).
  { induction ds as [|d0 ds IHds]; intros w0 (d & Hd & Hcyc); [contradiction|].
    simpl.
    pose proof (IH d0 w0) as Hd0.
    destruct (remove_migration_extent env fuel d0 w0) as (S1 & Hl1 & Hb1).
    destruct (remove_migration env fuel d0 w0) as [o1 w1]. simpl in *.
    destruct o1; simpl; try discriminate.
    assert (Hnot : ~ above_a_cycle (ledger_of w0) d0)
      by (intros H; now apply Hd0).
    apply IHds. destruct Hd as [<-|Hd]; [contradiction|].
    exists d. split; [exact Hd|]. rewrite Hl1.
    apply above_a_cycle_without; [|exact Hcyc].
    intros y Hy Hy'. apply Hnot. apply at_or_below_above with y; [|exact Hy'].
    now apply Hb1. }
  destruct (above_a_cycle_step Habove) as (d & Hxd & Hd).
  specialize (Hall (FIND_DEPENDENT_REVISIONS x (ledger (db w))) w).
  destruct (for_each (remove_migration env fuel) _ w) as [o1 w1]. simpl in *.
  destruct o1; simpl; try discriminate.
  exfalso. apply Hall; [|reflexivity].
  exists d. split; [now apply in_dependents | exact Hd].
Qed.

Lemma undo_script_error x w :
  fst (undo env x w) = Raised ScriptError ->
  exists lines,
    open_file env (file_to_apply env x) = Some lines /\
    execute env (read lines) (store (db w)) = None.
Proof.
  unfold undo.
  destruct (open_file env (file_to_apply env x)) as [lines|]; [|discriminate].
  unfold begin, remove_transaction. simpl.
  destruct (execute env (read lines) (store (db w))) as [u|] eqn:Hexec;
    [|intros _; exists lines; now split].
  unfold bind, DELETE_DEPENDENT_REVISION_TEMPLATE.
  destruct (DELETE_REVISION_TEMPLATE x _) as [e|l2] eqn:Hdel; simpl; [|discriminate].
  unfold DELETE_REVISION_TEMPLATE in Hdel.
  destruct (existsb _ _); [|discriminate]. injection Hdel as <-. discriminate.
Qed.

(** What stops a rollback that does not return: the depth allowed, a
    reverse script that is missing, or a reverse script that fails, the
    script being that of the target or of a revision below it. *)
Lemma remove_migration_ends fuel : forall x w,
  let o := fst (remove_migration env fuel x w) in
  o = Returned \/ o = OutOfFuel \/
  exists y,
    at_or_below (ledger_of w) x y /\
    ((o = Raised FileNotFoundError /\
      open_file env (file_to_apply env y) = None) \/
     (o = Raised ScriptError /\
      exists lines u,
        open_file env (file_to_apply env y) = Some lines /\
        execute env (read lines) u = None)).
Proof.
  induction fuel as [|fuel IH]; intros x w; simpl; [right; now left|].
  assert (Hall : forall ds w0,
             let o := fst (for_each (remove_migration env fuel) ds w0) in
             o = Returned \/ o = OutOfFuel \/
             exists d y,
               In d ds /\ at_or_below (ledger_of w0) d y /\
               ((o = Raised FileNotFoundError /\
                 open_file env (file_to_apply env y) = None) \/
                (o = Raised ScriptError /\
                 exists lines u,
                   open_file env (file_to_apply env y) = Some lines /\
                   execute env (read lines) u = None))).
  { induction ds as [|d0 ds IHds]; intros w0; simpl; [now left|].
    pose proof (IH d0 w0) as Hd0.
    destruct (remove_migration_extent env fuel d0 w0) as (S1 & Hl1 & _).
    destruct (remove_migration env fuel d0 w0) as [o1 w1]. simpl in *.
    assert (Hhere : o1 <> Returned ->
              o1 = Returned \/ o1 = OutOfFuel \/
              exists d y,
                (d0 = d \/ In d ds) /\ at_or_below (ledger_of w0) d y /\
                ((o1 = Raised FileNotFoundError /\
                  open_file env (file_to_apply env y) = None) \/
                 (o1 = Raised ScriptError /\
                  exists lines u,
                    open_file env (file_to_apply env y) = Some lines /\
                    execute env (read lines) u = None))).
    { intros Hne. destruct Hd0 as [H|[H|(y & Hy & Hwhy)]];
        [contradiction | right; now left |].
      right. right. exists d0, y. split; [now left|]. now split. }
    destruct o1; simpl; try (apply Hhere; discriminate).
    destruct (IHds w1) as [H|[H|(d & y & Hd & Hy & Hwhy)]];
      [now left | right; now left |].
    right. right. exists d, y. split; [now right|]. split; [|exact Hwhy].
    rewrite Hl1 in Hy. now apply at_or_below_without in Hy. }
  specialize (Hall (FIND_DEPENDENT_REVISIONS x (ledger (db w))) w).
  pose proof (remove_migration_never_refused env (S fuel) x w) as Hnever.
  simpl in Hnever.
  destruct (for_each (remove_migration env fuel) _ w) as [o1 w1]. simpl in *.
  assert (Hdeps : o1 <> Returned ->
            o1 = Returned \/ o1 = OutOfFuel \/
            exists y,
              at_or_below (ledger_of w) x y /\
              ((o1 = Raised FileNotFoundError /\
                open_file env (file_to_apply env y) = None) \/
               (o1 = Raised ScriptError /\
                exists lines u,
                  open_file env (file_to_apply env y) = Some lines /\
                  execute env (read lines) u = None))).
  { intros Hne. destruct Hall as [H|[H|(d & y & Hd & Hy & Hwhy)]];
      [contradiction | right; now left |].
    right. right. exists y. split; [|exact Hwhy].
    apply in_dependents in Hd. now apply at_or_below_step with d. }
  destruct o1; simpl; try (apply Hdeps; discriminate).
  clear Hdeps Hall.
  pose proof (undo_script_error x w1) as Hscript.
  pose proof (undo_spec env x w1) as Hspec.
  destruct (undo env x w1) as [o w']. simpl in *.
  destruct o as [|c|e|]; [now left | | |];
    destruct Hspec as (_ & _ & _ & [[E Hopen]|[[E _]|[E _]]]);
    try discriminate; try (now elim Hnever).
  - right. right. exists x. split; [now left|]. left. now split.
  - right. right. exists x. split; [now left|]. right. split; [exact E|].
    destruct (Hscript E) as (lines & Hopen & Hexec). now exists lines, (store (db w1)).
Qed.

End CycleBelow.


(** ** Apply: the rounds of a run *)

Section RoundsOfARun.

Context {U : Type}.
Variable env : Environment U.


End RoundsOfARun.





(** ** Statements about the specification *)

(** C1, as stated, fails: next to the sound migration A, migration B names
    itself as predecessor, so the declared-predecessor graph is cyclic; yet
    apply returns normally, having run the script of A and recorded A. *)
Lemma cycle_beside_a_sound_migration_is_not_refused :
  pending_predecessors Examples.self_loop_beside []
  = inr [("A", ([], [])); ("B", (["B"], ["B"]))] /\
  let '(o, w', rounds) :=
    apply_migrations Examples.self_loop_beside 3
      (Examples.world_of Examples.empty_ledger) in
  o = Returned /\
  revision (ledger_of w') = ["A"] /\
  store (db w') = ["create a;"] /\
  rounds = [["A"]].
Proof. vm_compute. repeat split. Qed.

(** C1, amended.  When every pending migration declares a predecessor that
    is not applied (a lone self-predecessor, a lone mutual pair, any catalog
    made only of such migrations), apply exits with status 1 after the
    "invalid dependencies" message: no transaction is started, no script is
    run, and the database, hence the ledger, is unchanged. *)
Theorem apply_refuses_when_nothing_is_eligible :
  forall (U : Type) (env : Environment U) (fuel : nat) (w : World U),
    let applied := revision (ledger_of w) in
    pending_files env applied <> [] ->
    (forall r file,
        Dict.get r (pending_files env applied) = Some file ->
        exists lines x,
          open_file env file = Some lines /\
          In x (declared_in lines) /\ ~ In x applied) ->
    let '(o, w', rounds) := apply_migrations env fuel w in
    o = Exit 1 /\
    db w' = db w /\
    commits w' = commits w /\
    rounds = [] /\
    stdout w'
    = stdout w ++ [MsgFinding; MsgFound (length applied);
                   MsgToApply (length (pending_files env applied));
                   MsgInvalidDependencies].
Proof.
  intros U env fuel w applied Hpending Hblocked.
  rewrite apply_migrations_unfold. cbv zeta. fold applied.
  destruct (build_revision_to_predecessors_total env applied
              (pending_files env applied) []) as [p0 Hp0].
  { intros r file Hin. apply In_get in Hin; [|apply NoDup_pending_files].
    destruct (Hblocked r file Hin) as (lines & _ & Hopen & _). eauto. }
  fold (pending_predecessors env applied) in Hp0. rewrite Hp0.
  pose proof (pending_predecessors_spec env applied Hp0) as [Hkeys Hentries].
  assert (Hnone : revisions_with_no_outstanding_predecessors p0 = []).
  { apply no_frontier_iff.
    - rewrite Hkeys. apply NoDup_pending_files.
    - intros r declared outstanding Hget.
      destruct (Hentries r _ Hget) as (file & lines & Hfile & Hopen & Heq).
      destruct (Hblocked r file Hfile) as (lines' & x & Hopen' & Hx & Hnot).
      rewrite Hopen in Hopen'. injection Hopen' as <-.
      injection Heq as -> ->. intros Hnil.
      assert (Hin : In x (outstanding_in applied lines)).
      { unfold outstanding_in. apply filter_In. split; [assumption|].
        apply mem_not_In in Hnot. now rewrite Hnot. }
      rewrite Hnil in Hin. contradiction. }
  rewrite Hnone.
  destruct (pending_files env applied) as [|item items]; [contradiction|].
  unfold print. simpl.
  repeat split. rewrite <- !app_assoc. reflexivity.
Qed.

Lemma apply_refuses_when_nothing_is_eligible_witness :
  let '(o, w', rounds) :=
    apply_migrations Examples.mutual 3 (Examples.world_of Examples.empty_ledger) in
  o = Exit 1 /\
  db w' = db (Examples.world_of Examples.empty_ledger) /\
  commits w' = [] /\
  rounds = [] /\
  stdout w' = [MsgFinding; MsgFound 0; MsgToApply 2; MsgInvalidDependencies].
Proof.
  apply (@apply_refuses_when_nothing_is_eligible _ Examples.mutual 3
           (Examples.world_of Examples.empty_ledger)).
  - vm_compute. discriminate.
  - assert (Hfiles : pending_files Examples.mutual
                       (revision (ledger_of (Examples.world_of Examples.empty_ledger)))
                     = [("E", Examples.up "E"); ("F", Examples.up "F")])
      by (vm_compute; reflexivity).
    intros r file. rewrite Hfiles. simpl.
    destruct (String.eqb r "E").
    + intros [= <-]. exists [Examples.marker "F"; "create e;"], "F".
      vm_compute. repeat split; tauto.
    + destruct (String.eqb r "F"); [|discriminate].
      intros [= <-]. exists [Examples.marker "E"; "create f;"], "E".
      vm_compute. repeat split; tauto.
Defined.




(** C3. Each migration is applied by one transaction that either commits
    as a whole (the forward script has run, [revision] has gained exactly
    the row of the migration and [dependent_revision] exactly one row per
    declared predecessor) or raises and leaves the database untouched.  A
    run of the apply loop, however it ends, leaves exactly the rows and
    script effects of the transactions it committed, in order; it starts
    at most one further transaction, the failing one, which is the last
    thing it does. *)
Theorem apply_transactions_are_atomic_and_durable :
  forall (U : Type) (env : Environment U) (fuel : nat)
         (revision_to_file : Dict.t string) (frontier : list string)
         (p : Dict.t (list string * list string)) (w : World U),
    (forall r command entry,
        let '(o, w') := begin (apply_transaction env r command entry) w in
        (o = Returned /\
         execute env command (store (db w)) = Some (store (db w')) /\
         revision (ledger_of w') = revision (ledger_of w) ++ [r] /\
         exists declared outstanding,
           entry = Some (declared, outstanding) /\
           dependent_revision (ledger_of w')
           = dependent_revision (ledger_of w)
             ++ map (fun parent => (parent, r)) declared)
        \/ ((exists e, o = Raised e) /\ w' = w)) /\
    let '(o, (_, w'), rounds) :=
      _apply_revisions_to_database env fuel revision_to_file frontier (p, w) in
    let done := concat rounds in
    revision (ledger_of w') = revision (ledger_of w) ++ done /\
    dependent_revision (ledger_of w')
    = dependent_revision (ledger_of w) ++ flat_map (edges_of p) done /\
    fold_left (forward_effect env revision_to_file) done (Some (store (db w)))
    = Some (store (db w')) /\
    (stdout w' = stdout w ++ applied_messages done \/
     exists r, (exists e, o = Raised e) /\
       stdout w' = stdout w ++ applied_messages done ++ [MsgApplying r]).
Proof.
  intros U env fuel revision_to_file frontier p w. split.
  - intros r command entry. unfold begin.
    destruct (apply_transaction env r command entry (db w)) as [e|d] eqn:Htx.
    + right. eauto.
    + left. apply apply_transaction_spec in Htx.
      destruct Htx as (declared & outstanding & -> & Hexec & Hrev & Hdep & _).
      unfold ledger_of. simpl. repeat split; try assumption. eauto.
  - destruct (_apply_revisions_to_database env fuel revision_to_file frontier (p, w))
      as [[o [p' w']] rounds] eqn:Hloop.
    apply loop_spec in Hloop.
    destruct Hloop as (s & Hsched & Hstop & (Hrev & Hdep & Hstore & Hkeys & Hnew) & Hout).
    cbv zeta. repeat split; try assumption.
    destruct Hout as [Hout|(r & -> & Hout)]; [now left|].
    right. exists r. split; assumption.
Qed.

(** C4. Whatever the catalog, and whatever the ledger before (its foreign
    keys holding): after apply has run, however it ended, any sequence of
    rollbacks of revisions that run applied, taken in any order, each of
    which returns, and after which none of the applied revisions is left in
    [revision], brings both ledger tables back to exactly what they were
    before apply. *)
Theorem apply_then_full_rollback_restores_the_ledger :
  forall (U : Type) (env : Environment U) (fuel fuel' : nat)
         (w0 w1 w2 : World U) (o : outcome) (rounds : list (list string))
         (targets : list string),
    foreign_keys (ledger_of w0) ->
    apply_migrations env fuel w0 = (o, w1, rounds) ->
    (forall t, In t targets -> In t (concat rounds)) ->
    remove_migrations env fuel' targets w1 = (Returned, w2) ->
    (forall r, In r (concat rounds) -> ~ In r (revision (ledger_of w2))) ->
    ledger_of w2 = ledger_of w0.
Proof.
  intros U env fuel fuel' w0 w1 w2 o rounds targets Hfk Happly Htargets Hdown Hgone.
  apply apply_migrations_effect in Happly. destruct Happly as [p Heff].
  unfold remove_migrations in Hdown.
  apply (@for_each_returned_without _ env fuel'
           (@remove_migration_returned_without _ env fuel')) in Hdown.
  destruct Hdown as (removed & Hl & _ & Hreach).
  rewrite Hl. apply without_applied with (1 := Heff); [assumption|].
  intros r. split.
  - intros Hr. destruct (Hreach r Hr) as (d & Hd & [->|Hct]).
    + now apply Htargets.
    + apply (below_applied Heff Hfk Hct). now apply Htargets.
  - intros Hr. destruct (Str.mem r removed) eqn:Hmem; [now apply mem_In|].
    exfalso. apply (Hgone r Hr). rewrite Hl. simpl. apply filter_In.
    destruct Heff as (Hrev & _). rewrite Hrev. split.
    + apply in_or_app. now right.
    + now rewrite Hmem.
Qed.

Lemma apply_then_full_rollback_restores_the_ledger_witness :
  exists w1 w2 rounds,
    apply_migrations Examples.diamond 5 (Examples.world_of Examples.empty_ledger)
    = (Returned, w1, rounds) /\
    concat rounds = ["A"; "B"; "C"; "D"] /\
    remove_migrations Examples.diamond 5 ["C"; "B"; "A"] w1 = (Returned, w2) /\
    ledger_of w2 = Examples.empty_ledger.
Proof.
  destruct (apply_migrations Examples.diamond 5
              (Examples.world_of Examples.empty_ledger))
    as [[o w1] rounds] eqn:Happly.
  destruct (remove_migrations Examples.diamond 5 ["C"; "B"; "A"] w1)
    as [o' w2] eqn:Hdown.
  assert (Hfacts : o = Returned /\ concat rounds = ["A"; "B"; "C"; "D"] /\
                   o' = Returned /\ revision (ledger_of w2) = []).
  { revert Hdown. injection Happly as <- <- <-. intros Hdown.
    injection Hdown as <- <-. vm_compute. repeat split. }
  destruct Hfacts as (-> & Hrounds & -> & Hrev).
  exists w1, w2, rounds. repeat split; try assumption.
  apply (@apply_then_full_rollback_restores_the_ledger _ Examples.diamond 5 5
           (Examples.world_of Examples.empty_ledger) w1 w2 Returned rounds
           ["C"; "B"; "A"]).
  - intros a b Hin. simpl in Hin. contradiction.
  - exact Happly.
  - rewrite Hrounds. simpl. tauto.
  - exact Hdown.
  - intros r _. rewrite Hrev. simpl. tauto.
Defined.

(** C5. When rollback of X returns, the ledger has no row for X and no
    edge with X as parent or as dependent.  Throughout the cascade, after
    every committed transaction, each recorded edge joins two revisions
    that are both still in the ledger (no edge points at a removed revision),
    and the database never has to refuse the deletion of a revision because
    an edge still depends on it. *)
Theorem rollback_clears_the_target_and_never_dangles :
  forall (U : Type) (env : Environment U) (fuel : nat) (x : string) (w : World U),
    let '(o, w') := remove_migration env fuel x w in
    (o = Returned ->
     ~ In x (revision (ledger_of w')) /\
     forall a b, In (a, b) (dependent_revision (ledger_of w')) -> a <> x /\ b <> x) /\
    (foreign_keys (ledger_of w) -> Forall foreign_keys (commits w) ->
     foreign_keys (ledger_of w') /\ Forall foreign_keys (commits w')) /\
    o <> Raised IntegrityError.
Proof.
  intros U env fuel x w.
  pose proof (remove_migration_keeps_foreign_keys env fuel x w) as Hfk.
  pose proof (remove_migration_never_refused env fuel x w) as Hnever.
  destruct (remove_migration env fuel x w) as [o w'] eqn:Hrun. simpl in *.
  split; [|split; [exact Hfk | exact Hnever]].
  intros ->. now apply remove_migration_returned_free in Hrun.
Qed.

Lemma rollback_clears_the_target_and_never_dangles_witness :
  let '(o, w') :=
    remove_migration Examples.diamond 5 "A"
      (Examples.world_of Examples.diamond_ledger) in
  o = Returned /\
  ~ In "A" (revision (ledger_of w')) /\
  foreign_keys (ledger_of w') /\ Forall foreign_keys (commits w').
Proof.
  generalize (@rollback_clears_the_target_and_never_dangles _ Examples.diamond 5 "A"
                (Examples.world_of Examples.diamond_ledger)).
  destruct (remove_migration Examples.diamond 5 "A"
              (Examples.world_of Examples.diamond_ledger)) as [o w'] eqn:Hrun.
  assert (Ho : o = Returned).
  { apply (f_equal fst) in Hrun. vm_compute in Hrun. congruence. }
  intros (Hclear & Hkeys & _).
  destruct (Hclear Ho) as [Hrow _].
  destruct (Hkeys diamond_ledger_foreign_keys (Forall_nil _)) as [Hfk Hall].
  split; [exact Ho|]. split; [exact Hrow|]. split; assumption.
Defined.

(** C6, as stated, fails: A is on disk but was never applied, and rollback
    of A runs its reverse script against the database and reports success. *)
Lemma reverse_script_runs_for_a_revision_never_applied :
  let '(o, w') :=
    remove_migration Examples.single 1 "A"
      (Examples.world_of Examples.empty_ledger) in
  o = Returned /\
  store (db w') = ["drop a;"] /\
  stdout w' = [MsgUndoing "A"; MsgDone].
Proof. vm_compute. repeat split. Qed.

(** C6, amended.  Rollback of a target that is not in [revision] (the
    foreign keys holding) makes no recursive call and leaves both ledger
    tables as they were.  It does not check that the target was applied:
    when the reverse script file is missing it raises, otherwise it runs
    the reverse script, and returns normally if the script succeeds. *)
Theorem rollback_of_an_unapplied_target :
  forall (U : Type) (env : Environment U) (fuel : nat) (x : string) (w : World U),
    ~ In x (revision (ledger_of w)) ->
    foreign_keys (ledger_of w) ->
    let '(o, w') := remove_migration env (S fuel) x w in
    ledger_of w' = ledger_of w /\
    match open_file env (file_to_apply env x) with
    | None => o = Raised FileNotFoundError /\ db w' = db w
    | Some lines =>
        match execute env (read lines) (store (db w)) with
        | Some u => o = Returned /\ store (db w') = u
        | None => o = Raised ScriptError /\ db w' = db w
        end
    end.
Proof.
  intros U env fuel x w Hnew Hfk.
  assert (Hnone : FIND_DEPENDENT_REVISIONS x (ledger (db w)) = []).
  { destruct (FIND_DEPENDENT_REVISIONS x (ledger (db w))) as [|d ds] eqn:E;
      [reflexivity|].
    assert (Hin : In d (FIND_DEPENDENT_REVISIONS x (ledger (db w))))
      by (rewrite E; now left).
    apply in_dependents in Hin. apply Hfk in Hin. now destruct Hin. }
  simpl. rewrite Hnone. simpl.
  assert (Hsame : without [x] (ledger_of w) = ledger_of w).
  { unfold without. destruct (ledger_of w) as [rs es] eqn:El. simpl in *.
    f_equal; apply forallb_filter_id; apply forallb_forall.
    - intros r Hr. simpl. rewrite orb_false_r. apply negb_true_iff.
      apply String.eqb_neq. intros ->. contradiction.
    - intros [a b] He. simpl. rewrite orb_false_r. apply negb_true_iff.
      apply String.eqb_neq. intros ->.
      destruct (Hfk a x) as [_ Hx]; [exact He | contradiction]. }
  rewrite without_one in Hsame.
  assert (Hfree : existsb (fun e => String.eqb (fst e) x || String.eqb (snd e) x)
                    (filter (fun e => negb (String.eqb (snd e) x))
                       (dependent_revision (ledger (db w)))) = false).
  { destruct (existsb _ _) eqn:Hex; [|reflexivity].
    apply existsb_exists in Hex. destruct Hex as ([a b] & Hin & Hor).
    apply filter_In in Hin. destruct Hin as [Hin Hb]. simpl in *.
    destruct (Hfk a b Hin) as [Ha Hb'].
    apply orb_true_iff in Hor. rewrite !String.eqb_eq in Hor.
    destruct Hor as [->| ->]; contradiction. }
  unfold undo.
  destruct (open_file env (file_to_apply env x)) as [lines|]; [|now split].
  unfold begin, remove_transaction. simpl.
  destruct (execute env (read lines) (store (db w))) as [u|]; [|now split].
  unfold bind, DELETE_DEPENDENT_REVISION_TEMPLATE, DELETE_REVISION_TEMPLATE.
  simpl. rewrite Hfree. simpl. split; [|now split].
  unfold ledger_of in *. simpl. exact Hsame.
Qed.

Lemma rollback_of_an_unapplied_target_witness :
  let '(o, w') :=
    remove_migration Examples.single 1 "A"
      (Examples.world_of Examples.empty_ledger) in
  ledger_of w' = Examples.empty_ledger /\
  o = Returned /\ store (db w') = ["drop a;"].
Proof.
  apply (@rollback_of_an_unapplied_target _ Examples.single 0 "A"
           (Examples.world_of Examples.empty_ledger)).
  - simpl. tauto.
  - intros a b Hin. simpl in Hin. contradiction.
Defined.

(** C7, as stated, fails: the ledger lists X, for which no file exists,
    and apply neither raises nor exits; it applies A and returns. *)
Lemma stranger_in_the_ledger_is_not_an_error :
  Dict.keys (catalog Examples.single) = ["A"] /\
  let '(o, w', rounds) :=
    apply_migrations Examples.single 3
      (Examples.world_of Examples.ledger_with_stranger) in
  o = Returned /\
  revision (ledger_of w') = ["X"; "A"] /\
  rounds = [["A"]].
Proof. vm_compute. repeat split. Qed.

(** C7, amended.  Apply does not require the applied identifiers to be
    catalog identifiers: line 146 skips an applied identifier that has no
    file.  Whatever the ledger lists, the pending revisions are exactly the
    catalog identifiers that are not applied, each with its catalog file. *)
Theorem applied_revisions_outside_the_catalog_are_skipped :
  forall (U : Type) (env : Environment U) (applied : list string),
    Dict.keys (pending_files env applied)
    = filter (fun r => negb (Str.mem r applied)) (Dict.keys (catalog env)) /\
    forall r,
      Dict.get r (pending_files env applied)
      = if Str.mem r applied then None else Dict.get r (catalog env).
Proof.
  intros U env applied. split.
  - apply keys_remove_applied.
  - intros r. apply get_remove_applied.
Qed.

(** C8, as stated, fails: [x.sql] and [x.sql.sql] both give the identifier
    [x]; the catalog is built with one entry, the second file shadowing the
    first, and apply runs the second script and returns. *)
Lemma files_sharing_an_identifier_shadow_each_other :
  map (revision_of_filename (migrations_directory Examples.shadowed))
      [Examples.up "x"; Examples.up "x.sql"] = ["x"; "x"] /\
  catalog Examples.shadowed = [("x", Examples.up "x.sql")] /\
  let '(o, w', rounds) :=
    apply_migrations Examples.shadowed 3
      (Examples.world_of Examples.empty_ledger) in
  o = Returned /\
  revision (ledger_of w') = ["x"] /\
  store (db w') = ["create second;"].
Proof. vm_compute. repeat split. Qed.

(** C8, amended.  Building the catalog never fails and never reports a
    duplicate: its identifiers are pairwise distinct, and an identifier is
    bound to the last discovered file that yields it. *)
Theorem catalog_keeps_the_last_file_of_an_identifier :
  forall (U : Type) (env : Environment U),
    NoDup (Dict.keys (catalog env)) /\
    forall r,
      Dict.get r (catalog env)
      = find (fun filename =>
                String.eqb r (revision_of_filename (migrations_directory env) filename))
             (rev (glob env (String.append (migrations_directory env) "*.sql"))).
Proof.
  intros U env. split.
  - apply NoDup_catalog.
  - intros r. unfold catalog, build_revision_to_file.
    rewrite get_fold_set. simpl. now destruct (find _ _).
Qed.

(** C9, as stated, fails in its second half: in the ledger where B and C
    record each other and A stands alone, the recorded edges are not
    acyclic, yet rollback of A ends at once: it has no dependent, its
    reverse script runs, and the call returns. *)
Lemma rollback_beside_a_cycle_returns :
  ~ acyclic (recorded_edge Examples.loop_aside) /\
  let '(o, w') :=
    remove_migration Examples.single 1 "A" (Examples.world_of Examples.loop_aside) in
  o = Returned /\
  revision (ledger_of w') = ["B"; "C"] /\
  stdout w' = [MsgUndoing "A"; MsgDone].
Proof.
  split.
  - intros Hacyclic. apply (Hacyclic "B").
    apply t_trans with "C"; apply t_step; unfold recorded_edge; simpl; tauto.
  - vm_compute. repeat split.
Qed.

(** C9, amended.  Rollback of a target ends whenever no cycle of recorded
    edges can be reached from the target, in particular on every ledger
    whose recorded edges are acyclic: a recursion depth of one more than
    the number of recorded edges is then always enough, whatever the
    scripts do.  A cycle elsewhere in the ledger changes nothing.  When a
    cycle can be reached from the target, rollback never returns: it stops
    only if a reverse script of the target or of a revision below it is
    missing or fails, and when all of these are there and succeed the
    recursion exhausts every depth. *)
Theorem rollback_terminates_on_acyclic_ledgers :
  forall (U : Type) (env : Environment U),
    (forall (x : string) (w : World U),
        acyclic (recorded_edge (ledger_of w)) ->
        forall fuel,
          length (dependent_revision (ledger_of w)) < fuel ->
          fst (remove_migration env fuel x w) <> OutOfFuel) /\
    (forall (x : string) (w : World U),
        ~ above_a_cycle (ledger_of w) x ->
        forall fuel,
          length (dependent_revision (ledger_of w)) < fuel ->
          fst (remove_migration env fuel x w) <> OutOfFuel) /\
    (forall (x : string) (w : World U),
        above_a_cycle (ledger_of w) x ->
        forall fuel, fst (remove_migration env fuel x w) <> Returned) /\
    (forall (x : string) (w : World U),
        above_a_cycle (ledger_of w) x ->
        (forall y, at_or_below (ledger_of w) x y ->
                   exists lines,
                     open_file env (file_to_apply env y) = Some lines /\
                     forall u, execute env (read lines) u <> None) ->
        forall fuel, fst (remove_migration env fuel x w) = OutOfFuel).
Proof.
  intros U env.
  assert (Hends : forall (x : string) (w : World U),
             ~ above_a_cycle (ledger_of w) x ->
             forall fuel,
               length (dependent_revision (ledger_of w)) < fuel ->
               fst (remove_migration env fuel x w) <> OutOfFuel).
  { intros x w Hnone fuel Hfuel Hout.
    apply out_of_fuel_chain in Hout.
    destruct Hout as (path & Hlen & Hchain & Hincl).
    pose proof Hchain as Hfrom.
    change (x :: path) with ([x] ++ path) in Hchain.
    apply chain_app_r in Hchain.
    destruct (@long_chain_meets_a_cycle string (recorded_edge (ledger_of w)) string_dec
                path (map snd (dependent_revision (ledger_of w))) Hchain Hincl)
      as (a & Ha & Hcycle).
    - rewrite length_map. lia.
    - apply Hnone. exists a. split; [|exact Hcycle].
      right. now apply chain_reaches with path. }
  split; [|split; [exact Hends|split]].
  - intros x w Hacyclic. apply Hends. intros (c & _ & Hcc). exact (Hacyclic c Hcc).
  - intros x w Habove fuel. now apply remove_migration_above_a_cycle.
  - intros x w Habove Hscripts fuel.
    pose proof (remove_migration_above_a_cycle env fuel w Habove) as Hnot.
    destruct (remove_migration_ends env fuel x w)
      as [H|[H|(y & Hy & [[_ Hmissing]|[_ (lines & u & Hopen & Hfail)]])]];
      [contradiction | exact H | |]; exfalso;
      destruct (Hscripts y Hy) as (lines' & Hopen' & Hok).
    + congruence.
    + rewrite Hopen in Hopen'. injection Hopen' as <-. exact (Hok u Hfail).
Qed.

Lemma recorded_path_ends_at_a_dependent (l : Ledger) (a b : string) :
  clos_trans string (recorded_edge l) a b ->
  In b (map snd (dependent_revision l)).
Proof.
  induction 1 as [a b Hab|a b c _ _ _ IH]; [|exact IH].
  apply in_map_iff. exists (a, b). now split.
Qed.

Lemma rollback_terminates_on_acyclic_ledgers_witness :
  fst (remove_migration Examples.diamond 5 "A"
         (Examples.world_of Examples.diamond_ledger)) <> OutOfFuel /\
  forall fuel,
    fst (remove_migration Examples.diamond fuel "A"
           (Examples.world_of Examples.looping_ledger)) = OutOfFuel.
Proof.
  destruct (@rollback_terminates_on_acyclic_ledgers _ Examples.diamond)
    as (Hacyclic & _ & _ & Hloops).
  split.
  - apply Hacyclic; [exact diamond_ledger_acyclic | simpl; lia].
  - apply Hloops.
    + exists "A". split; [now left|].
      apply t_trans with "B"; apply t_step; unfold recorded_edge; simpl; tauto.
    + intros y Hy.
      assert (Hcases : y = "A" \/ y = "B").
      { destruct Hy as [->|Hy]; [now left|].
        apply recorded_path_ends_at_a_dependent in Hy. simpl in Hy.
        destruct Hy as [<-|[<-|[]]]; [now right | now left]. }
      destruct Hcases as [-> | ->].
      * exists ["drop a;"]. split; [reflexivity|]. intros u. discriminate.
      * exists ["drop b;"]. split; [reflexivity|]. intros u. discriminate.
Defined.

(** C10, as stated, fails: B names A twice and A is pending, but A waits for
    Q, which is neither on disk nor applied; nothing is eligible, and apply
    does not report success: it exits with status 1 after the "invalid
    dependencies" message. *)
Lemma repeated_marker_with_nothing_eligible_exits_with_an_error :
  pending_predecessors Examples.repeated_marker_blocked []
  = inr [("A", (["Q"], ["Q"])); ("B", (["A"; "A"], ["A"; "A"]))] /\
  let '(o, w', rounds) :=
    apply_migrations Examples.repeated_marker_blocked 3
      (Examples.world_of Examples.empty_ledger) in
  o = Exit 1 /\
  stdout w' = [MsgFinding; MsgFound 0; MsgToApply 2; MsgInvalidDependencies].
Proof. vm_compute. repeat split. Qed.

(** C10, amended.  Let the forward script of a pending migration M contain
    the same predecessor marker line twice, naming a pending revision.
    Then apply terminates (as many passes as there are pending migrations
    suffice); M, and every revision that waits for M directly or through
    others, is never applied, never gets a row in [revision] and is never
    mentioned in the output; and the run returns normally, reporting
    success, whenever some pending migration is eligible at the start and
    no transaction of the run raises. *)
Theorem repeated_marker_is_never_applied :
  forall (U : Type) (env : Environment U) (fuel : nat) (w : World U)
         (p0 : Dict.t (list string * list string))
         (M file line : string) (pre mid post : list string),
    let applied := revision (ledger_of w) in
    pending_predecessors env applied = inr p0 ->
    Dict.get M (pending_files env applied) = Some file ->
    open_file env file = Some (pre ++ line :: mid ++ line :: post) ->
    Str.startswith line PREDECESSOR_MARKER = true ->
    In (predecessor_of_line line) (Dict.keys p0) ->
    length p0 <= fuel ->
    let '(o, w', rounds) := apply_migrations env fuel w in
    o <> OutOfFuel /\
    (forall n,
        held_back p0 M n ->
        ~ In n (concat rounds) /\
        ~ In n (revision (ledger_of w')) /\
        (In (MsgApplying n) (stdout w') -> In (MsgApplying n) (stdout w))) /\
    (revisions_with_no_outstanding_predecessors p0 <> [] ->
     (forall e, o <> Raised e) -> o = Returned).
Proof.
  intros U env fuel w p0 M file line pre mid post applied
         Hp0 Hfile Hopen Hmark Hpending Hfuel.
  set (Pd := predecessor_of_line line) in *.
  set (lines := pre ++ line :: mid ++ line :: post) in *.
  pose proof (@NoDup_pending_predecessors _ env applied p0 Hp0) as Hnd0.
  pose proof (@pending_entry_of_file _ env applied p0 Hp0 M file lines Hfile Hopen)
    as HM.
  assert (HMkey : In M (Dict.keys p0)) by (apply DictFacts.get_keys; eauto).
  assert (Hnew : forall n, held_back p0 M n -> ~ In n applied).
  { intros n Hn. apply (@pending_key_not_applied _ env applied p0 Hp0).
    now apply held_back_pending with M. }
  (* the invariant holds when the loop starts *)
  assert (Hstart : blocked p0 M Pd p0).
  { split.
    - exists (declared_in lines), (outstanding_in applied lines).
      assert (Hcount : 2 <= count_occ string_dec (outstanding_in applied lines) Pd).
      { unfold outstanding_in. rewrite count_filter_kept.
        - now apply declared_twice.
        - apply negb_true_iff. apply mem_not_In.
          now apply (@pending_key_not_applied _ env applied p0 Hp0). }
      split; [assumption|]. split; [|intros _; assumption].
      apply (count_occ_In string_dec). lia.
    - intros n Hn Hne. destruct (held_back_next Hn Hne) as (x & Hwait & Hx).
      destruct (@waits_for_outstanding _ env applied p0 Hp0 n x Hwait)
        as (d & o & Hget & Hin).
      exists d, o, x. now repeat split. }
  destruct (apply_migrations env fuel w) as [[o w'] rounds] eqn:Hrun.
  destruct (apply_migrations_effect env fuel w Hrun) as [p (Hrev & _)].
  destruct (@apply_migrations_cases _ env fuel w p0 _ _ _ Hp0 Hrun)
    as [(-> & Hend & Hout)|(Hfront & Hfuel' & p' & s & Hsched & Hstop & Hout)].
  - split; [destruct Hend as [[-> _]|[-> _]]; discriminate|]. split.
    + intros n Hn. split; [simpl; tauto|]. split; [|apply Hout].
      rewrite Hrev. simpl. rewrite app_nil_r. now apply Hnew.
    + intros Hfront _. destruct Hend as [[-> _]|(_ & _ & Hnone)];
        [reflexivity | contradiction].
  - destruct (@schedule_invariant (blocked p0 M Pd) (fun r => ~ held_back p0 M r)
                (@blocked_step p0 M Pd) (@blocked_eligible p0 M Pd)
                _ _ _ _ _ Hsched Hstart Hnd0) as [Hnever Hfailed].
    { now apply blocked_eligible with (Pd := Pd). }
    { now apply NoDup_frontier. }
    { apply frontier_incl. }
    rewrite Forall_forall in Hnever.
    split; [now apply Hfuel'|]. split.
    + intros n Hn.
      assert (Hnot : ~ In n (concat rounds)) by (intros Hin; now apply (Hnever n Hin)).
      split; [assumption|]. split.
      * rewrite Hrev. intros Hin. apply in_app_or in Hin.
        destruct Hin as [Hin|Hin]; [now apply (Hnew n Hn) | contradiction].
      * intros Hin. destruct (Hout n Hin) as [H|[H|H]];
          [assumption | contradiction | now apply (Hfailed n H) in Hn].
    + intros _ Hraise. destruct s; simpl in Hstop.
      * assumption.
      * destruct Hstop as [e ->]. now contradiction (Hraise e).
      * now apply Hfuel' in Hstop.
Qed.

Lemma repeated_marker_is_never_applied_witness :
  let '(o, w', rounds) :=
    apply_migrations Examples.repeated_marker 3
      (Examples.world_of Examples.empty_ledger) in
  o <> OutOfFuel /\
  (forall n,
      held_back Examples.repeated_marker_predecessors "B" n ->
      ~ In n (concat rounds) /\
      ~ In n (revision (ledger_of w')) /\
      (In (MsgApplying n) (stdout w') -> In (MsgApplying n) [])) /\
  (revisions_with_no_outstanding_predecessors Examples.repeated_marker_predecessors
   <> [] ->
   (forall e, o <> Raised e) -> o = Returned).
Proof.
  apply (@repeated_marker_is_never_applied _ Examples.repeated_marker 3
           (Examples.world_of Examples.empty_ledger)
           Examples.repeated_marker_predecessors
           "B" (Examples.up "B") (Examples.marker "A") [] [] ["create b;"]).
  - vm_compute. reflexivity.
  - vm_compute. reflexivity.
  - vm_compute. reflexivity.
  - vm_compute. reflexivity.
  - vm_compute. tauto.
  - simpl. lia.
Defined.


(** * Further properties of the program *)

(** ** Apply: what a run applies *)

Section ApplyRuns.

Context {U : Type}.
Variable env : Environment U.

Implicit Types (w : World U).

Lemma pending_in_catalog applied r :
  In r (Dict.keys (pending_files env applied)) <->
  In r (Dict.keys (catalog env)) /\ ~ In r applied.
Proof.
  unfold pending_files. fold (catalog env). rewrite keys_remove_applied, filter_In.
  rewrite negb_true_iff, mem_not_In. tauto.
Qed.

Lemma keys_nil (V : Type) (d : Dict.t V) : Dict.keys d = [] -> d = [].
Proof. destruct d; [reflexivity | discriminate]. Qed.

Lemma nothing_pending applied :
  (forall r, In r (Dict.keys (catalog env)) -> In r applied) ->
  pending_files env applied = [].
Proof.
  intros Hall. apply keys_nil.
  destruct (Dict.keys (pending_files env applied)) as [|r rs] eqn:E; [reflexivity|].
  assert (Hin : In r (Dict.keys (pending_files env applied))) by (rewrite E; now left).
  apply pending_in_catalog in Hin. destruct Hin as [Hc Hn].
  exfalso. apply Hn. now apply Hall.
Qed.

End ApplyRuns.

(** ** Statements *)

(** X1. When every identifier of the catalog is already in the ledger (an
    empty catalog included), apply announces that all revisions have been
    applied and returns: no file is read, no transaction is started and the
    database is left as it was (lines 149-152). *)
Theorem apply_with_nothing_pending_changes_nothing :
  forall (U : Type) (env : Environment U) (fuel : nat) (w : World U),
    (forall r, In r (Dict.keys (catalog env)) -> In r (revision (ledger_of w))) ->
    apply_migrations env fuel w
    = (Returned,
       {| db := db w;
          stdout := stdout w ++ [MsgFinding;
                                 MsgFound (length (revision (ledger_of w)));
                                 MsgAllApplied];
          commits := commits w |},
       []).
Proof.
  intros U env fuel w Hall.
  rewrite apply_migrations_unfold. cbv zeta.
  rewrite (nothing_pending env _ Hall). unfold print. simpl.
  now rewrite <- !app_assoc.
Qed.

Lemma apply_with_nothing_pending_changes_nothing_witness :
  apply_migrations Examples.diamond 0 (Examples.world_of Examples.diamond_ledger)
  = (Returned,
     {| db := {| ledger := Examples.diamond_ledger; store := [] |};
        stdout := [MsgFinding; MsgFound 4; MsgAllApplied];
        commits := [] |},
     []).
Proof.
  apply (@apply_with_nothing_pending_changes_nothing _ Examples.diamond 0
           (Examples.world_of Examples.diamond_ledger)).
  intros r Hr. vm_compute in Hr. vm_compute. tauto.
Defined.

(** X2. A run of apply, however it ends, applies no revision twice and
    applies only revisions that are in the catalog and were not in the
    ledger; the [revision] table gains exactly one row per applied
    revision, in the order of application. *)
Theorem apply_applies_each_pending_revision_at_most_once :
  forall (U : Type) (env : Environment U) (fuel : nat) (w : World U),
    let '(o, w', rounds) := apply_migrations env fuel w in
    NoDup (concat rounds) /\
    (forall r, In r (concat rounds) ->
               In r (Dict.keys (catalog env)) /\ ~ In r (revision (ledger_of w))) /\
    revision (ledger_of w') = revision (ledger_of w) ++ concat rounds.
Proof.
  intros U env fuel w. rewrite apply_migrations_unfold. cbv zeta.
  assert (Hnone : forall w' : World U,
             db w' = db w ->
             NoDup (concat (@nil (list string))) /\
             (forall r, In r (concat (@nil (list string))) ->
                        In r (Dict.keys (catalog env)) /\
                        ~ In r (revision (ledger_of w))) /\
             revision (ledger_of w') = revision (ledger_of w) ++ concat []).
  { intros w' Hdb. simpl. split; [constructor|]. split; [intros r []|].
    unfold ledger_of. now rewrite Hdb, app_nil_r. }
  destruct (pending_files env (revision (ledger_of w))) as [|item items] eqn:Hfiles.
  { now apply Hnone. }
  rewrite <- Hfiles.
  destruct (pending_predecessors env (revision (ledger_of w))) as [e|p0] eqn:Hp0.
  { now apply Hnone. }
  destruct (revisions_with_no_outstanding_predecessors p0) as [|r0 front] eqn:Hfront.
  { now apply Hnone. }
  rewrite <- Hfront.
  destruct (_apply_revisions_to_database env fuel _ _ _)
    as [[o1 [p1 w1]] rounds1] eqn:Hloop.
  pose proof (loop_applies_once _ _ _ _ _ _ Hloop) as Hnd.
  apply loop_spec in Hloop.
  destruct Hloop as (s & _ & _ & (Hrev & _ & _ & Hkeys & Hnew) & _).
  rewrite Forall_forall in Hkeys, Hnew. simpl.
  split; [assumption|]. split; [|exact Hrev].
  intros r Hr. split; [|now apply Hnew].
  destruct (pending_predecessors_spec env _ Hp0) as [Hk _].
  specialize (Hkeys r Hr). rewrite Hk in Hkeys.
  now apply pending_in_catalog in Hkeys.
Qed.

(** X3. A run of apply that has placed every pending revision in a round
    leaves nothing pending: apply run again on the resulting database
    announces that all revisions have been applied and changes nothing. *)
Theorem apply_after_a_complete_run_changes_nothing :
  forall (U : Type) (env : Environment U) (fuel fuel' : nat)
         (w w1 : World U) (o : outcome) (rounds : list (list string)),
    apply_migrations env fuel w = (o, w1, rounds) ->
    (forall r, In r (Dict.keys (pending_files env (revision (ledger_of w)))) ->
               In r (concat rounds)) ->
    apply_migrations env fuel' w1
    = (Returned,
       {| db := db w1;
          stdout := stdout w1 ++ [MsgFinding;
                                  MsgFound (length (revision (ledger_of w1)));
                                  MsgAllApplied];
          commits := commits w1 |},
       []).
Proof.
  intros U env fuel fuel' w w1 o rounds Hrun Hall.
  apply apply_with_nothing_pending_changes_nothing.
  intros r Hr.
  apply apply_migrations_effect in Hrun. destruct Hrun as [p (Hrev & _)].
  rewrite Hrev. apply in_or_app.
  destruct (Str.mem r (revision (ledger_of w))) eqn:Hmem.
  - left. now apply mem_In.
  - right. apply Hall. apply pending_in_catalog. split; [assumption|].
    now apply mem_not_In.
Qed.

Lemma apply_after_a_complete_run_changes_nothing_witness :
  exists w1 rounds,
    apply_migrations Examples.diamond 4 (Examples.world_of Examples.empty_ledger)
    = (Returned, w1, rounds) /\
    fst (apply_migrations Examples.diamond 0 w1) = (Returned, print MsgAllApplied
      (print (MsgFound 4) (print MsgFinding w1))).
Proof.
  destruct (apply_migrations Examples.diamond 4
              (Examples.world_of Examples.empty_ledger))
    as [[o w1] rounds] eqn:Hrun.
  assert (Hfacts : o = Returned /\ concat rounds = ["A"; "B"; "C"; "D"] /\
                   length (revision (ledger_of w1)) = 4).
  { injection Hrun as <- <- <-. vm_compute. repeat split. }
  destruct Hfacts as (-> & Hrounds & Hlen).
  exists w1, rounds. split; [reflexivity|].
  rewrite (@apply_after_a_complete_run_changes_nothing _ Examples.diamond 4 0
             (Examples.world_of Examples.empty_ledger) w1 Returned rounds Hrun).
  - simpl. rewrite Hlen. unfold print. simpl. now rewrite <- !app_assoc.
  - intros r Hr. rewrite Hrounds. vm_compute in Hr. simpl. tauto.
Defined.

(** ** Apply: the keys of the ledger *)

Section ApplyKeepsKeys.

Context {U : Type}.
Variable env : Environment U.
Variable revision_to_file : Dict.t string.

Implicit Types (p : predecessors) (w : World U).

Local Arguments apply_revision : simpl never.

Lemma insert_revision_well_formed r l l' :
  INSERT_REVISION_TEMPLATE r l = inr l' -> well_formed l -> well_formed l'.
Proof.
  unfold INSERT_REVISION_TEMPLATE.
  destruct (Str.mem r (revision l)) eqn:Hmem; [discriminate|].
  destruct (Nat.ltb 255 (String.length r)); [discriminate|].
  intros [= <-] [[Hrev Hdep] Hfk]. apply mem_not_In in Hmem.
  split; [split|]; simpl.
  - apply NoDup_app; [assumption | repeat constructor; simpl; tauto |].
    intros a Ha [<-|[]]. contradiction.
  - assumption.
  - intros a b Hin. destruct (Hfk a b Hin). split; apply in_or_app; now left.
Qed.

Lemma insert_dependent_well_formed a b l l' :
  INSERT_DEPENDENT_REVISION_TEMPLATE a b l = inr l' ->
  well_formed l -> well_formed l'.
Proof.
  unfold INSERT_DEPENDENT_REVISION_TEMPLATE.
  destruct (existsb _ _) eqn:Hdup; [discriminate|].
  destruct (Str.mem a (revision l) && Str.mem b (revision l)) eqn:Href;
    simpl; [|discriminate].
  intros [= <-] [[Hrev Hdep] Hfk].
  apply andb_true_iff in Href. destruct Href as [Ha Hb].
  apply mem_In in Ha. apply mem_In in Hb.
  split; [split|]; simpl.
  - assumption.
  - apply NoDup_app; [assumption | repeat constructor; simpl; tauto |].
    intros e He [<-|[]]. apply pair_mem_In in He. congruence.
  - intros x y Hin. apply in_app_or in Hin. destruct Hin as [Hin|[[= <- <-]|[]]].
    + now apply Hfk.
    + now split.
Qed.

Lemma insert_parents_well_formed declared r : forall l l',
  insert_parents declared r l = inr l' -> well_formed l -> well_formed l'.
Proof.
  induction declared as [|x declared IH]; intros l l'; simpl.
  - now intros [= <-].
  - unfold bind.
    destruct (INSERT_DEPENDENT_REVISION_TEMPLATE x r l) as [e|l1] eqn:Hone;
      [discriminate|].
    intros Hrest Hwf. apply (IH l1); [assumption|].
    eapply insert_dependent_well_formed; eassumption.
Qed.

Lemma apply_transaction_well_formed r command entry (d d' : Database U) :
  apply_transaction env r command entry d = inr d' ->
  well_formed (ledger d) -> well_formed (ledger d').
Proof.
  unfold apply_transaction.
  destruct (execute env command (store d)) as [u|]; [|discriminate].
  unfold bind at 1.
  destruct (INSERT_REVISION_TEMPLATE r (ledger d)) as [e|l1] eqn:Hrev; [discriminate|].
  destruct entry as [[declared outstanding]|]; [|discriminate].
  unfold bind.
  destruct (insert_parents declared r l1) as [e|l2] eqn:Hdep; [discriminate|].
  intros [= <-] Hwf. simpl.
  eapply insert_parents_well_formed; [eassumption|].
  eapply insert_revision_well_formed; eassumption.
Qed.

Lemma apply_revision_keeps_well_formed r p w :
  keeps_well_formed w (snd (snd (apply_revision env revision_to_file r (p, w)))).
Proof.
  unfold apply_revision.
  destruct (Dict.get r revision_to_file) as [file|]; [|now intros ? ?].
  destruct (open_file env file) as [lines|]; [|now intros ? ?].
  unfold begin. simpl.
  destruct (apply_transaction env r (read lines) (Dict.get r p) (db w))
    as [e|d] eqn:Htx; simpl.
  - now intros ? ?.
  - assert (Hkeep : forall w' : World U,
               ledger_of w' = ledger d ->
               commits w' = commits w ++ [ledger d] ->
               keeps_well_formed w w').
    { intros w' Hl Hc Hwf Hall. rewrite Hl, Hc.
      assert (Hwf' : well_formed (ledger d))
        by (eapply apply_transaction_well_formed; eassumption).
      split; [assumption|]. apply Forall_app. split; [assumption | now constructor]. }
    destruct (Dict.mem r p); simpl; now apply Hkeep.
Qed.

Lemma apply_round_keeps_well_formed F : forall p w,
  keeps_well_formed w (snd (snd (fst (apply_round env revision_to_file F (p, w))))).
Proof.
  induction F as [|r F IH]; intros p w; simpl; [now intros ? ?|].
  pose proof (apply_revision_keeps_well_formed r p w) as Hone.
  destruct (apply_revision env revision_to_file r (p, w)) as [o1 [p1 w1]].
  simpl in Hone.
  destruct o1; simpl; try assumption.
  specialize (IH p1 w1).
  destruct (apply_round env revision_to_file F (p1, w1)) as [[o2 [p2 w2]] done2].
  simpl in *. intros Hwf Hall. destruct (Hone Hwf Hall). now apply IH.
Qed.

Lemma loop_keeps_well_formed fuel : forall F p w,
  keeps_well_formed w
    (snd (snd (fst (_apply_revisions_to_database env fuel revision_to_file F (p, w))))).
Proof.
  induction fuel as [|fuel IH]; intros F p w; simpl; [now intros ? ?|].
  pose proof (apply_round_keeps_well_formed F p w) as Hround.
  destruct (apply_round env revision_to_file F (p, w)) as [[o1 [p1 w1]] done].
  simpl in Hround.
  destruct o1; simpl; try assumption.
  destruct (revisions_with_no_outstanding_predecessors p1) as [|n next];
    simpl; [assumption|].
  specialize (IH (n :: next) p1 w1).
  destruct (_apply_revisions_to_database env fuel revision_to_file (n :: next) (p1, w1))
    as [[o2 [p2 w2]] rounds2].
  simpl in *. intros Hwf Hall. destruct (Hround Hwf Hall). now apply IH.
Qed.

End ApplyKeepsKeys.

(** X4. Apply keeps the keys of the ledger: when the primary and foreign
    keys of both tables hold before a run, they hold after every
    transaction the run commits and in the database it leaves, however the
    run ends. *)
Theorem apply_keeps_the_ledger_well_formed :
  forall (U : Type) (env : Environment U) (fuel : nat) (w : World U),
    well_formed (ledger_of w) ->
    Forall well_formed (commits w) ->
    let '(o, w', rounds) := apply_migrations env fuel w in
    well_formed (ledger_of w') /\ Forall well_formed (commits w').
Proof.
  intros U env fuel w Hwf Hall. rewrite apply_migrations_unfold. cbv zeta.
  destruct (pending_files env (revision (ledger_of w))) as [|item items] eqn:Hfiles.
  { now split. }
  rewrite <- Hfiles.
  destruct (pending_predecessors env (revision (ledger_of w))) as [e|p0].
  { now split. }
  destruct (revisions_with_no_outstanding_predecessors p0) as [|r0 front] eqn:Hfront.
  { now split. }
  rewrite <- Hfront.
  pose proof (@loop_keeps_well_formed _ env
                (pending_files env (revision (ledger_of w))) fuel
                (revisions_with_no_outstanding_predecessors p0) p0
                (print (MsgToApply (length (pending_files env (revision (ledger_of w)))))
                   (print (MsgFound (length (revision (ledger_of w))))
                      (print MsgFinding w)))) as Hloop.
  destruct (_apply_revisions_to_database env fuel _ _ _) as [[o1 [p1 w1]] rounds1].
  simpl in *. now apply Hloop.
Qed.

Lemma apply_keeps_the_ledger_well_formed_witness :
  let '(o, w', rounds) :=
    apply_migrations Examples.diamond 4 (Examples.world_of Examples.empty_ledger) in
  well_formed (ledger_of w') /\ Forall well_formed (commits w').
Proof.
  apply (@apply_keeps_the_ledger_well_formed _ Examples.diamond 4
           (Examples.world_of Examples.empty_ledger)).
  - split; [split; constructor | intros a b []].
  - constructor.
Defined.




(** ** Rollback: what is removed and what is kept *)

Section RollbackExtent.

Context {U : Type}.
Variable env : Environment U.

Implicit Types (w : World U).

Lemma keeps_rows_of_refl x w : keeps_rows_of x w w.
Proof. now split. Qed.

Lemma keeps_rows_of_trans x w1 w2 w3 :
  keeps_rows_of x w1 w2 -> keeps_rows_of x w2 w3 -> keeps_rows_of x w1 w3.
Proof. intros [H1 H2] [H3 H4]. split; auto. Qed.

Lemma undo_keeps_rows_of x y w :
  open_file env (file_to_apply env x) = None ->
  keeps_rows_of x w (snd (undo env y w)).
Proof.
  intros Hmissing. pose proof (undo_spec env y w) as H.
  destruct (undo env y w) as [o w']. simpl.
  assert (Hsame : db w' = db w -> keeps_rows_of x w w').
  { intros E. unfold keeps_rows_of, ledger_of. rewrite E. now split. }
  destruct o; try (apply Hsame; tauto).
  destruct H as ((lines & Hopen & _) & Hl & _).
  assert (Hne : x <> y) by (intros ->; congruence).
  unfold keeps_rows_of. rewrite Hl. simpl. split.
  - intros Hin. apply filter_In. split; [assumption|]. simpl.
    rewrite orb_false_r. apply negb_true_iff. now apply String.eqb_neq.
  - intros a Hin. apply filter_In. split; [assumption|]. simpl.
    rewrite orb_false_r. apply negb_true_iff. now apply String.eqb_neq.
Qed.

Lemma remove_migration_needs_the_file fuel : forall x w,
  open_file env (file_to_apply env x) = None ->
  fst (remove_migration env fuel x w) <> Returned.
Proof.
  destruct fuel as [|fuel]; intros x w Hmissing; simpl; [discriminate|].
  destruct (for_each (remove_migration env fuel) _ w) as [o1 w1].
  destruct o1; simpl; try discriminate.
  pose proof (undo_spec env x w1) as H.
  destruct (undo env x w1) as [o w']. simpl. intros ->.
  destruct H as ((lines & Hopen & _) & _). congruence.
Qed.

End RollbackExtent.

(** X6. A revision whose reverse script is missing is never rolled back:
    rollback of it does not return normally, and, whatever was undone
    below it before the file was looked for, its row in [revision] and the
    edges that record its own predecessors are still there. *)
Theorem rollback_without_reverse_script_keeps_the_revision :
  forall (U : Type) (env : Environment U) (fuel : nat) (x : string) (w : World U),
    open_file env (file_to_apply env x) = None ->
    let '(o, w') := remove_migration env fuel x w in
    o <> Returned /\
    (In x (revision (ledger_of w)) -> In x (revision (ledger_of w'))) /\
    (forall a, In (a, x) (dependent_revision (ledger_of w)) ->
               In (a, x) (dependent_revision (ledger_of w'))).
Proof.
  intros U env fuel x w Hmissing.
  pose proof (@remove_migration_needs_the_file _ env fuel x w Hmissing) as Hnot.
  pose proof (@remove_migration_rule _ env (keeps_rows_of x)
                (@keeps_rows_of_refl _ x) (@keeps_rows_of_trans _ x)
                (fun y w0 => @undo_keeps_rows_of _ env x y w0 Hmissing) fuel x w)
    as Hkeep.
  destruct (remove_migration env fuel x w) as [o w']. simpl in *.
  split; [assumption | exact Hkeep].
Qed.

Lemma rollback_without_reverse_script_keeps_the_revision_witness :
  let '(o, w') :=
    remove_migration Examples.repeated_marker 3 "A"
      (Examples.world_of {| revision := ["A"]; dependent_revision := [] |}) in
  o <> Returned /\
  (In "A" ["A"] -> In "A" (revision (ledger_of w'))) /\
  (forall a, In (a, "A") [] -> In (a, "A") (dependent_revision (ledger_of w'))).
Proof.
  apply (@rollback_without_reverse_script_keeps_the_revision _
           Examples.repeated_marker 3 "A"
           (Examples.world_of {| revision := ["A"]; dependent_revision := [] |})).
  vm_compute. reflexivity.
Defined.


(** X7. Whatever its outcome, rollback of X deletes nothing but rows of X
    and of revisions below X along the recorded edges: every other row of
    [revision], and every edge whose dependent is such a revision, is still
    there.  When it returns, it has removed exactly those: a row of
    [revision] is left if and only if it was there and is neither X nor
    below X, and an edge is left if and only if it was there and its
    dependent is neither X nor below X. *)
Theorem rollback_removes_exactly_the_target_and_what_is_below :
  forall (U : Type) (env : Environment U) (fuel : nat) (x : string) (w : World U),
    let '(o, w') := remove_migration env fuel x w in
    (forall y, In y (revision (ledger_of w)) ->
               ~ at_or_below (ledger_of w) x y ->
               In y (revision (ledger_of w'))) /\
    (forall a b, In (a, b) (dependent_revision (ledger_of w)) ->
                 ~ at_or_below (ledger_of w) x b ->
                 In (a, b) (dependent_revision (ledger_of w'))) /\
    (o = Returned ->
     (forall y, In y (revision (ledger_of w')) <->
                In y (revision (ledger_of w)) /\ ~ at_or_below (ledger_of w) x y) /\
     (forall a b, In (a, b) (dependent_revision (ledger_of w')) <->
                  In (a, b) (dependent_revision (ledger_of w)) /\
                  ~ at_or_below (ledger_of w) x b)).
Proof.
  intros U env fuel x w.
  destruct (remove_migration_extent env fuel x w) as (S0 & Hl0 & Hb0).
  destruct (remove_migration env fuel x w) as [o w'] eqn:Hrun. simpl in Hl0.
  split; [|split].
  - intros y Hy Hnot. rewrite Hl0. simpl. apply filter_In. split; [assumption|].
    apply negb_true_iff. apply mem_not_In. intros Hin. apply Hnot. now apply Hb0.
  - intros a b Hedge Hnot. rewrite Hl0. simpl. apply filter_In. split; [assumption|].
    simpl. apply negb_true_iff. apply mem_not_In. intros Hin. apply Hnot. now apply Hb0.
  - intros ->. clear S0 Hl0 Hb0.
    destruct (remove_migration_extent env fuel x w) as (S0 & Hl0 & Hb0).
    rewrite Hrun in Hl0. simpl in Hl0.
    apply remove_migration_returned_closed in Hrun.
    destruct Hrun as (S1 & Hl1 & Hx & Hclosed).
    split.
    + intros y. split.
      * intros Hy. rewrite Hl1 in Hy. simpl in Hy. apply filter_In in Hy.
        destruct Hy as [Hy Hmem]. split; [assumption|].
        intros Hbelow. apply negb_true_iff in Hmem. apply mem_not_In in Hmem.
        apply Hmem. now apply closed_under_below with (ledger_of w) x.
      * intros [Hy Hnot]. rewrite Hl0. simpl. apply filter_In. split; [assumption|].
        apply negb_true_iff. apply mem_not_In. intros Hin. apply Hnot. now apply Hb0.
    + intros a b. split.
      * intros He. rewrite Hl1 in He. simpl in He. apply filter_In in He.
        destruct He as [He Hmem]. split; [assumption|]. simpl in Hmem.
        intros Hbelow. apply negb_true_iff in Hmem. apply mem_not_In in Hmem.
        apply Hmem. now apply closed_under_below with (ledger_of w) x.
      * intros [He Hnot]. rewrite Hl0. simpl. apply filter_In. split; [assumption|].
        simpl. apply negb_true_iff. apply mem_not_In. intros Hin. apply Hnot.
        now apply Hb0.
Qed.

Lemma diamond_below_is_deeper a b :
  clos_trans string (recorded_edge Examples.diamond_ledger) a b ->
  Examples.depth a < Examples.depth b.
Proof.
  induction 1 as [x y Hxy|x y z _ IH1 _ IH2]; [|lia].
  unfold recorded_edge in Hxy. simpl in Hxy.
  repeat destruct Hxy as [Hxy|Hxy];
    try (injection Hxy as <- <-; vm_compute; lia).
  contradiction.
Qed.

Lemma rollback_removes_exactly_the_target_and_what_is_below_witness :
  let '(o, w') :=
    remove_migration Examples.diamond 5 "B"
      (Examples.world_of Examples.diamond_ledger) in
  In "C" (revision (ledger_of w')) /\
  In ("A", "C") (dependent_revision (ledger_of w')).
Proof.
  generalize (@rollback_removes_exactly_the_target_and_what_is_below _
                Examples.diamond 5 "B" (Examples.world_of Examples.diamond_ledger)).
  destruct (remove_migration Examples.diamond 5 "B"
              (Examples.world_of Examples.diamond_ledger)) as [o w'].
  assert (Hnot : ~ at_or_below
                   (ledger_of (Examples.world_of Examples.diamond_ledger)) "B" "C").
  { intros [Heq|Hct]; [discriminate|].
    apply diamond_below_is_deeper in Hct. vm_compute in Hct. lia. }
  intros (Hrows & Hedges & _). split.
  - apply Hrows; [simpl; tauto | exact Hnot].
  - apply Hedges; [simpl; tauto | exact Hnot].
Defined.


(** ** Facts on strings *)

Module StrFacts.

Lemma append_nil_r s : String.append s EmptyString = s.
Proof. induction s as [|c s IH]; simpl; [reflexivity | now rewrite IH]. Qed.

Lemma append_assoc a b c :
  String.append (String.append a b) c = String.append a (String.append b c).
Proof. induction a as [|x a IH]; simpl; [reflexivity | now rewrite IH]. Qed.

Lemma length_append a b :
  String.length (String.append a b) = String.length a + String.length b.
Proof. induction a as [|x a IH]; simpl; [reflexivity | now rewrite IH]. Qed.

Lemma list_of_append a b :
  list_ascii_of_string (String.append a b)
  = list_ascii_of_string a ++ list_ascii_of_string b.
Proof. induction a as [|x a IH]; simpl; [reflexivity | now rewrite IH]. Qed.

Lemma string_of_app x y :
  string_of_list_ascii (x ++ y)
  = String.append (string_of_list_ascii x) (string_of_list_ascii y).
Proof. induction x as [|c x IH]; simpl; [reflexivity | now rewrite IH]. Qed.

Lemma occurs_append c a b :
  occurs c (String.append a b) <-> occurs c a \/ occurs c b.
Proof. unfold occurs. rewrite list_of_append. apply in_app_iff. Qed.

Lemma occurs_cons c x s : occurs c (String x s) <-> x = c \/ occurs c s.
Proof. reflexivity. Qed.

Lemma occurs_nil c : ~ occurs c EmptyString.
Proof. intros []. Qed.

Lemma prefix_append p s : String.prefix p (String.append p s) = true.
Proof.
  induction p as [|c p IH]; simpl.
  - now destruct s.
  - destruct (ascii_dec c c) as [_|Hne]; [exact IH | now elim Hne].
Qed.

Lemma prefix_occurs p s c :
  String.prefix p s = true -> occurs c p -> occurs c s.
Proof.
  revert s. induction p as [|x p IH]; intros s Hp Hc.
  - now apply occurs_nil in Hc.
  - destruct s as [|y s]; simpl in Hp; [discriminate|].
    destruct (ascii_dec x y) as [->|_]; [|discriminate].
    apply occurs_cons in Hc. apply occurs_cons.
    destruct Hc as [->|Hc]; [now left | right; now apply IH].
Qed.

Lemma prefix_other_head x p y s :
  x <> y -> String.prefix (String x p) (String y s) = false.
Proof. intros Hne. simpl. destruct (ascii_dec x y); [contradiction | reflexivity]. Qed.

(** A text without some character of [old] has no occurrence of [old]. *)
Lemma replace_absent old new c s :
  occurs c old -> ~ occurs c s -> Str.replace old new s = s.
Proof.
  intros Hold. unfold Str.replace.
  induction s as [|x s IH]; intros Hs; [reflexivity|].
  cbn [Str.replace_from].
  destruct (String.prefix old (String x s)) eqn:Hp.
  - elim Hs. now apply (@prefix_occurs old).
  - rewrite IH; [reflexivity|]. intros H. apply Hs. apply occurs_cons. now right.
Qed.

Lemma replace_from_skip old new a k s :
  Str.replace_from old new (String.length a + k) (String.append a s)
  = Str.replace_from old new k s.
Proof. induction a as [|x a IH]; simpl; [reflexivity | exact IH]. Qed.

(** An occurrence at the start is replaced and the scan goes on behind
    it. *)
Lemma replace_prefix old new s :
  old <> EmptyString ->
  Str.replace old new (String.append old s)
  = String.append new (Str.replace old new s).
Proof.
  intros Hne. unfold Str.replace.
  destruct old as [|x old]; [now elim Hne|].
  change (String.append (String x old) s) with (String x (String.append old s)).
  cbn [Str.replace_from].
  change (String x (String.append old s)) with (String.append (String x old) s).
  rewrite prefix_append. f_equal.
  cbn [String.length]. rewrite Nat.sub_1_r. cbn [Nat.pred].
  rewrite <- (Nat.add_0_r (String.length old)). apply replace_from_skip.
Qed.

(** A stretch without the first character of [old] is copied. *)
Lemma replace_past x old new a s :
  ~ occurs x a ->
  Str.replace (String x old) new (String.append a s)
  = String.append a (Str.replace (String x old) new s).
Proof.
  unfold Str.replace. induction a as [|y a IH]; intros Ha; [reflexivity|].
  change (String.append (String y a) s) with (String y (String.append a s)).
  cbn [Str.replace_from]. rewrite prefix_other_head.
  - cbn [String.append]. f_equal. apply IH.
    intros H. apply Ha. apply occurs_cons. now right.
  - intros ->. apply Ha. apply occurs_cons. now left.
Qed.

Lemma replace_self old new :
  old <> EmptyString -> Str.replace old new old = new.
Proof.
  intros Hne. rewrite <- (append_nil_r old) at 2.
  rewrite replace_prefix by assumption. apply append_nil_r.
Qed.

(** *** White space *)

Lemma blank_nil : blank EmptyString.
Proof. intros c []. Qed.

Lemma blank_cons c s : blank (String c s) <-> Str.isspace c = true /\ blank s.
Proof.
  split.
  - intros H. split; [apply H; now left | intros x Hx; apply H; now right].
  - intros [Hc Hs] x [<-|Hx]; [assumption | now apply Hs].
Qed.

Lemma unspaced_cons c s :
  unspaced (String c s) <-> Str.isspace c = false /\ unspaced s.
Proof.
  split.
  - intros H. split; [apply H; now left | intros x Hx; apply H; now right].
  - intros [Hc Hs] x [<-|Hx]; [assumption | now apply Hs].
Qed.

Lemma lstrip_blank ws s : blank ws -> Str.lstrip (String.append ws s) = Str.lstrip s.
Proof.
  induction ws as [|c ws IH]; intros Hb; [reflexivity|].
  apply blank_cons in Hb. destruct Hb as [Hc Hb].
  simpl. rewrite Hc. now apply IH.
Qed.

Lemma lstrip_all_blank ws : blank ws -> Str.lstrip ws = EmptyString.
Proof.
  intros Hb. rewrite <- (append_nil_r ws). now rewrite lstrip_blank.
Qed.

Lemma lstrip_before_blank s ws :
  blank ws ->
  Str.lstrip (String.append s ws)
  = match Str.lstrip s with
    | EmptyString => EmptyString
    | String c s' => String.append (String c s') ws
    end.
Proof.
  intros Hb. induction s as [|c s IH].
  - simpl. now apply lstrip_all_blank.
  - simpl. destruct (Str.isspace c); [exact IH | reflexivity].
Qed.

Lemma lstrip_unspaced s : unspaced s -> Str.lstrip s = s.
Proof.
  destruct s as [|c s]; intros H; [reflexivity|].
  apply unspaced_cons in H. simpl. now rewrite (proj1 H).
Qed.

Lemma reverse_append a b :
  Str.reverse (String.append a b)
  = String.append (Str.reverse b) (Str.reverse a).
Proof.
  unfold Str.reverse. now rewrite list_of_append, rev_app_distr, string_of_app.
Qed.

Lemma reverse_involutive s : Str.reverse (Str.reverse s) = s.
Proof.
  unfold Str.reverse.
  now rewrite list_ascii_of_string_of_list_ascii, rev_involutive,
    string_of_list_ascii_of_string.
Qed.

Lemma occurs_reverse c s : occurs c (Str.reverse s) <-> occurs c s.
Proof.
  unfold occurs, Str.reverse. rewrite list_ascii_of_string_of_list_ascii.
  symmetry. apply in_rev.
Qed.

Lemma blank_reverse s : blank s -> blank (Str.reverse s).
Proof. intros H c Hc. apply H. now apply occurs_reverse. Qed.

Lemma unspaced_reverse s : unspaced s -> unspaced (Str.reverse s).
Proof. intros H c Hc. apply H. now apply occurs_reverse. Qed.

(** White space around a text does not change what [strip] returns. *)
Lemma strip_padded ws1 s ws2 :
  blank ws1 -> blank ws2 ->
  Str.strip (String.append ws1 (String.append s ws2)) = Str.strip s.
Proof.
  intros H1 H2. unfold Str.strip.
  rewrite lstrip_blank by assumption.
  rewrite lstrip_before_blank by assumption.
  destruct (Str.lstrip s) as [|c s']; [reflexivity|].
  rewrite reverse_append. rewrite lstrip_blank; [reflexivity|].
  now apply blank_reverse.
Qed.

Lemma strip_after_blank ws s :
  blank ws -> Str.strip (String.append ws s) = Str.strip s.
Proof.
  intros H. rewrite <- (append_nil_r s) at 1.
  apply strip_padded; [exact H | apply blank_nil].
Qed.

Lemma strip_unspaced s : unspaced s -> Str.strip s = s.
Proof.
  intros H. unfold Str.strip.
  rewrite (lstrip_unspaced H).
  rewrite (lstrip_unspaced (unspaced_reverse H)).
  apply reverse_involutive.
Qed.

End StrFacts.


Section FileNames.
Variable U : Type.
Variable env : Environment U.

Lemma migrations_directory_has_slash :
  occurs "/"%char (migrations_directory env).
Proof.
  unfold migrations_directory. apply StrFacts.occurs_append. right.
  simpl. now left.
Qed.

Lemma migrations_directory_not_empty :
  migrations_directory env <> EmptyString.
Proof.
  intros H. pose proof migrations_directory_has_slash as Hs.
  rewrite H in Hs. exact (StrFacts.occurs_nil Hs).
Qed.

Lemma revision_of_up_path b :
  plain b -> revision_of_filename (migrations_directory env) (up_path env b) = b.
Proof.
  intros [Hslash Hdot]. unfold revision_of_filename, up_path.
  rewrite StrFacts.replace_prefix by apply migrations_directory_not_empty.
  cbn [String.append].
  rewrite (@StrFacts.replace_absent (migrations_directory env) EmptyString "/"%char).
  - rewrite StrFacts.replace_past by assumption.
    rewrite StrFacts.replace_self by discriminate.
    apply StrFacts.append_nil_r.
  - apply migrations_directory_has_slash.
  - intros H. apply StrFacts.occurs_append in H. destruct H as [H|H]; [now apply Hslash|].
    simpl in H. repeat (destruct H as [H|H]; [discriminate|]). exact H.
Qed.

Lemma catalog_of_plain_names r f :
  plainly_named env ->
  Dict.get r (catalog env) = Some f <->
  plain r /\
  In f (glob env (String.append (migrations_directory env) "*.sql")) /\
  f = up_path env r.
Proof.
  intros Hplain. unfold catalog, build_revision_to_file.
  rewrite get_fold_set. simpl.
  set (files := glob env _) in *.
  destruct (find _ (rev files)) as [g|] eqn:Hfind.
  - apply find_some in Hfind. destruct Hfind as [Hin Heq].
    apply in_rev in Hin. apply String.eqb_eq in Heq.
    destruct (Hplain g Hin) as [b [Hb ->]].
    rewrite revision_of_up_path in Heq by assumption. subst b.
    split.
    + intros [= <-]. split; [assumption|]. split; [assumption | reflexivity].
    + intros [_ [_ ->]]. reflexivity.
  - split; [discriminate|]. intros [Hr [Hin ->]]. exfalso.
    assert (Hno := find_none _ _ Hfind (up_path env r)).
    cbv beta in Hno. rewrite revision_of_up_path, String.eqb_refl in Hno by assumption.
    assert (true = false) by (apply Hno; now apply -> in_rev). discriminate.
Qed.

End FileNames.

Section MarkerLines.

Lemma hash_is_no_space : Str.isspace "#"%char = false.
Proof. reflexivity. Qed.

Lemma blank_has_no_hash ws : blank ws -> ~ occurs "#"%char ws.
Proof. intros Hb H. apply Hb in H. discriminate. Qed.

Lemma predecessor_of_marker_line rest :
  ~ occurs "#"%char rest ->
  predecessor_of_line (String.append PREDECESSOR_MARKER rest) = Str.strip rest.
Proof.
  intros H. unfold predecessor_of_line.
  rewrite StrFacts.replace_prefix by discriminate. cbn [String.append].
  rewrite (@StrFacts.replace_absent PREDECESSOR_MARKER EmptyString "#"%char);
    [reflexivity | | assumption].
  unfold occurs, PREDECESSOR_MARKER. simpl. tauto.
Qed.

Lemma predecessor_of_padded_marker_line ws1 name ws2 :
  blank ws1 -> blank ws2 -> ~ occurs "#"%char name ->
  predecessor_of_line
    (String.append PREDECESSOR_MARKER
       (String.append ws1 (String.append name ws2)))
  = Str.strip name.
Proof.
  intros H1 H2 Hn. rewrite predecessor_of_marker_line.
  - now apply StrFacts.strip_padded.
  - intros H. apply StrFacts.occurs_append in H. destruct H as [H|H].
    + now apply (blank_has_no_hash H1).
    + apply StrFacts.occurs_append in H. destruct H as [H|H]; [now apply Hn|].
      now apply (blank_has_no_hash H2).
Qed.

End MarkerLines.


Module ScaffoldFacts.

Lemma occurs_string_of_rev c word :
  occurs c (string_of_list_ascii (rev word)) <-> In c word.
Proof.
  unfold occurs. rewrite list_ascii_of_string_of_list_ascii.
  symmetry. apply in_rev.
Qed.

(** The words [split] returns are not empty, hold no white space, and are
    made of characters of the text. *)
Lemma split_from_words s :
  forall word w,
    (forall c, In c word -> Str.isspace c = false) ->
    In w (Scaffold.split_from word s) ->
    w <> EmptyString /\
    forall c, occurs c w -> Str.isspace c = false /\ (In c word \/ occurs c s).
Proof.
  induction s as [|x s IH]; intros word w Hword Hw.
  - destruct word as [|y word]; [contradiction|].
    destruct Hw as [<-|[]]. split.
    + intros H. apply (f_equal list_ascii_of_string) in H.
      rewrite list_ascii_of_string_of_list_ascii in H. simpl in H.
      now destruct (rev word).
    + intros c Hc. apply -> occurs_string_of_rev in Hc. split; [now apply Hword | now left].
  - cbn [Scaffold.split_from] in Hw.
    destruct (Str.isspace x) eqn:Hx.
    + assert (Htail : In w (Scaffold.split_from [] s) ->
                      w <> EmptyString /\
                      forall c, occurs c w ->
                                Str.isspace c = false /\ (In c word \/ occurs c (String x s))).
      { intros H. destruct (IH [] w) as [Hne Hc]; [intros c [] | exact H |].
        split; [exact Hne|]. intros c Hcw. destruct (Hc c Hcw) as [Hs [[]|Ho]].
        split; [exact Hs|]. right. apply StrFacts.occurs_cons. now right. }
      destruct word as [|y word]; [now apply Htail|].
      destruct Hw as [<-|Hw]; [|now apply Htail].
      split.
      * intros H. apply (f_equal list_ascii_of_string) in H.
        rewrite list_ascii_of_string_of_list_ascii in H. simpl in H.
        now destruct (rev word).
      * intros c Hc. apply -> occurs_string_of_rev in Hc.
        split; [now apply Hword | now left].
    + destruct (IH (x :: word) w) as [Hne Hc]; [|exact Hw|].
      * intros c [<-|Hc]; [exact Hx | now apply Hword].
      * split; [exact Hne|]. intros c Hcw.
        destruct (Hc c Hcw) as [Hs [[<-|Hin]|Ho]]; (split; [exact Hs|]).
        -- right. apply StrFacts.occurs_cons. now left.
        -- now left.
        -- right. apply StrFacts.occurs_cons. now right.
Qed.

Lemma split_words name w :
  In w (Scaffold.split name) ->
  w <> EmptyString /\
  forall c, occurs c w -> Str.isspace c = false /\ occurs c name.
Proof.
  intros Hw. destruct (@split_from_words name [] w) as [Hne Hc];
    [intros c [] | exact Hw |].
  split; [exact Hne|]. intros c Hcw. destruct (Hc c Hcw) as [Hs [[]|Ho]]. now split.
Qed.

(** A text without white space is one word. *)
Lemma split_from_unspaced s :
  forall word,
    unspaced s -> word <> [] \/ s <> EmptyString ->
    Scaffold.split_from word s
    = [String.append (string_of_list_ascii (rev word)) s].
Proof.
  induction s as [|x s IH]; intros word Hs Hne.
  - destruct word as [|y word]; [destruct Hne as [H|H]; now elim H|].
    cbn [Scaffold.split_from]. now rewrite StrFacts.append_nil_r.
  - apply StrFacts.unspaced_cons in Hs. destruct Hs as [Hx Hs].
    cbn [Scaffold.split_from]. rewrite Hx. rewrite IH; [|assumption|left; discriminate].
    cbn [rev]. rewrite StrFacts.string_of_app, StrFacts.append_assoc. reflexivity.
Qed.

(** A text of white space has no word. *)
Lemma split_from_blank s : blank s -> Scaffold.split_from [] s = [].
Proof.
  induction s as [|x s IH]; intros Hb; [reflexivity|].
  apply StrFacts.blank_cons in Hb. destruct Hb as [Hx Hb].
  cbn [Scaffold.split_from]. rewrite Hx. now apply IH.
Qed.

Lemma occurs_join c sep words :
  occurs c (Scaffold.join sep words) ->
  occurs c sep \/ exists w, In w words /\ occurs c w.
Proof.
  unfold Scaffold.join. induction words as [|w words IH]; intros H.
  - now apply StrFacts.occurs_nil in H.
  - cbn [String.concat] in H. destruct words as [|w' words].
    + right. exists w. split; [now left | exact H].
    + apply StrFacts.occurs_append in H. destruct H as [H|H].
      * right. exists w. split; [now left | exact H].
      * apply StrFacts.occurs_append in H. destruct H as [H|H]; [now left|].
        destruct (IH H) as [Hs|[v [Hv Hc]]]; [now left|].
        right. exists v. split; [now right | exact Hc].
Qed.

Lemma occurs_slug c name :
  occurs c (Scaffold.join "_" (Scaffold.split name)) ->
  Str.isspace c = false /\ (c = "_"%char \/ occurs c name).
Proof.
  intros H. apply occurs_join in H. destruct H as [H|[w [Hw Hc]]].
  - destruct H as [<-|[]]. split; [reflexivity | now left].
  - destruct (@split_words name w Hw) as [_ Hchars].
    destruct (Hchars c Hc) as [Hs Ho]. split; [exact Hs | now right].
Qed.

Lemma slug_of_unspaced name :
  unspaced name -> Scaffold.join "_" (Scaffold.split name) = name.
Proof.
  intros Hn. destruct name as [|x name]; [reflexivity|].
  unfold Scaffold.split. rewrite split_from_unspaced; [reflexivity | exact Hn |].
  right. discriminate.
Qed.

Lemma occurs_revision_name c time name :
  occurs c (Scaffold.revision_name time name) ->
  occurs c time \/ c = "_"%char \/ (occurs c name /\ Str.isspace c = false).
Proof.
  unfold Scaffold.revision_name. intros H.
  apply StrFacts.occurs_append in H. destruct H as [H|H]; [now left|].
  apply StrFacts.occurs_append in H. destruct H as [H|H].
  - destruct H as [<-|[]]. right. now left.
  - apply occurs_slug in H. destruct H as [Hs [->|Ho]]; right; [now left | now right].
Qed.

Lemma plain_revision_name time name :
  plain time -> plain name -> plain (Scaffold.revision_name time name).
Proof.
  intros [Ht1 Ht2] [Hn1 Hn2]. split; intros H;
    apply occurs_revision_name in H;
    destruct H as [H|[H|[H _]]]; try discriminate; auto.
Qed.

(** *** Sorting *)

Lemma ascii_compare_trans a b c :
  Ascii.compare a b <> Gt -> Ascii.compare b c <> Gt -> Ascii.compare a c <> Gt.
Proof.
  unfold Ascii.compare. intros H1 H2.
  destruct (BinNat.N.compare_spec (N_of_ascii a) (N_of_ascii b)) as [E1|L1|G1];
    [| |now elim H1];
    destruct (BinNat.N.compare_spec (N_of_ascii b) (N_of_ascii c)) as [E2|L2|G2];
    try (now elim H2); intros H3; apply BinNat.N.compare_gt_iff in H3.
  - rewrite E1, E2 in H3. now apply BinNat.N.lt_irrefl in H3.
  - rewrite E1 in H3. exact (BinNat.N.lt_asymm _ _ H3 L2).
  - rewrite <- E2 in H3. exact (BinNat.N.lt_asymm _ _ H3 L1).
  - exact (BinNat.N.lt_asymm _ _ H3 (BinNat.N.lt_trans _ _ _ L1 L2)).
Qed.

Lemma ascii_compare_eq_trans a b c :
  Ascii.compare a b = Eq -> Ascii.compare b c = Ascii.compare a c.
Proof. intros H. apply Ascii.compare_eq_iff in H. now subst. Qed.

Lemma ascii_compare_lt_trans a b c :
  Ascii.compare a b = Lt -> Ascii.compare b c <> Gt -> Ascii.compare a c = Lt.
Proof.
  unfold Ascii.compare. intros H1 H2.
  apply BinNat.N.compare_lt_iff in H1. apply BinNat.N.compare_lt_iff.
  destruct (BinNat.N.compare_spec (N_of_ascii b) (N_of_ascii c)) as [E2|L2|G2].
  - now rewrite <- E2.
  - now apply BinNat.N.lt_trans with (N_of_ascii b).
  - now elim H2.
Qed.

Lemma leb_trans s1 : forall s2 s3,
  String.leb s1 s2 = true -> String.leb s2 s3 = true -> String.leb s1 s3 = true.
Proof.
  unfold String.leb.
  induction s1 as [|a s1 IH]; intros [|b s2] [|c s3]; simpl; try easy.
  destruct (Ascii.compare a b) eqn:Hab; [| |easy].
  - rewrite <- (@ascii_compare_eq_trans a b c Hab).
    destruct (Ascii.compare b c); [apply IH | easy | easy].
  - intros _ H2.
    rewrite (@ascii_compare_lt_trans a b c Hab); [reflexivity|].
    intros Hbc. rewrite Hbc in H2. discriminate.
Qed.

Lemma leb_refl s : String.leb s s = true.
Proof. destruct (String.leb_total s s); assumption. Qed.

Lemma in_insert x y l : In y (Scaffold.insert x l) <-> y = x \/ In y l.
Proof.
  induction l as [|z l IH]; simpl.
  - intuition.
  - destruct (String.leb x z); simpl; [intuition | rewrite IH; intuition].
Qed.

Lemma in_sort y l : In y (Scaffold.sort l) <-> In y l.
Proof.
  induction l as [|x l IH]; simpl; [reflexivity|].
  rewrite in_insert, IH. intuition.
Qed.

Lemma ascending_insert x l : ascending l -> ascending (Scaffold.insert x l).
Proof.
  induction l as [|z l IH]; intros Hl; simpl.
  - split; [intros y [] | exact I].
  - destruct Hl as [Hz Hl]. destruct (String.leb x z) eqn:Hxz; simpl.
    + split; [|split; assumption].
      intros y [<-|Hy]; [exact Hxz|]. apply leb_trans with z; [exact Hxz | now apply Hz].
    + split; [|now apply IH].
      intros y Hy. apply in_insert in Hy. destruct Hy as [->|Hy]; [|now apply Hz].
      destruct (String.leb_total x z) as [H|H]; [congruence | exact H].
Qed.

Lemma ascending_sort l : ascending (Scaffold.sort l).
Proof. induction l as [|x l IH]; simpl; [exact I | now apply ascending_insert]. Qed.

Lemma last_of_ascending l d :
  ascending l -> forall y, In y l -> String.leb y (last l d) = true.
Proof.
  induction l as [|x l IH]; intros Hl y Hy; [contradiction|].
  destruct Hl as [Hx Hl]. destruct l as [|z l].
  - destruct Hy as [<-|[]]. apply leb_refl.
  - change (last (x :: z :: l) d) with (last (z :: l) d).
    destruct Hy as [<-|Hy]; [|now apply IH].
    apply leb_trans with z; [apply Hx; now left | apply IH; [exact Hl | now left]].
Qed.

Lemma last_in (l : list string) d : l <> [] -> In (last l d) l.
Proof.
  induction l as [|x l IH]; intros Hne; [now elim Hne|].
  destruct l as [|z l]; [now left|]. right. apply IH. discriminate.
Qed.

(** [all_revisions.sort(); all_revisions[-1]] is the greatest element. *)
Lemma last_of_sort l d :
  l <> [] ->
  In (last (Scaffold.sort l) d) l /\
  forall y, In y l -> String.leb y (last (Scaffold.sort l) d) = true.
Proof.
  intros Hne. split.
  - apply in_sort. apply last_in. destruct l as [|x l]; [now elim Hne|].
    intros H. assert (Hx : In x (Scaffold.sort (x :: l))) by (apply in_sort; now left).
    rewrite H in Hx. exact Hx.
  - intros y Hy. apply last_of_ascending; [apply ascending_sort | now apply in_sort].
Qed.

(** *** Slices *)

Lemma substring_prefix a b :
  String.substring 0 (String.length a) (String.append a b) = a.
Proof.
  induction a as [|x a IH]; simpl.
  - now destruct b.
  - now rewrite IH.
Qed.

Lemma drop_last_suffix a b :
  Scaffold.drop_last (String.length b) (String.append a b) = a.
Proof.
  unfold Scaffold.drop_last. rewrite StrFacts.length_append, Nat.add_sub.
  apply substring_prefix.
Qed.

Lemma drop_last_extension a :
  Scaffold.drop_last 4 (String.append a ".sql") = a.
Proof. exact (drop_last_suffix a ".sql"). Qed.

End ScaffoldFacts.


Lemma plain_letter (c : ascii) :
  c <> "/"%char -> c <> "."%char -> plain (String c EmptyString).
Proof.
  intros H1 H2. split; intros [H|[]]; [now apply H1 | now apply H2].
Qed.

Lemma diamond_plainly_named : plainly_named Examples.diamond.
Proof.
  intros f Hf. simpl in Hf.
  destruct Hf as [<-|[<-|[<-|[<-|[]]]]];
    [exists "D" | exists "B" | exists "A" | exists "C"];
    (split; [apply plain_letter; discriminate | reflexivity]).
Qed.

(** X8 (lines 141-143).  When every file [glob] finds in [up/] is
    [<stem>.sql] for a stem with no '/' and no '.', the catalog has exactly one
    entry per file, keyed by the stem: [r] is bound to [f] iff [f] was found
    and is [up/r.sql]. *)
Theorem plainly_named_files_are_catalogued_under_their_stems
  (U : Type) (env : Environment U) (r f : string) :
  plainly_named env ->
  (Dict.get r (catalog env) = Some f <->
   plain r /\
   In f (glob env (String.append (migrations_directory env) "*.sql")) /\
   f = up_path env r).
Proof. apply catalog_of_plain_names. Qed.

Lemma plainly_named_files_are_catalogued_under_their_stems_witness :
  plainly_named Examples.diamond /\
  Dict.get "A" (catalog Examples.diamond) = Some (up_path Examples.diamond "A").
Proof.
  split; [exact diamond_plainly_named|].
  apply (@plainly_named_files_are_catalogued_under_their_stems
           _ Examples.diamond "A" (up_path Examples.diamond "A")
           diamond_plainly_named).
  split; [apply plain_letter; discriminate|].
  split; [simpl; tauto | reflexivity].
Defined.

(** X9 (lines 161-162).  A line made of the predecessor marker, white
    space, a name without '#', and white space (the line end included) is a
    marker line, and the predecessor read from it is the name without the
    white space at its ends: the name itself when it holds no white
    space. *)
Theorem marker_line_declares_the_name_it_carries (ws1 name ws2 : string) :
  blank ws1 -> blank ws2 -> ~ occurs "#"%char name ->
  let line :=
    String.append PREDECESSOR_MARKER
      (String.append ws1 (String.append name ws2)) in
  Str.startswith line PREDECESSOR_MARKER = true /\
  predecessor_of_line line = Str.strip name /\
  (unspaced name -> predecessor_of_line line = name) /\
  forall applied_migrations,
    read_predecessors applied_migrations [line]
    = ([Str.strip name],
       if Str.mem (Str.strip name) applied_migrations then [] else [Str.strip name]).
Proof.
  intros H1 H2 Hn line.
  assert (Hstart : Str.startswith line PREDECESSOR_MARKER = true)
    by apply StrFacts.prefix_append.
  assert (Hline : predecessor_of_line line = Str.strip name)
    by now apply predecessor_of_padded_marker_line.
  split; [exact Hstart|]. split; [exact Hline|]. split.
  - intros Hu. rewrite Hline. now apply StrFacts.strip_unspaced.
  - intros applied. cbn [read_predecessors]. rewrite Hstart, Hline. reflexivity.
Qed.

Lemma marker_line_declares_the_name_it_carries_witness :
  predecessor_of_line (Examples.marker "A") = "A".
Proof.
  assert (Hspace : blank " ").
  { intros c [<-|[]]. reflexivity. }
  assert (Hnewline : blank Examples.newline).
  { intros c [<-|[]]. reflexivity. }
  assert (Hname : ~ occurs "#"%char "A").
  { intros [H|[]]. discriminate. }
  destruct (@marker_line_declares_the_name_it_carries
              " " "A" Examples.newline Hspace Hnewline Hname)
    as [_ [_ [H _]]].
  apply H. intros c [<-|[]]. reflexivity.
Defined.

(** X10 (lines 113-114).  The revision name is the clock reading, an
    underscore, and the words of the requested name joined by underscores:
    the white space of the name never reaches it, every other character
    comes from the clock reading or the name, a name without white space
    is kept as it is, and a name of white space only leaves nothing after
    the underscore. *)
Theorem revision_name_joins_the_words_of_the_name (time name : string) :
  (forall c,
      occurs c (Scaffold.revision_name time name) ->
      occurs c time \/ c = "_"%char \/ (occurs c name /\ Str.isspace c = false)) /\
  (unspaced name ->
   Scaffold.revision_name time name
   = String.append time (String.append "_" name)) /\
  (blank name ->
   Scaffold.revision_name time name = String.append time "_").
Proof.
  split; [intros c; apply ScaffoldFacts.occurs_revision_name|]. split.
  - intros Hn. unfold Scaffold.revision_name.
    now rewrite ScaffoldFacts.slug_of_unspaced.
  - intros Hb. unfold Scaffold.revision_name, Scaffold.split.
    now rewrite ScaffoldFacts.split_from_blank.
Qed.

(** X11 (lines 113-128, 143, 192).  For a clock reading and a name
    without '/' and '.', the two files [create_revision] writes are the
    ones the other commands look for: apply catalogues the file written in
    [up/] under the revision name, and rollback of that revision name reads
    the file written in [down/]. *)
Theorem created_files_are_the_ones_apply_and_rollback_look_for
  (U : Type) (env : Environment U) (time name : string) :
  plain time -> plain name ->
  let r := Scaffold.revision_name time name in
  plain r /\
  Scaffold.up_file env r = up_path env r /\
  revision_of_filename (migrations_directory env) (Scaffold.up_file env r) = r /\
  Scaffold.down_file env r = file_to_apply env r.
Proof.
  intros Ht Hn r.
  assert (Hr : plain r) by now apply ScaffoldFacts.plain_revision_name.
  split; [exact Hr|]. split; [reflexivity|]. split.
  - now apply revision_of_up_path.
  - unfold Scaffold.down_file, file_to_apply. apply StrFacts.append_assoc.
Qed.

Lemma created_files_are_the_ones_apply_and_rollback_look_for_witness :
  revision_of_filename (migrations_directory Examples.diamond)
    (Scaffold.up_file Examples.diamond
       (Scaffold.revision_name "20240131120000" "add users"))
  = "20240131120000_add_users".
Proof.
  assert (Htime : plain "20240131120000").
  { split; intros H; simpl in H;
      repeat (destruct H as [H|H]; [discriminate|]); exact H. }
  assert (Hname : plain "add users").
  { split; intros H; simpl in H;
      repeat (destruct H as [H|H]; [discriminate|]); exact H. }
  destruct (@created_files_are_the_ones_apply_and_rollback_look_for
              _ Examples.diamond "20240131120000" "add users" Htime Hname)
    as [_ [_ [H _]]].
  exact H.
Defined.

(** X12 (lines 116-120, 143, 161-162).  With no file in [up/] the
    predecessor text handed to the template is empty.  Otherwise, when the
    files are [<stem>.sql] for stems without '/', '.', '#' and without
    white space at their ends, the text is a marker line, and apply reads
    from it the catalog identifier of the last file in ascending order of
    the file names. *)
Theorem new_revision_names_the_latest_file_as_predecessor
  (U : Type) (env : Environment U) :
  let all_revisions :=
    glob env (String.append (migrations_directory env) "*.sql") in
  (forall f, In f all_revisions ->
             exists b, plain b /\ marker_safe b /\ f = up_path env b) ->
  (all_revisions = [] -> Scaffold.previous_migration env = EmptyString) /\
  (all_revisions <> [] ->
   exists latest,
     In latest all_revisions /\
     (forall f, In f all_revisions -> String.leb f latest = true) /\
     Str.startswith (Scaffold.previous_migration env) PREDECESSOR_MARKER = true /\
     predecessor_of_line (Scaffold.previous_migration env)
     = revision_of_filename (migrations_directory env) latest /\
     Dict.get (predecessor_of_line (Scaffold.previous_migration env)) (catalog env)
     = Some latest).
Proof.
  intros all_revisions Hnames. split.
  - intros Hnone. unfold Scaffold.previous_migration.
    fold all_revisions. now rewrite Hnone.
  - intros Hsome.
    destruct (@ScaffoldFacts.last_of_sort all_revisions EmptyString Hsome)
      as [Hin Hmax].
    remember (last (Scaffold.sort all_revisions) EmptyString) as latest eqn:Hlast.
    exists latest. split; [exact Hin|]. split; [exact Hmax|].
    destruct (Hnames latest Hin) as [b [Hplain [[Hhash Hstrip] Hlatest]]].
    assert (Hprev : Scaffold.previous_migration env
                    = String.append PREDECESSOR_MARKER (String.append " " b)).
    { unfold Scaffold.previous_migration. fold all_revisions.
      destruct (Scaffold.sort all_revisions) as [|x l] eqn:Hsort.
      - exfalso. destruct all_revisions as [|y l]; [now elim Hsome|].
        assert (Hy : In y (Scaffold.sort (y :: l)))
          by (apply ScaffoldFacts.in_sort; now left).
        rewrite Hsort in Hy. exact Hy.
      - rewrite <- Hlast, Hlatest. unfold up_path.
        rewrite <- (StrFacts.append_assoc (migrations_directory env) b ".sql").
        rewrite ScaffoldFacts.drop_last_extension.
        rewrite StrFacts.replace_prefix by apply migrations_directory_not_empty.
        cbn [String.append].
        rewrite (@StrFacts.replace_absent (migrations_directory env) EmptyString "/"%char);
          [reflexivity | apply migrations_directory_has_slash | exact (proj1 Hplain)]. }
    assert (Hread : predecessor_of_line (Scaffold.previous_migration env) = b).
    { rewrite Hprev, predecessor_of_marker_line.
      - rewrite StrFacts.strip_after_blank; [exact Hstrip|].
        intros c [<-|[]]. reflexivity.
      - intros [H|H]; [discriminate | now apply Hhash]. }
    split; [rewrite Hprev; apply StrFacts.prefix_append|].
    split.
    + rewrite Hread, Hlatest. symmetry. now apply revision_of_up_path.
    + rewrite Hread. apply catalog_of_plain_names.
      * intros f Hf. destruct (Hnames f Hf) as [b' [Hb' [_ ->]]]. now exists b'.
      * split; [exact Hplain|]. split; [exact Hin | exact Hlatest].
Qed.

Lemma diamond_marker_safe (c : ascii) :
  c <> "#"%char -> Str.isspace c = false -> marker_safe (String c EmptyString).
Proof.
  intros Hc Hs. split.
  - intros [H|[]]. now apply Hc.
  - apply StrFacts.strip_unspaced. intros x [<-|[]]. exact Hs.
Qed.

Lemma new_revision_names_the_latest_file_as_predecessor_witness :
  Scaffold.previous_migration Examples.diamond = "-- # D" /\
  Dict.get (predecessor_of_line (Scaffold.previous_migration Examples.diamond))
    (catalog Examples.diamond)
  = Some (Examples.up "D").
Proof.
  split; [reflexivity|].
  assert (Hnames : forall f,
             In f (glob Examples.diamond
                     (String.append (migrations_directory Examples.diamond) "*.sql")) ->
             exists b, plain b /\ marker_safe b /\ f = up_path Examples.diamond b).
  { intros f Hf. simpl in Hf.
    destruct Hf as [<-|[<-|[<-|[<-|[]]]]];
      [exists "D" | exists "B" | exists "A" | exists "C"];
      (split; [apply plain_letter; discriminate|]);
      (split; [apply diamond_marker_safe; [discriminate | reflexivity] | reflexivity]). }
  destruct (@new_revision_names_the_latest_file_as_predecessor
              _ Examples.diamond Hnames) as [_ H].
  destruct H as [latest [Hin [Hmax [_ [_ Hget]]]]]; [discriminate|].
  rewrite Hget. f_equal.
  simpl in Hin. destruct Hin as [<-|[<-|[<-|[<-|[]]]]]; try reflexivity.
  - assert (H := Hmax (Examples.up "D")). simpl in H. discriminate H. tauto.
  - assert (H := Hmax (Examples.up "D")). simpl in H. discriminate H. tauto.
  - assert (H := Hmax (Examples.up "D")). simpl in H. discriminate H. tauto.
Defined.
